(** * Campsite availability checker: the availability reducer of
    [check_rec_gov.py], embedded and verified.

    The development follows the source file top to bottom:
    - a small exception monad for the Python exceptions the code can raise;
    - [datetime]'s proleptic Gregorian ordinals ([toordinal], [fromordinal]);
    - [consecutive_nights], the range compactor built on [itertools.groupby];
    - [get_num_available_sites], the site counter;
    - [get_park_information], the monthly aggregator;
    - [getOutputData], the report data builder. *)

From Stdlib Require Import ZArith Bool String Ascii DecimalString List Lia.
From Stdlib Require Import Sorted Permutation OrdersEx RelationClasses.
Import ListNotations.
Open Scope Z_scope.

(** ** Exceptions *)

Inductive exn : Type :=
| ValueError
| IndexError
| KeyError
| OverflowError.

Inductive result (A : Type) : Type :=
| Ok (a : A)
| Raise (e : exn).

Arguments Ok {A} a.
Arguments Raise {A} e.

Definition bind {A B : Type} (c : result A) (k : A -> result B) : result B :=
  match c with
  | Ok a => k a
  | Raise e => Raise e
  end.

Notation "x <- c ;; k" := (bind c (fun x => k))
  (at level 61, c at next level, right associativity).

(** [for x in xs: acc = body(acc, x)] where the body may raise. *)
Fixpoint for_each {A S : Type} (body : S -> A -> result S) (xs : list A) (s : S)
  : result S :=
  match xs with
  | [] => Ok s
  | x :: xs' => s' <- body s x ;; for_each body xs' s'
  end.

(** A list comprehension [[f x for x in xs]] whose element expression may raise. *)
Fixpoint comprehension {A B : Type} (f : A -> result B) (xs : list A)
  : result (list B) :=
  match xs with
  | [] => Ok []
  | x :: xs' => y <- f x ;; ys <- comprehension f xs' ;; Ok (y :: ys)
  end.

(** ** Calendar dates and day ordinals ([datetime]) *)

Module Calendar.

Record date : Type := mkdate { year : Z; month : Z; day : Z }.

Definition MAXORDINAL : Z := 3652059.

Definition DAYS_IN_MONTH (m : Z) : Z :=
  nth (Z.to_nat m) [-1; 31; 28; 31; 30; 31; 30; 31; 31; 30; 31; 30; 31] 0.

Definition DAYS_BEFORE_MONTH (m : Z) : Z :=
  nth (Z.to_nat m) [-1; 0; 31; 59; 90; 120; 151; 181; 212; 243; 273; 304; 334] 0.

Definition is_leap (y : Z) : bool :=
  (y mod 4 =? 0) && (negb (y mod 100 =? 0) || (y mod 400 =? 0)).

Definition days_before_year (y : Z) : Z :=
  let y := y - 1 in y * 365 + y / 4 - y / 100 + y / 400.

Definition days_in_month (y m : Z) : Z :=
  if (m =? 2) && is_leap y then 29 else DAYS_IN_MONTH m.

Definition days_before_month (y m : Z) : Z :=
  DAYS_BEFORE_MONTH m + (if (2 <? m) && is_leap y then 1 else 0).

Definition ymd2ord (y m d : Z) : Z :=
  days_before_year y + days_before_month y m + d.

Definition DI400Y : Z := 146097.
Definition DI100Y : Z := 36524.
Definition DI4Y : Z := 1461.

(** The month and day of the [n]-th day (counted from 0) of a year. *)
Definition ord2md (leapyear : bool) (n : Z) : Z * Z :=
  let m := Z.shiftr (n + 50) 5 in
  let preceding := DAYS_BEFORE_MONTH m + (if (2 <? m) && leapyear then 1 else 0) in
  let '(m, preceding) :=
    if n <? preceding
    then (m - 1,
          preceding - (DAYS_IN_MONTH (m - 1)
                       + (if (m - 1 =? 2) && leapyear then 1 else 0)))
    else (m, preceding) in
  (m, n - preceding + 1).

Definition ord2ymd (n : Z) : Z * Z * Z :=
  let n := n - 1 in
  let n400 := n / DI400Y in
  let n := n mod DI400Y in
  let y := n400 * 400 + 1 in
  let n100 := n / DI100Y in
  let n := n mod DI100Y in
  let n4 := n / DI4Y in
  let n := n mod DI4Y in
  let n1 := n / 365 in
  let n := n mod 365 in
  let y := y + (n100 * 100 + n4 * 4 + n1) in
  if (n1 =? 4) || (n100 =? 4) then (y - 1, 12, 31)
  else
    let leapyear := (n1 =? 3) && (negb (n4 =? 24) || (n100 =? 3)) in
    let '(m, d) := ord2md leapyear n in
    (y, m, d).

(** The checks of the [date] constructor ([_check_date_fields]). *)
Definition check_date_fields (y m d : Z) : bool :=
  (1 <=? y) && (y <=? 9999) && (1 <=? m) && (m <=? 12)
  && (1 <=? d) && (d <=? days_in_month y m).

Definition valid_date (d : date) : Prop :=
  check_date_fields (year d) (month d) (day d) = true.

Definition toordinal (d : date) : Z := ymd2ord (year d) (month d) (day d).

Definition fromordinal (n : Z) : result date :=
  let '(y, m, d) := ord2ymd n in
  if check_date_fields y m d then Ok (mkdate y m d) else Raise ValueError.

(** [d - timedelta(days=i)]. *)
Definition sub_days (d : date) (i : Z) : result date :=
  let n := toordinal d - i in
  if (0 <? n) && (n <=? MAXORDINAL) then fromordinal n else Raise OverflowError.

(** [(b - a).days] for two midnight datetimes. *)
Definition days_between (a b : date) : Z := toordinal b - toordinal a.

End Calendar.

Import Calendar.

(** ** Python lists and [itertools] *)

(** [l[i]]: a negative index counts from the end; out of range raises. *)
Definition py_index {A : Type} (l : list A) (i : Z) : result A :=
  let j := if i <? 0 then i + Z.of_nat (length l) else i in
  if j <? 0 then Raise IndexError
  else match nth_error l (Z.to_nat j) with
       | Some x => Ok x
       | None => Raise IndexError
       end.

(** [range(lo, hi)]. *)
Definition py_range (lo hi : Z) : list Z :=
  map (fun i => lo + Z.of_nat i) (seq 0 (Z.to_nat (hi - lo))).

Definition len {A : Type} (l : list A) : Z := Z.of_nat (length l).

(** The key function [lambda x: x - next(c)] applied along the list: the
    counter [c] is advanced once per element, in order. *)
Fixpoint count_keys (c : Z) (l : list Z) : list (Z * Z) :=
  match l with
  | [] => []
  | x :: l' => (x - c, x) :: count_keys (c + 1) l'
  end.

(** [itertools.groupby] on a list of (key, item): neighbours with equal keys
    form one group, in order.  The keys are integers, compared with [==], so
    comparing each item with the start of its group or with its neighbour
    gives the same groups; the recursion below goes from the right. *)
Fixpoint groupby {A : Type} (l : list (Z * A)) : list (Z * list A) :=
  match l with
  | [] => []
  | (k, x) :: l' =>
      match groupby l' with
      | (k', g) :: gs =>
          if k =? k' then (k, x :: g) :: gs else (k, [x]) :: (k', g) :: gs
      | [] => [(k, [x])]
      end
  end.

(** [list(list(g) for _, g in groupby(ordinal_dates, lambda x: x - next(c)))]. *)
Definition consecutive_ranges (ordinal_dates : list Z) : list (list Z) :=
  map snd (groupby (count_keys 0 ordinal_dates)).

(** ** Python dictionaries

    A [dict] keeps its items in insertion order and its keys distinct; it is
    an association list that the operations below keep in that shape. *)

Section Dict.

Context {K V : Type} (eqb : K -> K -> bool).

Fixpoint lookup (d : list (K * V)) (k : K) : option V :=
  match d with
  | [] => None
  | (k', v) :: d' => if eqb k k' then Some v else lookup d' k
  end.

(** [d.setdefault(k, v)]: the dictionary afterwards. *)
Fixpoint setdefault (d : list (K * V)) (k : K) (v : V) : list (K * V) :=
  match d with
  | [] => [(k, v)]
  | (k', v') :: d' =>
      if eqb k k' then (k', v') :: d' else (k', v') :: setdefault d' k v
  end.

(** [d[k] = f(d[k])] for a key that is present; the position is kept. *)
Fixpoint adjust (f : V -> V) (d : list (K * V)) (k : K) : list (K * V) :=
  match d with
  | [] => []
  | (k', v') :: d' =>
      if eqb k k' then (k', f v') :: d' else (k', v') :: adjust f d' k
  end.

End Dict.

Definition dict (V : Type) : Type := list (string * V).
Definition int_dict (V : Type) : Type := list (Z * V).

Definition keys {K V : Type} (d : list (K * V)) : list K := map fst d.

(** [d[k]]. *)
Definition getitem {V : Type} (d : dict V) (k : string) : result V :=
  match lookup String.eqb d k with
  | Some v => Ok v
  | None => Raise KeyError
  end.

(** [d[k].append(x)] on a [defaultdict(list)]. *)
Definition append_at {V : Type} (d : int_dict (list V)) (k : Z) (x : V)
  : int_dict (list V) :=
  adjust Z.eqb (fun l => l ++ [x]) (setdefault Z.eqb d k []) k.

(** A field of a JSON object that may be missing: [obj[name]]. *)
Definition field {V : Type} (f : option V) : result V :=
  match f with
  | Some v => Ok v
  | None => Raise KeyError
  end.

(** ** [sorted] and string keys *)

(** [a < b] on tuples of two strings. *)
Definition pair_ltb (a b : string * string) : bool :=
  match String.compare (fst a) (fst b) with
  | Lt => true
  | Gt => false
  | Eq => match String.compare (snd a) (snd b) with Lt => true | _ => false end
  end.

Section Sorted.

Context {A : Type} (key : A -> string * string).

Fixpoint insert_by (x : A) (l : list A) : list A :=
  match l with
  | [] => [x]
  | y :: l' => if pair_ltb (key y) (key x) then y :: insert_by x l' else x :: y :: l'
  end.

(** [sorted(l, key=key)]: a stable sort. *)
Definition sorted (l : list A) : list A := fold_right insert_by [] l.

End Sorted.

(** ** The checker *)

(** The two members of [enums.date_format.DateFormat] the code uses. *)
Inductive DateFormat : Type :=
| ISO_DATE_FORMAT_RESPONSE
| INPUT_DATE_FORMAT.

(** [{"start": start, "end": end}]. *)
Record date_range : Type := mkrange { range_start : string; range_end : string }.

Section Checker.

(** [datetime.strptime(dstr, fmt.value)]; [ValueError] when the string does not
    match.  The format strings are the values of [DateFormat], which live in
    [enums/date_format.py]; they are taken as a parameter. *)
Variable strptime : string -> DateFormat -> result date.

(** [utils.formatter.format_date(d, format_string=fmt.value)]. *)
Variable format_date : date -> DateFormat -> string.

(** Python's built-in [int] on a string; [ValueError] when it is no integer. *)
Variable int_of_str : string -> result Z.

Definition ordinal_of (dstr : string) : result Z :=
  d <- strptime dstr ISO_DATE_FORMAT_RESPONSE ;; Ok (toordinal d).

(** One pass of the inner loop of [consecutive_nights]. *)
Definition emit_window (nights : Z) (r : list Z)
    (acc : list (string * string)) (start_index : Z)
  : result (list (string * string)) :=
  s <- py_index r start_index ;;
  ds <- fromordinal s ;;
  let start_nice := format_date ds INPUT_DATE_FORMAT in
  e <- py_index r (start_index + nights - 1) ;;
  de <- fromordinal (e + 1) ;;
  let end_nice := format_date de INPUT_DATE_FORMAT in
  Ok (acc ++ [(start_nice, end_nice)]).

(** One pass of the outer loop of [consecutive_nights]. *)
Definition emit_range (nights : Z) (acc : list (string * string)) (r : list Z)
  : result (list (string * string)) :=
  if len r <? nights then Ok acc
  else for_each (emit_window nights r) (py_range 0 (len r - nights + 1)) acc.

Definition consecutive_nights (available : list string) (nights : Z)
  : result (list (string * string)) :=
  ordinal_dates <- comprehension ordinal_of available ;;
  for_each (emit_range nights) (consecutive_ranges ordinal_dates) [].

(** *** The site counter *)

(** The ISO strings of the days [end_date - 1 .. end_date - num_days]. *)
Definition window_dates (start_date end_date : date) : result (list string) :=
  let num_days := days_between start_date end_date in
  dates <- comprehension (sub_days end_date) (py_range 1 (num_days + 1)) ;;
  Ok (map (fun i => format_date i ISO_DATE_FORMAT_RESPONSE) dates).

(** [if nights not in range(1, num_days + 1): nights = num_days]. *)
Definition effective_nights (nights : option Z) (num_days : Z) : Z :=
  match nights with
  | Some n => if (1 <=? n) && (n <? num_days + 1) then n else num_days
  | None => num_days
  end.

(** The dates of a site that are in the wanted window, in their order. *)
Definition desired_available (dates : list string) (availabilities : list string)
  : list string :=
  filter (fun date => existsb (String.eqb date) dates) availabilities.

Definition record_range (site : string) (m : int_dict (list date_range))
    (r : string * string) : result (int_dict (list date_range)) :=
  let '(start, end_) := r in
  k <- int_of_str site ;;
  Ok (append_at m k (mkrange start end_)).

(** One pass of the loop over [park_information.items()]. *)
Definition count_site (nights : Z) (dates : list string)
    (st : Z * int_dict (list date_range)) (item : string * list string)
  : result (Z * int_dict (list date_range)) :=
  let '(num_available, by_id) := st in
  let '(site, availabilities) := item in
  match desired_available dates availabilities with
  | [] => Ok st
  | desired =>
      appropriate_consecutive_ranges <- consecutive_nights desired nights ;;
      let num_available :=
        match appropriate_consecutive_ranges with
        | [] => num_available
        | _ => num_available + 1
        end in
      by_id <- for_each (record_range site) appropriate_consecutive_ranges by_id ;;
      Ok (num_available, by_id)
  end.

(** [start_date] and [end_date] are datetimes at midnight, as [main] builds
    them with [strptime(..., '%Y-%m-%d')]; they are modelled as dates. *)
Definition get_num_available_sites (park_information : dict (list string))
    (start_date end_date : date) (nights : option Z)
  : result (Z * Z * int_dict (list date_range)) :=
  let maximum := len park_information in
  let num_days := days_between start_date end_date in
  dates <- window_dates start_date end_date ;;
  let nights := effective_nights nights num_days in
  st <- for_each (count_site nights dates) park_information (0, []) ;;
  Ok (fst st, maximum, snd st).

(** *** The aggregator *)

(** One campsite of a monthly API response. *)
Record campsite : Type := mkcampsite {
  campsite_id : option string;
  campsite_type : option string;
  site : option string;
  loop : option string;
  max_num_people : option string;
  capacity_rating : option string;
  availabilities : dict string
}.

(** The campsite without ["availabilities"], ["quantities"] and
    ["campsite_id"]. *)
Record site_info : Type := mkinfo {
  info_site : option string;
  info_loop : option string;
  info_max_num_people : option string;
  info_capacity_rating : option string;
  info_campsite_type : option string
}.

Definition campsite_info (c : campsite) : site_info :=
  mkinfo (site c) (loop c) (max_num_people c) (capacity_rating c) (campsite_type c).

(** Truth value of the [campsite_type] argument. *)
Definition wanted_type (t : option string) : option string :=
  match t with
  | Some EmptyString => None
  | other => other
  end.

(** One pass of the loop over [campsite_data["availabilities"].items()]. *)
Definition keep_date (type_filter : option string) (campsite_ids : list Z)
    (campsite_data : campsite) (available : list string) (item : string * string)
  : result (list string) :=
  let '(date, availability_value) := item in
  if negb (String.eqb availability_value "Available") then Ok available
  else
    other_type <-
      match wanted_type type_filter with
      | Some t => t' <- field (campsite_type campsite_data) ;;
                  Ok (negb (String.eqb t t'))
      | None => Ok false
      end ;;
    if other_type then Ok available
    else
      other_id <-
        (if 0 <? len campsite_ids
         then cid <- field (campsite_id campsite_data) ;;
              k <- int_of_str cid ;;
              Ok (negb (existsb (Z.eqb k) campsite_ids))
         else Ok false) ;;
      if other_id then Ok available else Ok (available ++ [date]).

(** One pass of the loop over [month_data["campsites"].items()]. *)
Definition collapse_campsite (type_filter : option string) (campsite_ids : list Z)
    (st : dict (list string) * dict site_info) (item : string * campsite)
  : result (dict (list string) * dict site_info) :=
  let '(data, data2) := st in
  let '(id, campsite_data) := item in
  let data := setdefault String.eqb data id [] in
  let data2 := setdefault String.eqb data2 id (campsite_info campsite_data) in
  available <- for_each (keep_date type_filter campsite_ids campsite_data)
                 (availabilities campsite_data) [] ;;
  match available with
  | [] => Ok (data, data2)
  | _ => Ok (adjust String.eqb (fun a => a ++ available) data id, data2)
  end.

(** The loops that collapse the monthly responses into the two mappings. *)
Definition collapse (api_data : list (dict campsite))
    (type_filter : option string) (campsite_ids : list Z)
  : result (dict (list string) * dict site_info) :=
  for_each (fun st month_data =>
              for_each (collapse_campsite type_filter campsite_ids) month_data st)
    api_data ([], []).

(** [rrule(MONTHLY, dtstart=start_of_month, until=end_date)]: the first day of
    every month from the month of [start_date] to the month of [end_date]. *)
Definition months (start_date end_date : date) : list date :=
  let first := year start_date * 12 + (month start_date - 1) in
  let last := year end_date * 12 + (month end_date - 1) in
  map (fun k => mkdate (k / 12) (k mod 12 + 1) 1) (py_range first (last + 1)).

(** [RecreationClient.get_availability(park_id, month_date)["campsites"]]. *)
Variable get_availability : Z -> date -> result (dict campsite).

(** [RecreationClient.get_park_name(park_id)]. *)
Variable get_park_name : Z -> result string.

Definition get_park_information (park_id : Z) (start_date end_date : date)
    (type_filter : option string) (campsite_ids : list Z)
  : result (dict (list string) * dict site_info) :=
  api_data <- comprehension (get_availability park_id) (months start_date end_date) ;;
  collapse api_data type_filter campsite_ids.

Record park_result : Type := mkresult {
  current : Z;
  maximum : Z;
  availabilities_filtered : int_dict (list date_range);
  park_name : string;
  park_additional_information : dict site_info
}.

Definition check_park (park_id : Z) (start_date end_date : date)
    (type_filter : option string) (campsite_ids : list Z) (nights : option Z)
  : result park_result :=
  info <- get_park_information park_id start_date end_date type_filter campsite_ids ;;
  name <- get_park_name park_id ;;
  counted <- get_num_available_sites (fst info) start_date end_date nights ;;
  let '(cur, tot, filtered) := counted in
  Ok (mkresult cur tot filtered name (snd info)).

End Checker.

(** *** The report data *)

Record site_data : Type := mksite {
  sd_site_id : Z;
  sd_site : string;
  sd_loop : string;
  sd_max_num_people : string;
  sd_capacity_rating : string;
  sd_campsite_type : string
}.

Record campground_data : Type := mkcampground {
  cg_park_id : Z;
  cg_park_name : string;
  cg_total_sites_count : Z;
  cg_available_sites_count : Z;
  cg_available_sites : list site_data
}.

(** [str(n)] for an integer. *)
Definition str_of_int (n : Z) : string := NilZero.string_of_int (Z.to_int n).

Definition getSiteInformation (info_by_site_id : dict site_info) (site_id : Z)
  : result site_info :=
  getitem info_by_site_id (str_of_int site_id).

(** [info[name] if name in info else "na"]. *)
Definition or_na (f : option string) : string :=
  match f with
  | Some v => v
  | None => "na"
  end.

Definition site_entry (info_by_site_id : dict site_info)
    (item : Z * list date_range) : result site_data :=
  let '(site_id, _) := item in
  info <- getSiteInformation info_by_site_id site_id ;;
  Ok (mksite site_id (or_na (info_site info)) (or_na (info_loop info))
        (or_na (info_max_num_people info)) (or_na (info_capacity_rating info))
        (or_na (info_campsite_type info))).

Section Report.

(** [str.lower], the method of the built-in string type: it folds every cased
    letter of Unicode, so it is taken as it is, as a parameter. *)
Variable lower : string -> string.

(** [lambda k: (k['loop'].lower(), k['site'])]. *)
Definition site_key (k : site_data) : string * string :=
  (lower (sd_loop k), sd_site k).

Definition campground_entry (item : Z * park_result) : result campground_data :=
  let '(park_id, info) := item in
  sites <- comprehension (site_entry (park_additional_information info))
             (availabilities_filtered info) ;;
  Ok (mkcampground park_id (park_name info) (maximum info) (current info)
        (sorted site_key sites)).

Definition getOutputData (info_by_park_id : int_dict park_result)
  : result (list campground_data) :=
  comprehension campground_entry info_by_park_id.

End Report.

(** *** The driver *)

(** One entry of [params['parks']]: its ["id"] and the truth value of its
    ["check"]. *)
Record park_cfg : Type := mkcfg { cfg_id : Z; cfg_check : bool }.

(** [d[k] = v]: a new key goes to the end, a known key keeps its place. *)
Fixpoint setitem {V : Type} (d : int_dict V) (k : Z) (v : V) : int_dict V :=
  match d with
  | [] => [(k, v)]
  | (k', v') :: d' => if k =? k' then (k', v) :: d' else (k', v') :: setitem d' k v
  end.

Section Driver.

Variable lower : string -> string.
Variable strptime : string -> DateFormat -> result date.
Variable format_date : date -> DateFormat -> string.
Variable int_of_str : string -> result Z.
Variable get_availability : Z -> date -> result (dict campsite).
Variable get_park_name : Z -> result string.

(** The loop of [main] over [params['parks']]: every park whose ["check"] is
    set is checked with [campsite_type = ''], [campsite_ids = ''] and no
    [nights]. *)
Definition main_info_by_park_id (parks : list park_cfg) (start_date end_date : date)
  : result (int_dict park_result) :=
  for_each
    (fun info_by_park_id park_i =>
       if cfg_check park_i
       then r <- check_park strptime format_date int_of_str get_availability
                   get_park_name (cfg_id park_i) start_date end_date
                   (Some EmptyString) [] None ;;
            Ok (setitem info_by_park_id (cfg_id park_i) r)
       else Ok info_by_park_id)
    parks [].

(** [main] from the parsed parameters to [outputData], the value it hands to
    [generate_html_output]; reading the configuration and writing the page
    are left out. *)
Definition main (parks : list park_cfg) (start_date end_date : date)
  : result (list campground_data) :=
  info_by_park_id <- main_info_by_park_id parks start_date end_date ;;
  getOutputData lower info_by_park_id.

End Driver.

(** [str.lower] on text of ASCII characters, where it folds the letters
    [A] to [Z] and nothing else. The scenarios use it; their strings are
    ASCII. *)
Module AsciiText.

Definition lower_ascii (c : ascii) : ascii :=
  let n := nat_of_ascii c in
  if (Nat.leb 65 n && Nat.leb n 90)%bool then ascii_of_nat (n + 32) else c.

Fixpoint lower (s : string) : string :=
  match s with
  | EmptyString => EmptyString
  | String c s' => String (lower_ascii c) (lower s')
  end.

End AsciiText.

(** ** A concrete date format

    Modelled from the spec: the values of [DateFormat] and
    [utils.formatter.format_date] are not part of the checked file.  The spec
    writes both the available dates and the emitted bounds as ISO calendar
    dates (["2023-07-01"]), so the instance below prints and parses
    [YYYY-MM-DD] for either format.  It is used to run the checker on the
    spec's scenarios; the general results do not depend on it. *)

Module Iso.

Definition digit (k : Z) : ascii := ascii_of_nat (48 + Z.to_nat (k mod 10)).

Definition digit_val (c : ascii) : result Z :=
  let n := Z.of_nat (nat_of_ascii c) in
  if (48 <=? n) && (n <=? 57) then Ok (n - 48) else Raise ValueError.

Definition pad2 (n : Z) : string :=
  String (digit (n / 10)) (String (digit n) "").

Definition pad4 (n : Z) : string :=
  String (digit (n / 1000)) (String (digit (n / 100)) (pad2 n)).

Definition format_date (d : date) (_ : DateFormat) : string :=
  (pad4 (year d) ++ "-" ++ pad2 (month d) ++ "-" ++ pad2 (day d))%string.

Definition strptime (s : string) (_ : DateFormat) : result date :=
  match s with
  | String y1 (String y2 (String y3 (String y4 (String s1
      (String m1 (String m2 (String s2 (String d1 (String d2 EmptyString))))))))) =>
      if Ascii.eqb s1 "-" && Ascii.eqb s2 "-" then
        a <- digit_val y1 ;; b <- digit_val y2 ;;
        c <- digit_val y3 ;; e <- digit_val y4 ;;
        f <- digit_val m1 ;; g <- digit_val m2 ;;
        h <- digit_val d1 ;; i <- digit_val d2 ;;
        let y := 1000 * a + 100 * b + 10 * c + e in
        let m := 10 * f + g in
        let d := 10 * h + i in
        if check_date_fields y m d then Ok (mkdate y m d) else Raise ValueError
      else Raise ValueError
  | _ => Raise ValueError
  end.

(** Decimal digits with an optional sign. *)
Fixpoint digits_value (acc : Z) (s : string) : result Z :=
  match s with
  | EmptyString => Ok acc
  | String c s' => v <- digit_val c ;; digits_value (10 * acc + v) s'
  end.

Definition int_of_str (s : string) : result Z :=
  match s with
  | EmptyString => Raise ValueError
  | String "-" (String c s') => v <- digits_value 0 (String c s') ;; Ok (- v)
  | _ => digits_value 0 s
  end.

End Iso.

(** ** Vocabulary of the statements

    The definitions of this part serve to state and to prove the theorems.
    Those that follow the words of the specification (the steps of the range
    compactor, the sorted duplicate-free list, the orders of the report) say
    so; the theorems compare them with the code above. *)

(** The run of [L] consecutive ordinals that starts at [a]. *)
Definition run_from (a : Z) (L : nat) : list Z :=
  map (fun i => a + Z.of_nat i) (seq 0 L).

Definition is_run (g : list Z) : Prop :=
  g <> [] /\ g = run_from (hd 0 g) (length g).

(** No group can be extended by the first ordinal of the next one. *)
Fixpoint separated (gs : list (list Z)) : Prop :=
  match gs with
  | g1 :: ((g2 :: _) as rest) => last g1 0 + 1 <> hd 0 g2 /\ separated rest
  | _ => True
  end.

(** [gs] cuts [l] into its maximal runs of consecutive ordinals. *)
Definition maximal_runs (l : list Z) (gs : list (list Z)) : Prop :=
  concat gs = l /\ Forall is_run gs /\ separated gs.

(** Step 2 of the range compactor: a run ends when the next ordinal is not
    its predecessor plus 1. *)
Fixpoint runs (l : list Z) : list (list Z) :=
  match l with
  | [] => []
  | x :: l' =>
      match runs l' with
      | (y :: g) :: gs =>
          if y =? x + 1 then (x :: y :: g) :: gs else [x] :: (y :: g) :: gs
      | _ => [[x]]
      end
  end.

(** Step 3 of the range compactor: the windows of [nights] days inside a run
    of [L] days that starts at ordinal [a], as (start, checkout) ordinals. *)
Definition sliding_windows (nights : Z) (a L : Z) : list (Z * Z) :=
  if L <? nights then []
  else map (fun i => (a + i, a + i + nights)) (py_range 0 (L - nights + 1)).

Definition windows_of_run (nights : Z) (g : list Z) : list (Z * Z) :=
  sliding_windows nights (hd 0 g) (len g).

(** The windows of all the groups the code forms, in order. *)
Definition windows_of (nights : Z) (ordinal_dates : list Z) : list (Z * Z) :=
  flat_map (windows_of_run nights) (consecutive_ranges ordinal_dates).

(** The calendar date with a given ordinal. *)
Definition date_of_ordinal (n : Z) : date :=
  let '(y, m, d) := ord2ymd n in mkdate y m d.

(** Step 4 of the range compactor: both bounds back to date strings. *)
Definition format_window (format_date : date -> DateFormat -> string)
    (w : Z * Z) : string * string :=
  (format_date (date_of_ordinal (fst w)) INPUT_DATE_FORMAT,
   format_date (date_of_ordinal (snd w)) INPUT_DATE_FORMAT).

(** The same with the range check of [fromordinal]. *)
Definition emit_one (format_date : date -> DateFormat -> string)
    (w : Z * Z) : result (string * string) :=
  ds <- fromordinal (fst w) ;;
  de <- fromordinal (snd w) ;;
  Ok (format_date ds INPUT_DATE_FORMAT, format_date de INPUT_DATE_FORMAT).

(** Two (start, checkout) windows share a night. *)
Definition overlap (a b : Z * Z) : Prop := fst a < snd b /\ fst b < snd a.

(** The bounds of the emitted ranges read back as ordinals. *)
Definition ranges_as_ordinals (strptime : string -> DateFormat -> result date)
    (out : list (string * string)) : result (list (Z * Z)) :=
  comprehension (fun r => s <- strptime (fst r) INPUT_DATE_FORMAT ;;
                          e <- strptime (snd r) INPUT_DATE_FORMAT ;;
                          Ok (toordinal s, toordinal e)) out.

Definition non_overlapping (ws : list (Z * Z)) : Prop :=
  ForallOrdPairs (fun a b => ~ overlap a b) ws.

Definition ascending_starts (ws : list (Z * Z)) : Prop :=
  StronglySorted (fun a b => fst a <= fst b) ws.

Definition strictly_ascending_starts (ws : list (Z * Z)) : Prop :=
  StronglySorted (fun a b => fst a < fst b /\ snd a < snd b) ws.

(** Step 1 of the range compactor as the specification words it: the list
    sorted by ordinal, one entry per ordinal. *)
Fixpoint insert_uniq {A : Type} (key : A -> Z) (x : A) (l : list A) : list A :=
  match l with
  | [] => [x]
  | y :: l' =>
      if key x <? key y then x :: y :: l'
      else if key x =? key y then y :: l'
      else y :: insert_uniq key x l'
  end.

Definition sort_uniq {A : Type} (key : A -> Z) (l : list A) : list A :=
  fold_right (insert_uniq key) [] l.

Definition sorted_available (strptime : string -> DateFormat -> result date)
    (available : list string) : result (list string) :=
  keyed <- comprehension
             (fun dstr => o <- ordinal_of strptime dstr ;; Ok (o, dstr)) available ;;
  Ok (map snd (sort_uniq fst keyed)).

(** Recording the ranges of one site under its integer key. *)
Definition record_all (k : Z) (rs : list (string * string))
    (m : int_dict (list date_range)) : int_dict (list date_range) :=
  fold_left (fun m r => append_at m k (mkrange (fst r) (snd r))) rs m.

(** The days of the query window, from [end_date - 1] back to [start_date]. *)
Definition window_days (start_date end_date : date) : list date :=
  map (fun i => date_of_ordinal (toordinal end_date - i))
    (py_range 1 (days_between start_date end_date + 1)).

(** The caller-supplied [nights] lies in [1 .. num_days]. *)
Definition nights_in_window (nights : option Z) (num_days : Z) : Prop :=
  exists n, nights = Some n /\ 1 <= n <= num_days.

Definition has_ranges {A : Type} (rs : list A) : bool :=
  match rs with
  | [] => false
  | _ => true
  end.

(** [strptime] reads back what [format_date] prints in the response format. *)
Definition parses_back (strptime : string -> DateFormat -> result date)
    (format_date : date -> DateFormat -> string) : Prop :=
  forall d, valid_date d ->
    strptime (format_date d ISO_DATE_FORMAT_RESPONSE) ISO_DATE_FORMAT_RESPONSE = Ok d.

(** The dates of a campsite record whose status is ["Available"]. *)
Definition available_dates (c : campsite) : list string :=
  map fst (filter (fun item => String.eqb (snd item) "Available")
             (availabilities c)).

(** The campsite-type filter and the site-id allow-list, as one verdict. *)
Definition passes_filters (int_of_str : string -> result Z)
    (type_filter : option string) (campsite_ids : list Z) (c : campsite) : bool :=
  match wanted_type type_filter with
  | Some t => match campsite_type c with
              | Some t' => String.eqb t t'
              | None => false
              end
  | None => true
  end
  && (if 0 <? len campsite_ids
      then match campsite_id c with
           | Some cid => match int_of_str cid with
                         | Ok k => existsb (Z.eqb k) campsite_ids
                         | Raise _ => false
                         end
           | None => false
           end
      else true).

(** The Available dates of a record that the filters let through. *)
Definition kept_dates (int_of_str : string -> result Z)
    (type_filter : option string) (campsite_ids : list Z) (c : campsite)
  : list string :=
  if passes_filters int_of_str type_filter campsite_ids c
  then available_dates c else [].

(** The dates one monthly response contributes to the site [id]. *)
Definition month_dates (dates_of : campsite -> list string) (id : string)
    (month_data : dict campsite) : list string :=
  flat_map (fun item => if String.eqb id (fst item) then dates_of (snd item) else [])
    month_data.

(** The keys a sequence of [setdefault] calls leaves, in insertion order. *)
Definition add_key (ks : list string) (k : string) : list string :=
  if existsb (String.eqb k) ks then ks else ks ++ [k].

Definition distinct_ids (api_data : list (dict campsite)) : list string :=
  fold_left add_key (map fst (concat api_data)) [].

(** The verdict of the two filters on a record: [true] when its dates are
    skipped. *)
Definition filter_verdict (int_of_str : string -> result Z)
    (type_filter : option string) (campsite_ids : list Z) (c : campsite)
  : result bool :=
  other_type <-
    match wanted_type type_filter with
    | Some t => t' <- field (campsite_type c) ;; Ok (negb (String.eqb t t'))
    | None => Ok false
    end ;;
  if other_type then Ok true
  else if 0 <? len campsite_ids
       then cid <- field (campsite_id c) ;;
            k <- int_of_str cid ;;
            Ok (negb (existsb (Z.eqb k) campsite_ids))
       else Ok false.

Definition is_available (item : string * string) : bool :=
  String.eqb (snd item) "Available".

Definition strictly_ascending (l : list Z) : Prop := StronglySorted Z.lt l.

(** Ascending order that allows repeated ordinals. *)
Definition ascending (l : list Z) : Prop := StronglySorted Z.le l.

(** Bounded universal check of a boolean property of integers. *)
Fixpoint all_from (f : Z -> bool) (lo : Z) (n : nat) : bool :=
  match n with
  | O => true
  | S k => if f lo then all_from f (lo + 1) k else false
  end.

(** The extra day of a leap year. *)
Definition leap_day (b : bool) : Z := if b then 1 else 0.

(** Forward check of [ord2md] over the days [0 .. 365] of a year. *)
Definition ord2md_ok (leapyear : bool) (n : Z) : bool :=
  let '(m, d) := ord2md leapyear n in
  (1 <=? m) && (m <=? 12) && (1 <=? d)
  && (d <=? (if (m =? 2) && leapyear then 29 else DAYS_IN_MONTH m))
  && (DAYS_BEFORE_MONTH m + leap_day ((2 <? m) && leapyear) + d =? n + 1).

(** Backward check: every month and day of a year is found again. *)
Definition md2ord_ok (leapyear : bool) (m : Z) : bool :=
  all_from (fun d =>
    let n := DAYS_BEFORE_MONTH m + leap_day ((2 <? m) && leapyear) + d - 1 in
    (0 <=? n) && (n <? 365 + leap_day leapyear)
    && (let '(m', d') := ord2md leapyear n in (m' =? m) && (d' =? d)))
    1 (Z.to_nat (if (m =? 2) && leapyear then 29 else DAYS_IN_MONTH m)).

(** [a <= b] on sort keys: [b] is not smaller than [a]. *)
Definition key_le (a b : string * string) : Prop := pair_ltb b a = false.

(** The per-site listing of a park sorted by the secondary key. *)
Definition sites_sorted (lower : string -> string) (cg : campground_data)
  : Prop :=
  StronglySorted (fun a b => key_le (site_key lower a) (site_key lower b))
    (cg_available_sites cg).

(** The outer listing sorted by park name, as the specification has it. *)
Definition parks_sorted (out : list campground_data) : Prop :=
  StronglySorted (fun a b => String.leb (cg_park_name a) (cg_park_name b) = true) out.

(** The index of the month of a date, counted in months. *)
Definition month_index (d : date) : Z := year d * 12 + (month d - 1).

(** Every site id of every park has its metadata under [str(site_id)]. *)
Definition all_sites_known (info_by_park_id : int_dict park_result) : bool :=
  forallb (fun item =>
             forallb (fun site_id =>
                        existsb (String.eqb (str_of_int site_id))
                          (keys (park_additional_information (snd item))))
               (keys (availabilities_filtered (snd item))))
    info_by_park_id.

(** Two sort keys are equal. *)
Definition pair_eqb (a b : string * string) : bool :=
  String.eqb (fst a) (fst b) && String.eqb (snd a) (snd b).

(** ** Data of the scenarios *)

Local Open Scope string_scope.

Definition scenario1 : list string := ["2023-07-01"; "2023-07-02"; "2023-07-03"].

(** A list out of order with a repeated date. *)
Definition unsorted_dates : list string :=
  ["2023-07-03"; "2023-07-01"; "2023-07-01"].

Definition july_1 : date := mkdate 2023 7 1.

Definition july_10 : date := mkdate 2023 7 10.

Definition counter :=
  get_num_available_sites Iso.strptime Iso.format_date Iso.int_of_str.

(** A site whose list reaches outside the window on both sides. *)
Definition overhanging : dict (list string) :=
  [("1", ["2023-06-30"; "2023-07-01"; "2023-07-02"; "2023-07-10"])].

(** Scenario 3: a site that is free every day of the window, no [nights]. *)
Definition always_free : dict (list string) :=
  [("1", ["2023-07-01"; "2023-07-02"; "2023-07-03"; "2023-07-04"; "2023-07-05";
          "2023-07-06"; "2023-07-07"; "2023-07-08"; "2023-07-09"; "2023-07-10"])].

(** Scenario 4: one site with a qualifying range, one fully booked. *)
Definition two_sites : dict (list string) :=
  [("1", ["2023-07-01"; "2023-07-02"]); ("2", [])].

Definition record_of (id type : string) (days : dict string) : campsite :=
  mkcampsite (Some id) (Some type) (Some id) (Some "LOOP A") None None days.

Definition july : dict campsite :=
  [("1", record_of "1" "STANDARD" [("2023-07-30", "Available");
                                   ("2023-07-31", "Available")]);
   ("2", record_of "2" "GROUP" [("2023-07-30", "Available");
                                ("2023-07-31", "Reserved")])].

Definition august : dict campsite :=
  [("1", record_of "1" "STANDARD" [("2023-08-01", "Available");
                                   ("2023-08-02", "Reserved")]);
   ("2", record_of "2" "GROUP" [("2023-08-01", "Available")])].

Definition standard_sites : dict (list string) :=
  [("1", ["2023-07-30"; "2023-07-31"; "2023-08-01"]); ("2", [])].

Definition site_infos : dict site_info :=
  [("1", mkinfo (Some "1") (Some "LOOP A") None None (Some "STANDARD"));
   ("2", mkinfo (Some "2") (Some "LOOP A") None None (Some "GROUP"))].

Definition some_range : date_range := mkrange "2023-07-01" "2023-07-03".

(** Two parks in the order of the configuration, with the sites of the first
    one in the order of the counter. *)
Definition two_parks : int_dict park_result :=
  [(232447,
    mkresult 3 4 [(3, [some_range]); (1, [some_range]); (2, [some_range])]
      "Watchman Campground"
      [("1", mkinfo (Some "B010") (Some "Loop B") None None (Some "STANDARD"));
       ("2", mkinfo (Some "A003") (Some "loop a") None None (Some "STANDARD"));
       ("3", mkinfo (Some "A001") (Some "LOOP A") None None None);
       ("4", mkinfo None None None None None)]);
   (232508,
    mkresult 0 1 [] "Blackwoods Campground"
      [("9", mkinfo (Some "C1") (Some "C") None None None)])].

(** An availability source that knows one park in July and August 2023 and
    answers every other request with a malformed response. *)
Definition one_park_source (park_id : Z) (m : date) : result (dict campsite) :=
  if Z.eqb park_id 232447
  then if Z.eqb (month_index m) (month_index (mkdate 2023 7 1)) then Ok july
       else if Z.eqb (month_index m) (month_index (mkdate 2023 8 1)) then Ok august
       else Raise ValueError
  else Raise ValueError.

Definition one_park_name (park_id : Z) : result string :=
  if Z.eqb park_id 232447 then Ok "Watchman Campground" else Raise ValueError.

(** A source that agrees with [one_park_source] on that park and answers for
    every other park as well. *)
Definition any_park_source (park_id : Z) (m : date) : result (dict campsite) :=
  if Z.eqb park_id 232447 then one_park_source park_id m else Ok [].

Definition any_park_name (park_id : Z) : result string :=
  if Z.eqb park_id 232447 then one_park_name park_id else Ok "Campground".

(** The parks of a configuration: one park listed twice and checked, one
    park not checked. *)
Definition configured : list park_cfg :=
  [mkcfg 232447 true; mkcfg 232508 false; mkcfg 232447 true].

Definition july_30 : date := mkdate 2023 7 30.

Definition august_2 : date := mkdate 2023 8 2.

(** What [check_park] returns for that park from 2023-07-30 to 2023-08-02
    with no filter and no [nights]: one of its two sites is free on all three
    days. *)
Definition watchman : park_result :=
  mkresult 1 2 [(1, [mkrange "2023-07-30" "2023-08-02"])] "Watchman Campground"
    site_infos.

(** A record without a ["campsite_type"] field and one Available date. *)
Definition untyped : campsite :=
  mkcampsite (Some "7") None (Some "7") None None None
    [("2023-07-01", "Available")].

(** The report data of [two_parks]. *)
Definition two_parks_report : list campground_data :=
  [mkcampground 232447 "Watchman Campground" 4 3
     [mksite 3 "A001" "LOOP A" "na" "na" "na";
      mksite 2 "A003" "loop a" "na" "na" "STANDARD";
      mksite 1 "B010" "Loop B" "na" "na" "STANDARD"];
   mkcampground 232508 "Blackwoods Campground" 1 0 []].

(** The dates of the window from 2023-07-01 to 2023-07-10, as the counter
    builds them. *)
Definition july_window : list string :=
  ["2023-07-09"; "2023-07-08"; "2023-07-07"; "2023-07-06"; "2023-07-05";
   "2023-07-04"; "2023-07-03"; "2023-07-02"; "2023-07-01"].

Local Close Scope string_scope.

(** * Facts about the calendar *)

(** The ordinal mapping is a bijection between valid dates and
    [1 .. MAXORDINAL]. *)

Lemma all_from_spec (f : Z -> bool) (n : nat) :
  forall lo, all_from f lo n = true ->
  forall i, lo <= i < lo + Z.of_nat n -> f i = true.
Proof.
  induction n as [|k IH]; intros lo H i Hi; [lia|].
  cbn [all_from] in H. destruct (f lo) eqn:E; [|discriminate].
  destruct (Z.eq_dec i lo) as [->|Hne]; [exact E|].
  apply (IH (lo + 1) H). lia.
Qed.

Lemma ord2md_check :
  all_from (ord2md_ok false) 0 365 = true /\ all_from (ord2md_ok true) 0 366 = true.
Proof. split; vm_compute; reflexivity. Qed.

Lemma md2ord_check :
  all_from (md2ord_ok false) 1 12 = true /\ all_from (md2ord_ok true) 1 12 = true.
Proof. split; vm_compute; reflexivity. Qed.

Lemma is_leap_true (y : Z) :
  is_leap y = true <-> y mod 4 = 0 /\ (y mod 100 <> 0 \/ y mod 400 = 0).
Proof.
  unfold is_leap.
  rewrite andb_true_iff, orb_true_iff, negb_true_iff, !Z.eqb_eq, Z.eqb_neq. tauto.
Qed.

Ltac euclid := Z.div_mod_to_equations; lia.

(** The year arithmetic of [ord2ymd]: the four divisions find the year that
    contains day [n] (counted from 0) and the position of the day in it. *)
Lemma year_split (n : Z) :
  0 <= n ->
  let a := n / DI400Y in
  let r1 := n mod DI400Y in
  let b := r1 / DI100Y in
  let r2 := r1 mod DI100Y in
  let c := r2 / DI4Y in
  let r3 := r2 mod DI4Y in
  let e := r3 / 365 in
  let r4 := r3 mod 365 in
  let y := a * 400 + 1 + (b * 100 + c * 4 + e) in
  if (e =? 4) || (b =? 4)
  then days_before_year (y - 1) + 366 = n + 1 /\ is_leap (y - 1) = true /\ 1 <= y - 1
  else
    let leapyear := (e =? 3) && (negb (c =? 24) || (b =? 3)) in
    is_leap y = leapyear /\ days_before_year y + r4 = n
    /\ 0 <= r4 < 365 + leap_day leapyear /\ 1 <= y.
Proof.
  intros Hn. cbv zeta. unfold DI400Y, DI100Y, DI4Y, days_before_year.
  set (a := n / 146097). set (r1 := n mod 146097).
  set (b := r1 / 36524). set (r2 := r1 mod 36524).
  set (c := r2 / 1461). set (r3 := r2 mod 1461).
  set (e := r3 / 365). set (r4 := r3 mod 365).
  assert (H1 : n = 146097 * a + r1 /\ 0 <= r1 < 146097)
    by (subst a r1; split; [apply Z.div_mod|apply Z.mod_pos_bound]; lia).
  assert (H2 : r1 = 36524 * b + r2 /\ 0 <= r2 < 36524)
    by (subst b r2; split; [apply Z.div_mod|apply Z.mod_pos_bound]; lia).
  assert (H3 : r2 = 1461 * c + r3 /\ 0 <= r3 < 1461)
    by (subst c r3; split; [apply Z.div_mod|apply Z.mod_pos_bound]; lia).
  assert (H4 : r3 = 365 * e + r4 /\ 0 <= r4 < 365)
    by (subst e r4; split; [apply Z.div_mod|apply Z.mod_pos_bound]; lia).
  clearbody a r1 b r2 c r3 e r4.
  assert (Ha : 0 <= a) by lia. assert (Hb : 0 <= b <= 4) by lia.
  assert (Hc : 0 <= c <= 24) by lia. assert (He : 0 <= e <= 4) by lia.
  destruct (Z.eqb_spec e 4) as [E4|E4]; [|destruct (Z.eqb_spec b 4) as [B4|B4]];
    cbn [orb].
  - split; [|split]; [| apply is_leap_true |]; euclid.
  - split; [|split]; [| apply is_leap_true |]; euclid.
  - assert (EL : is_leap (a * 400 + 1 + (b * 100 + c * 4 + e))
                 = ((e =? 3) && (negb (c =? 24) || (b =? 3)))).
    { apply eq_true_iff_eq. rewrite is_leap_true.
      rewrite andb_true_iff, orb_true_iff, negb_true_iff, !Z.eqb_eq, Z.eqb_neq.
      euclid. }
    split; [exact EL|]. split; [euclid|]. split; [|lia].
    destruct (Z.eqb_spec e 3); destruct (Z.eqb_spec c 24); destruct (Z.eqb_spec b 3);
      cbn; lia.
Qed.

(** Years follow one another without gap or overlap. *)
Lemma days_before_year_mono (y y' : Z) :
  y < y' -> days_before_year y + 365 + leap_day (is_leap y) <= days_before_year y'.
Proof.
  intros H. unfold days_before_year; cbv zeta.
  destruct (is_leap y) eqn:E; cbn [leap_day].
  - apply is_leap_true in E. euclid.
  - assert (N : ~ (y mod 4 = 0 /\ (y mod 100 <> 0 \/ y mod 400 = 0))).
    { rewrite <- is_leap_true, E. discriminate. }
    euclid.
Qed.

Lemma days_in_month_eq (y m : Z) :
  days_in_month y m = if (m =? 2) && is_leap y then 29 else DAYS_IN_MONTH m.
Proof. reflexivity. Qed.

Lemma days_before_month_eq (y m : Z) :
  days_before_month y m = DAYS_BEFORE_MONTH m + leap_day ((2 <? m) && is_leap y).
Proof. reflexivity. Qed.

Lemma ord2md_spec (leapyear : bool) (n : Z) :
  0 <= n < 365 + leap_day leapyear ->
  let '(m, d) := ord2md leapyear n in
  1 <= m <= 12
  /\ 1 <= d <= (if (m =? 2) && leapyear then 29 else DAYS_IN_MONTH m)
  /\ DAYS_BEFORE_MONTH m + leap_day ((2 <? m) && leapyear) + d = n + 1.
Proof.
  intros Hn. destruct ord2md_check as [Cf Ct].
  assert (C : ord2md_ok leapyear n = true).
  { destruct leapyear; cbn [leap_day] in Hn.
    - apply (all_from_spec _ _ _ Ct). cbn. lia.
    - apply (all_from_spec _ _ _ Cf). cbn. lia. }
  unfold ord2md_ok in C. destruct (ord2md leapyear n) as [m d].
  repeat (apply andb_prop in C; destruct C as [C ?]). lia.
Qed.

Lemma md2ord_spec (leapyear : bool) (m d : Z) :
  1 <= m <= 12 ->
  1 <= d <= (if (m =? 2) && leapyear then 29 else DAYS_IN_MONTH m) ->
  let n := DAYS_BEFORE_MONTH m + leap_day ((2 <? m) && leapyear) + d - 1 in
  0 <= n < 365 + leap_day leapyear /\ ord2md leapyear n = (m, d).
Proof.
  intros Hm Hd. destruct md2ord_check as [Cf Ct].
  assert (C : md2ord_ok leapyear m = true).
  { destruct leapyear.
    - apply (all_from_spec _ _ _ Ct). cbn. lia.
    - apply (all_from_spec _ _ _ Cf). cbn. lia. }
  unfold md2ord_ok in C.
  assert (Hd' : 1 <= d < 1 + Z.of_nat (Z.to_nat
                  (if (m =? 2) && leapyear then 29 else DAYS_IN_MONTH m)))
    by (rewrite Z2Nat.id by lia; lia).
  pose proof (all_from_spec _ _ _ C d Hd') as C'. cbv beta zeta in C'.
  cbv zeta.
  destruct (ord2md leapyear _) as [m' d'].
  repeat (apply andb_prop in C'; destruct C' as [C' ?]).
  split; [lia|]. f_equal; lia.
Qed.

(** [ord2ymd] returns a well-formed year, month and day whose ordinal is the
    argument. *)
Lemma ord2ymd_spec (n : Z) :
  1 <= n ->
  let '(y, m, d) := ord2ymd n in
  1 <= y /\ 1 <= m <= 12 /\ 1 <= d <= days_in_month y m /\ ymd2ord y m d = n.
Proof.
  intros Hn. assert (H0 : 0 <= n - 1) by lia.
  pose proof (year_split (n - 1) H0) as Y. cbv zeta in Y.
  unfold ord2ymd. cbv zeta.
  destruct (_ || _).
  - destruct Y as (Yd & Yl & Yp).
    unfold ymd2ord. rewrite days_in_month_eq, days_before_month_eq, Yl.
    change (DAYS_BEFORE_MONTH 12 + leap_day ((2 <? 12) && true)) with 335.
    change (if (12 =? 2) && true then 29 else DAYS_IN_MONTH 12) with 31. lia.
  - destruct Y as (Yl & Yd & Yr & Yp).
    pose proof (ord2md_spec _ _ Yr) as M.
    destruct (ord2md _ _) as [m d]. destruct M as (Mm & Md & Mo).
    unfold ymd2ord. rewrite days_in_month_eq, days_before_month_eq, Yl.
    repeat split; try lia.
Qed.

Lemma day_of_year_bound (y m d : Z) :
  1 <= m <= 12 -> 1 <= d <= days_in_month y m ->
  1 <= days_before_month y m + d <= 365 + leap_day (is_leap y).
Proof.
  intros Hm Hd. rewrite days_in_month_eq in Hd.
  pose proof (md2ord_spec (is_leap y) m d Hm Hd) as [B _].
  rewrite days_before_month_eq. lia.
Qed.

(** Distinct well-formed dates have distinct ordinals. *)
Lemma ymd2ord_inj (y m d y' m' d' : Z) :
  1 <= m <= 12 -> 1 <= d <= days_in_month y m ->
  1 <= m' <= 12 -> 1 <= d' <= days_in_month y' m' ->
  ymd2ord y m d = ymd2ord y' m' d' ->
  y = y' /\ m = m' /\ d = d'.
Proof.
  intros Hm Hd Hm' Hd' E. unfold ymd2ord in E.
  pose proof (day_of_year_bound y m d Hm Hd) as B.
  pose proof (day_of_year_bound y' m' d' Hm' Hd') as B'.
  assert (Ey : y = y').
  { destruct (Z.lt_trichotomy y y') as [L|[L|L]]; [|exact L|].
    - pose proof (days_before_year_mono _ _ L). lia.
    - pose proof (days_before_year_mono _ _ L). lia. }
  subst y'. split; [reflexivity|].
  rewrite days_in_month_eq in Hd, Hd'.
  pose proof (md2ord_spec _ _ _ Hm Hd) as [_ R].
  pose proof (md2ord_spec _ _ _ Hm' Hd') as [_ R'].
  cbv zeta in R, R'. rewrite days_before_month_eq in E.
  rewrite days_before_month_eq in E.
  replace (DAYS_BEFORE_MONTH m' + leap_day ((2 <? m') && is_leap y) + d' - 1)
    with (DAYS_BEFORE_MONTH m + leap_day ((2 <? m) && is_leap y) + d - 1) in R'
    by lia.
  rewrite R in R'. injection R' as -> ->. split; reflexivity.
Qed.

(** Every ordinal in range is the ordinal of the valid date [fromordinal]
    returns for it. *)
Lemma toordinal_fromordinal (n : Z) :
  1 <= n <= MAXORDINAL ->
  exists d, fromordinal n = Ok d /\ valid_date d /\ toordinal d = n.
Proof.
  intros [Hn Hmax]. pose proof (ord2ymd_spec n Hn) as S.
  unfold fromordinal. destruct (ord2ymd n) as [[y m] d].
  destruct S as (Sy & Sm & Sd & So).
  assert (Hy : y <= 9999).
  { destruct (Z_le_gt_dec y 9999) as [L|G]; [exact L|exfalso].
    assert (L : 9999 < y) by lia.
    pose proof (days_before_year_mono _ _ L) as M.
    pose proof (day_of_year_bound y m d Sm Sd) as B.
    unfold ymd2ord in So. unfold MAXORDINAL in Hmax.
    change (days_before_year 9999) with 3651694 in M.
    change (is_leap 9999) with false in M. cbn [leap_day] in M. lia. }
  assert (Hv : check_date_fields y m d = true).
  { unfold check_date_fields.
    repeat (apply andb_true_intro; split); lia. }
  rewrite Hv. exists (mkdate y m d). repeat split; [exact Hv | exact So].
Qed.

(** [fromordinal] inverts [toordinal] on valid dates. *)
Lemma fromordinal_toordinal (d : date) :
  valid_date d ->
  fromordinal (toordinal d) = Ok d /\ 1 <= toordinal d <= MAXORDINAL.
Proof.
  destruct d as [y m d]. unfold valid_date, toordinal; cbn. intros Hv.
  pose proof Hv as Hv'. unfold check_date_fields in Hv.
  repeat (apply andb_prop in Hv; destruct Hv as [Hv ?]).
  assert (Hm : 1 <= m <= 12) by lia.
  assert (Hd : 1 <= d <= days_in_month y m) by lia.
  pose proof (day_of_year_bound y m d Hm Hd) as B.
  assert (Hlo : 1 <= ymd2ord y m d).
  { unfold ymd2ord. assert (0 <= days_before_year y); [|lia].
    destruct (Z.eq_dec y 1) as [->|Ny]; [cbn; lia|].
    assert (L : 1 < y) by lia. pose proof (days_before_year_mono _ _ L) as M.
    change (days_before_year 1) with 0 in M.
    change (is_leap 1) with false in M. cbn [leap_day] in M. lia. }
  assert (Hhi : ymd2ord y m d <= MAXORDINAL).
  { unfold ymd2ord, MAXORDINAL.
    assert (L : y < 10000) by lia. pose proof (days_before_year_mono _ _ L) as M.
    change (days_before_year 10000) with 3652059 in M. lia. }
  split; [|lia].
  pose proof (ord2ymd_spec _ Hlo) as S. unfold fromordinal.
  destruct (ord2ymd (ymd2ord y m d)) as [[y' m'] d'].
  destruct S as (Sy & Sm & Sd & So).
  destruct (ymd2ord_inj _ _ _ _ _ _ Sm Sd Hm Hd So) as (-> & -> & ->).
  now rewrite Hv'.
Qed.

Lemma toordinal_inj (a b : date) :
  valid_date a -> valid_date b -> toordinal a = toordinal b -> a = b.
Proof.
  intros Ha Hb E.
  destruct (fromordinal_toordinal a Ha) as [Fa _].
  destruct (fromordinal_toordinal b Hb) as [Fb _].
  rewrite E in Fa. congruence.
Qed.

(** * Facts about the exception monad and the list helpers *)

Lemma bind_Ok {A B : Type} (c : result A) (k : A -> result B) (b : B) :
  bind c k = Ok b -> exists a, c = Ok a /\ k a = Ok b.
Proof. destruct c as [a|e]; cbn; [eauto | discriminate]. Qed.

Lemma comprehension_app {A B : Type} (f : A -> result B) (xs ys : list A) :
  comprehension f (xs ++ ys)
  = (a <- comprehension f xs ;; b <- comprehension f ys ;; Ok (a ++ b)).
Proof.
  induction xs as [|x xs IH]; cbn.
  - now destruct (comprehension f ys).
  - destruct (f x); cbn; [|reflexivity]. rewrite IH.
    destruct (comprehension f xs); cbn; [|reflexivity].
    now destruct (comprehension f ys).
Qed.

Lemma comprehension_Ok_map {A B : Type} (f : A -> result B) (g : A -> B)
    (xs : list A) :
  (forall x, In x xs -> f x = Ok (g x)) -> comprehension f xs = Ok (map g xs).
Proof.
  induction xs as [|x xs IH]; intros H; cbn; [reflexivity|].
  rewrite (H x (or_introl eq_refl)); cbn. rewrite IH; [reflexivity|].
  intros y Hy. apply H. now right.
Qed.

Lemma comprehension_Forall2 {A B : Type} (f : A -> result B) (xs : list A)
    (ys : list B) :
  comprehension f xs = Ok ys <-> Forall2 (fun x y => f x = Ok y) xs ys.
Proof.
  revert ys. induction xs as [|x xs IH]; intros ys; cbn.
  - split; intros H; [injection H as <-; constructor | inversion H; reflexivity].
  - split; intros H.
    + destruct (f x) as [y|] eqn:E; cbn in H; [|discriminate].
      destruct (comprehension f xs) as [ys'|] eqn:E'; cbn in H; [|discriminate].
      injection H as <-. constructor; [exact E | now apply IH].
    + inversion H as [|? y ? ys' Hxy Hrest]; subst.
      rewrite Hxy; cbn. apply IH in Hrest. now rewrite Hrest.
Qed.

(** A loop that appends one value per pass builds the comprehension. *)
Lemma for_each_append {A B : Type} (body : list B -> A -> result (list B))
    (f : A -> result B) (xs : list A) :
  (forall acc x, In x xs -> body acc x = (v <- f x ;; Ok (acc ++ [v]))) ->
  forall acc,
    for_each body xs acc = (vs <- comprehension f xs ;; Ok (acc ++ vs)).
Proof.
  induction xs as [|x xs IH]; intros H acc; cbn.
  - now rewrite app_nil_r.
  - rewrite (H acc x (or_introl eq_refl)).
    destruct (f x) as [v|]; cbn; [|reflexivity].
    rewrite IH by (intros; apply H; now right).
    destruct (comprehension f xs); cbn; [|reflexivity].
    now rewrite <- app_assoc.
Qed.

Lemma for_each_app {A S : Type} (body : S -> A -> result S) (xs ys : list A) (s : S) :
  for_each body (xs ++ ys) s = (s' <- for_each body xs s ;; for_each body ys s').
Proof.
  revert s. induction xs as [|x xs IH]; intros s; cbn; [reflexivity|].
  destruct (body s x); cbn; [apply IH | reflexivity].
Qed.


Lemma in_py_range (lo hi i : Z) : In i (py_range lo hi) <-> lo <= i < hi.
Proof.
  unfold py_range. rewrite in_map_iff. split.
  - intros (k & <- & Hk). apply in_seq in Hk. lia.
  - intros H. exists (Z.to_nat (i - lo)). split; [lia|]. apply in_seq. lia.
Qed.

Lemma py_range_S (lo hi : Z) :
  lo < hi -> py_range lo hi = lo :: py_range (lo + 1) hi.
Proof.
  intros H. unfold py_range.
  replace (Z.to_nat (hi - lo)) with (S (Z.to_nat (hi - (lo + 1)))) by lia.
  cbn [seq map]. f_equal; [lia|].
  rewrite <- seq_shift, map_map. apply map_ext. intros; lia.
Qed.

(** * Facts about the range compactor *)

Lemma run_from_S (a : Z) (L : nat) : run_from a (S L) = a :: run_from (a + 1) L.
Proof.
  unfold run_from. cbn [seq map]. f_equal; [lia|].
  rewrite <- seq_shift, map_map. apply map_ext. intros; lia.
Qed.

Lemma run_from_length (a : Z) (L : nat) : length (run_from a L) = L.
Proof. unfold run_from. now rewrite length_map, length_seq. Qed.

Lemma run_from_nth (a : Z) (L : nat) (i : nat) :
  (i < L)%nat -> nth_error (run_from a L) i = Some (a + Z.of_nat i).
Proof.
  intros H. unfold run_from.
  rewrite nth_error_map, nth_error_seq.
  destruct (Nat.ltb_spec i L); [reflexivity | lia].
Qed.

Lemma in_run_from (a : Z) (L : nat) (x : Z) :
  In x (run_from a L) <-> a <= x < a + Z.of_nat L.
Proof.
  unfold run_from. rewrite in_map_iff. split.
  - intros (k & <- & Hk). apply in_seq in Hk. lia.
  - intros H. exists (Z.to_nat (x - a)). split; [lia|]. apply in_seq. lia.
Qed.

Lemma py_index_run (a : Z) (L : nat) (i : Z) :
  0 <= i < Z.of_nat L -> py_index (run_from a L) i = Ok (a + i).
Proof.
  intros H. unfold py_index.
  destruct (Z.ltb_spec i 0); [lia|]. destruct (Z.ltb_spec i 0); [lia|].
  rewrite run_from_nth by lia. f_equal. lia.
Qed.

(** The first group of [groupby] starts with the first item and carries its key. *)
Lemma groupby_head (c : Z) (l : list Z) (k : Z) (g : list Z) gs :
  groupby (count_keys c l) = (k, g) :: gs ->
  exists y g', g = y :: g' /\ k = y - c.
Proof.
  destruct l as [|y l]; cbn; [discriminate|].
  destruct (groupby (count_keys (c + 1) l)) as [|[k' g0] gs0].
  - intros H; injection H as <- <- <-. eauto.
  - destruct (y - c =? k'); intros H; injection H as <- <- <-; eauto.
Qed.

Lemma groupby_count_keys (l : list Z) :
  forall c, map snd (groupby (count_keys c l)) = runs l.
Proof.
  induction l as [|x l IH]; intros c; cbn; [reflexivity|].
  specialize (IH (c + 1)).
  destruct (groupby (count_keys (c + 1) l)) as [|[k' g] gs] eqn:E.
  - cbn in IH. rewrite <- IH. reflexivity.
  - destruct (groupby_head _ _ _ _ _ E) as (y & g' & -> & ->).
    cbn in IH. rewrite <- IH.
    replace (x - c =? y - (c + 1)) with (y =? x + 1)
      by (destruct (Z.eqb_spec y (x + 1)), (Z.eqb_spec (x - c) (y - (c + 1))); lia).
    now destruct (y =? x + 1).
Qed.

Lemma consecutive_ranges_runs (l : list Z) : consecutive_ranges l = runs l.
Proof. apply groupby_count_keys. Qed.

Lemma runs_nonempty (l : list Z) : Forall (fun g => g <> []) (runs l).
Proof.
  induction l as [|x l IH]; cbn; [constructor|].
  destruct (runs l) as [|[|y g] gs].
  - repeat constructor; discriminate.
  - repeat constructor; discriminate.
  - inversion IH; subst.
    destruct (y =? x + 1); repeat constructor; try discriminate; assumption.
Qed.

Lemma runs_concat (l : list Z) : concat (runs l) = l.
Proof.
  induction l as [|x l IH]; cbn; [reflexivity|].
  pose proof (runs_nonempty l) as N.
  destruct (runs l) as [|[|y g] gs]; cbn in *.
  - now rewrite <- IH.
  - inversion N; subst. congruence.
  - destruct (y =? x + 1); cbn; now rewrite <- IH.
Qed.

Lemma runs_is_run (l : list Z) : Forall is_run (runs l).
Proof.
  induction l as [|x l IH]; cbn; [constructor|].
  assert (R1 : is_run [x]) by (split; [discriminate | cbn; f_equal; lia]).
  destruct (runs l) as [|[|y g] gs].
  - constructor; [exact R1 | constructor].
  - constructor; [exact R1 | constructor].
  - inversion IH as [|? ? Hg Hgs]; subst.
    destruct (Z.eqb_spec y (x + 1)) as [->|N].
    + constructor; [|assumption]. split; [discriminate|].
      destruct Hg as [_ Hg]. cbn [hd length] in *.
      rewrite run_from_S. f_equal. exact Hg.
    + constructor; [exact R1 | exact IH].
Qed.

Lemma last_cons_cons {A : Type} (x y : A) (l : list A) (d : A) :
  last (x :: y :: l) d = last (y :: l) d.
Proof. reflexivity. Qed.

Lemma runs_separated (l : list Z) : separated (runs l).
Proof.
  induction l as [|x l IH]; cbn; [exact I|].
  destruct (runs l) as [|[|y g] gs] eqn:E.
  - exact I.
  - pose proof (runs_nonempty l) as N. rewrite E in N. inversion N; subst.
    congruence.
  - destruct (Z.eqb_spec y (x + 1)) as [->|N].
    + destruct gs as [|g2 gs]; [exact I|].
      cbn [separated] in *. rewrite last_cons_cons. exact IH.
    + cbn [separated]. split; [cbn; lia | exact IH].
Qed.

(** The groups of [consecutive_nights] are the maximal runs of the list of
    ordinals, taken in the order of the list. *)
Lemma consecutive_ranges_maximal (l : list Z) : maximal_runs l (consecutive_ranges l).
Proof.
  rewrite consecutive_ranges_runs. split; [apply runs_concat|].
  split; [apply runs_is_run | apply runs_separated].
Qed.

Lemma comprehension_map {A B C : Type} (f : B -> result C) (h : A -> B)
    (xs : list A) :
  comprehension f (map h xs) = comprehension (fun x => f (h x)) xs.
Proof. induction xs as [|x xs IH]; cbn; [reflexivity | now rewrite IH]. Qed.

Lemma comprehension_ext {A B : Type} (f g : A -> result B) (xs : list A) :
  (forall x, In x xs -> f x = g x) -> comprehension f xs = comprehension g xs.
Proof.
  induction xs as [|x xs IH]; intros H; cbn; [reflexivity|].
  rewrite (H x (or_introl eq_refl)), IH; [reflexivity|].
  intros; apply H; now right.
Qed.

Lemma fromordinal_date_of (n : Z) (d : date) :
  fromordinal n = Ok d -> d = date_of_ordinal n.
Proof.
  unfold fromordinal, date_of_ordinal. destruct (ord2ymd n) as [[y m] d'].
  destruct (check_date_fields y m d'); [congruence | discriminate].
Qed.

Lemma fromordinal_in_range (n : Z) :
  1 <= n <= MAXORDINAL ->
  fromordinal n = Ok (date_of_ordinal n)
  /\ valid_date (date_of_ordinal n) /\ toordinal (date_of_ordinal n) = n.
Proof.
  intros H. destruct (toordinal_fromordinal n H) as (d & F & V & T).
  pose proof (fromordinal_date_of _ _ F) as ->. auto.
Qed.

Lemma is_run_inv (g : list Z) :
  is_run g -> exists a L, g = run_from a (S L) /\ hd 0 g = a.
Proof.
  intros [N E]. destruct g as [|x g]; [congruence|].
  exists x, (length g). split; [exact E | reflexivity].
Qed.

Lemma in_sliding_windows (nights a L s e : Z) :
  In (s, e) (sliding_windows nights a L) <->
  exists i, 0 <= i <= L - nights /\ s = a + i /\ e = a + i + nights.
Proof.
  unfold sliding_windows. destruct (Z.ltb_spec L nights).
  - split; [intros [] | intros (i & Hi & _); lia].
  - rewrite in_map_iff. split.
    + intros (i & E & Hi). apply in_py_range in Hi. injection E as <- <-.
      exists i. repeat split; lia.
    + intros (i & Hi & -> & ->). exists i. split; [reflexivity|].
      apply in_py_range. lia.
Qed.

(** Every window lies inside the list of ordinals it was cut from. *)
Lemma in_windows_of (nights : Z) (ords : list Z) (s e : Z) :
  1 <= nights ->
  In (s, e) (windows_of nights ords) ->
  e = s + nights /\ forall k, 0 <= k < nights -> In (s + k) ords.
Proof.
  intros Hn H. unfold windows_of in H. apply in_flat_map in H.
  destruct H as (g & Hg & Hw).
  destruct (consecutive_ranges_maximal ords) as (Hc & Hr & _).
  rewrite Forall_forall in Hr. destruct (is_run_inv g (Hr g Hg)) as (a & L & Eg & Eh).
  unfold windows_of_run in Hw. rewrite Eh in Hw.
  apply in_sliding_windows in Hw. destruct Hw as (i & Hi & -> & ->).
  split; [lia|]. intros k Hk. rewrite <- Hc. apply in_concat.
  exists g. split; [exact Hg|]. rewrite Eg. apply in_run_from.
  unfold len in Hi. rewrite Eg, run_from_length in Hi. lia.
Qed.

Lemma Forall2_In_r {A B : Type} (R : A -> B -> Prop) (xs : list A) (ys : list B)
    (y : B) :
  Forall2 R xs ys -> In y ys -> exists x, In x xs /\ R x y.
Proof.
  induction 1 as [|x y' xs ys Hxy _ IH]; intros Hy; [destruct Hy|].
  destruct Hy as [->|Hy]; [exists x; split; [now left | exact Hxy]|].
  destruct (IH Hy) as (x' & Hx' & HR). exists x'. split; [now right | exact HR].
Qed.

Lemma fromordinal_Ok (n : Z) (d : date) :
  1 <= n -> fromordinal n = Ok d -> valid_date d /\ toordinal d = n.
Proof.
  intros Hn F. pose proof (ord2ymd_spec n Hn) as S.
  unfold fromordinal in F. destruct (ord2ymd n) as [[y m] d'].
  destruct (check_date_fields y m d') eqn:E; [|discriminate].
  injection F as <-. split; [exact E | apply S].
Qed.

Lemma StronglySorted_app {A : Type} (R : A -> A -> Prop) (l1 l2 : list A) :
  StronglySorted R l1 -> StronglySorted R l2 ->
  (forall a b, In a l1 -> In b l2 -> R a b) ->
  StronglySorted R (l1 ++ l2).
Proof.
  induction 1 as [|x l1 Hs IH Hx]; intros H2 H12; cbn; [exact H2|].
  constructor.
  - apply IH; [exact H2|]. intros a b Ha Hb. apply H12; [now right | exact Hb].
  - apply Forall_app. split; [exact Hx|].
    apply Forall_forall. intros b Hb. apply H12; [now left | exact Hb].
Qed.

Lemma StronglySorted_app_inv {A : Type} (R : A -> A -> Prop) (l1 l2 : list A) :
  StronglySorted R (l1 ++ l2) ->
  StronglySorted R l1 /\ StronglySorted R l2
  /\ forall a b, In a l1 -> In b l2 -> R a b.
Proof.
  induction l1 as [|x l1 IH]; cbn; intros H.
  - repeat split; [constructor | exact H | intros a b []].
  - inversion H as [|? ? Hs Hx]; subst. destruct (IH Hs) as (S1 & S2 & S12).
    apply Forall_app in Hx. destruct Hx as [Hx1 Hx2].
    repeat split; [constructor; assumption | exact S2 |].
    intros a b [<-|Ha] Hb; [|now apply S12].
    rewrite Forall_forall in Hx2. now apply Hx2.
Qed.

Lemma StronglySorted_map_mono {A B : Type} (RA : A -> A -> Prop)
    (RB : B -> B -> Prop) (f : A -> B) (l : list A) :
  (forall a b, RA a b -> RB (f a) (f b)) ->
  StronglySorted RA l -> StronglySorted RB (map f l).
Proof.
  intros Hf. induction 1 as [|x l Hs IH Hx]; cbn; constructor; [exact IH|].
  apply Forall_map. eapply Forall_impl; [|exact Hx]. intros a Ha. now apply Hf.
Qed.

Lemma py_range_sorted (lo hi : Z) : StronglySorted Z.lt (py_range lo hi).
Proof.
  unfold py_range.
  apply StronglySorted_map_mono with (RA := lt); [intros; lia|].
  generalize (Z.to_nat (hi - lo)) as n. generalize 0%nat as s.
  intros s n. revert s. induction n as [|n IH]; intros s; cbn; constructor.
  - apply IH.
  - apply Forall_forall. intros x Hx. apply in_seq in Hx. lia.
Qed.

Lemma sliding_windows_sorted (nights a L : Z) :
  strictly_ascending_starts (sliding_windows nights a L).
Proof.
  unfold sliding_windows, strictly_ascending_starts.
  destruct (L <? nights); [constructor|].
  apply StronglySorted_map_mono with (RA := Z.lt); [cbn; intros; lia|].
  apply py_range_sorted.
Qed.

Lemma windows_of_groups_sorted (nights : Z) (gs : list (list Z)) :
  1 <= nights -> Forall is_run gs -> strictly_ascending (concat gs) ->
  strictly_ascending_starts (flat_map (windows_of_run nights) gs).
Proof.
  intros Hn. induction 1 as [|g gs Hg Hgs IH]; intros Hs; cbn.
  - constructor.
  - cbn in Hs. apply StronglySorted_app_inv in Hs. destruct Hs as (S1 & S2 & S12).
    apply StronglySorted_app.
    + apply sliding_windows_sorted.
    + apply (IH S2).
    + intros [s1 e1] [s2 e2] H1 H2. cbn.
      destruct (is_run_inv g Hg) as (a & L & Eg & Eh).
      unfold windows_of_run in H1. rewrite Eh in H1.
      apply in_sliding_windows in H1. destruct H1 as (i & Hi & -> & ->).
      unfold len in Hi. rewrite Eg, run_from_length in Hi.
      apply in_flat_map in H2. destruct H2 as (g2 & Hg2 & H2).
      rewrite Forall_forall in Hgs.
      destruct (is_run_inv g2 (Hgs g2 Hg2)) as (a2 & L2 & Eg2 & Eh2).
      unfold windows_of_run in H2. rewrite Eh2 in H2.
      apply in_sliding_windows in H2. destruct H2 as (j & Hj & -> & ->).
      assert (Hlt : a + Z.of_nat L < a2).
      { apply S12.
        - rewrite Eg. apply in_run_from. lia.
        - apply in_concat. exists g2. split; [exact Hg2|].
          rewrite Eg2. apply in_run_from. lia. }
      lia.
Qed.

(** On a strictly ascending list the windows come out in ascending order. *)
Lemma windows_of_sorted (nights : Z) (ords : list Z) :
  1 <= nights -> strictly_ascending ords ->
  strictly_ascending_starts (windows_of nights ords).
Proof.
  intros Hn Hs. destruct (consecutive_ranges_maximal ords) as (Hc & Hr & _).
  apply windows_of_groups_sorted; [exact Hn | exact Hr | now rewrite Hc].
Qed.

Lemma ForallOrdPairs_weaken {A : Type} (P Q : A -> A -> Prop) (l : list A) :
  (forall a b, P a b -> Q a b) -> ForallOrdPairs P l -> ForallOrdPairs Q l.
Proof.
  intros H. induction 1 as [|x l Hx _ IH]; constructor; [|exact IH].
  eapply Forall_impl; [|exact Hx]. intros b. apply H.
Qed.

Lemma run_from_last (a : Z) (L : nat) :
  last (run_from a (S L)) 0 = a + Z.of_nat L.
Proof.
  revert a. induction L as [|L IH]; intros a.
  - cbn. lia.
  - rewrite run_from_S. change (last (a :: run_from (a + 1) (S L)) 0)
      with (last (run_from (a + 1) (S L)) 0) at 1.
    + rewrite IH. lia.
Qed.

(** On a strictly ascending list, a later group starts at least two days
    after the end of an earlier one. *)
Lemma runs_apart (gs : list (list Z)) :
  Forall is_run gs -> separated gs -> strictly_ascending (concat gs) ->
  ForallOrdPairs (fun g1 g2 => last g1 0 + 1 < hd 0 g2) gs.
Proof.
  induction 1 as [|g1 gs Hg1 Hgs IH]; intros Hsep Hs; [constructor|].
  cbn in Hs. apply StronglySorted_app_inv in Hs. destruct Hs as (_ & S2 & S12).
  destruct (is_run_inv g1 Hg1) as (a1 & L1 & E1 & _).
  assert (Hlast : In (last g1 0) g1).
  { rewrite E1, run_from_last. apply in_run_from. lia. }
  constructor.
  - destruct gs as [|g2 rest]; [constructor|].
    destruct Hsep as [Hne Hsep'].
    apply Forall_cons_iff in Hgs. destruct Hgs as [Hg2 Hrest].
    destruct (is_run_inv g2 Hg2) as (a2 & L2 & E2 & Eh2).
    assert (Hhd2 : In (hd 0 g2) g2).
    { rewrite Eh2, E2. apply in_run_from. lia. }
    assert (H12 : last g1 0 + 1 < hd 0 g2).
    { assert (last g1 0 < hd 0 g2); [|lia].
      apply S12; [exact Hlast|]. cbn. apply in_or_app. now left. }
    constructor; [exact H12|].
    cbn in S2. apply StronglySorted_app_inv in S2. destruct S2 as (_ & _ & S23).
    apply Forall_forall. intros g Hg.
    rewrite Forall_forall in Hrest.
    destruct (is_run_inv g (Hrest g Hg)) as (a & L & E & Eh).
    assert (hd 0 g2 < hd 0 g); [|lia].
    apply S23; [exact Hhd2|]. apply in_concat. exists g. split; [exact Hg|].
    rewrite Eh, E. apply in_run_from. lia.
  - apply IH; [|exact S2]. destruct gs as [|g2 rest]; [exact I | apply Hsep].
Qed.

Lemma windows_of_run_bounds (nights : Z) (g : list Z) (w : Z * Z) :
  1 <= nights -> is_run g -> In w (windows_of_run nights g) ->
  hd 0 g <= fst w /\ snd w <= last g 0 + 1.
Proof.
  intros Hn Hg Hw. destruct (is_run_inv g Hg) as (a & L & E & Eh).
  unfold windows_of_run in Hw. rewrite Eh in Hw. destruct w as [s e].
  apply in_sliding_windows in Hw. destruct Hw as (i & Hi & -> & ->).
  unfold len in Hi. rewrite E, run_from_length in Hi.
  rewrite Eh, E, run_from_last. cbn. lia.
Qed.

(** Windows cut from different groups of a strictly ascending list are
    disjoint, the earlier group first. *)
Lemma windows_of_groups_apart (nights : Z) (ords : list Z) :
  1 <= nights -> strictly_ascending ords ->
  ForallOrdPairs
    (fun g1 g2 => forall w1 w2,
       In w1 (windows_of_run nights g1) -> In w2 (windows_of_run nights g2) ->
       snd w1 < fst w2)
    (consecutive_ranges ords).
Proof.
  intros Hn Hs. destruct (consecutive_ranges_maximal ords) as (Hc & Hr & Hsep).
  rewrite <- Hc in Hs. pose proof (runs_apart _ Hr Hsep Hs) as A.
  clear Hc Hs Hsep. induction A as [|g1 gs Hg1 _ IH]; [constructor|].
  apply Forall_cons_iff in Hr. destruct Hr as [R1 Rs].
  constructor; [|now apply IH].
  rewrite Forall_forall in *. intros g2 Hg2 w1 w2 H1 H2.
  destruct (windows_of_run_bounds _ _ _ Hn R1 H1) as [_ B1].
  destruct (windows_of_run_bounds _ _ _ Hn (Rs g2 Hg2) H2) as [B2 _].
  pose proof (Hg1 g2 Hg2). lia.
Qed.

Lemma insert_uniq_least {A : Type} (key : A -> Z) (x : A) (l : list A) :
  Forall (fun y => key x < key y) l -> insert_uniq key x l = x :: l.
Proof.
  destruct l as [|y l]; cbn; [reflexivity|]. intros H. inversion H; subst.
  destruct (Z.ltb_spec (key x) (key y)); [reflexivity | lia].
Qed.

Lemma sort_uniq_sorted {A : Type} (key : A -> Z) (l : list A) :
  StronglySorted Z.lt (map key l) -> sort_uniq key l = l.
Proof.
  induction l as [|x l IH]; [reflexivity|]. cbn [map]. intros H.
  inversion H as [|? ? Hs Hx]; subst.
  unfold sort_uniq. cbn [fold_right]. fold (sort_uniq key l). rewrite (IH Hs).
  apply insert_uniq_least. rewrite Forall_map in Hx. exact Hx.
Qed.

Section CompactorFacts.

Variable strptime : string -> DateFormat -> result date.
Variable format_date : date -> DateFormat -> string.

Local Abbreviation ordinal_of' := (ordinal_of strptime).
Local Abbreviation emit_range' := (emit_range format_date).
Local Abbreviation emit_window' := (emit_window format_date).
Local Abbreviation consecutive_nights' := (consecutive_nights strptime format_date).
Local Abbreviation emit_one' := (emit_one format_date).
Local Abbreviation format_window' := (format_window format_date).

(** On a run, the inner loop reads exactly the ordinals of the sliding
    windows: no index is out of range when [nights] is positive. *)
Lemma emit_range_run (nights : Z) (g : list Z) (acc : list (string * string)) :
  1 <= nights -> is_run g ->
  emit_range' nights acc g
  = (ws <- comprehension emit_one' (windows_of_run nights g) ;; Ok (acc ++ ws)).
Proof.
  intros Hn Hg. destruct (is_run_inv g Hg) as (a & L & Eg & Eh).
  unfold emit_range, windows_of_run, sliding_windows. rewrite Eh.
  assert (El : len g = Z.of_nat (S L)) by (unfold len; now rewrite Eg, run_from_length).
  destruct (len g <? nights) eqn:Elt.
  - cbn. now rewrite app_nil_r.
  - apply Z.ltb_ge in Elt. rewrite comprehension_map.
    apply for_each_append. intros acc' i Hi. apply in_py_range in Hi.
    unfold emit_window, emit_one. rewrite Eg.
    rewrite !py_index_run by lia. cbn [bind fst snd].
    replace (a + (i + nights - 1) + 1) with (a + i + nights) by lia.
    destruct (fromordinal (a + i)); cbn; [|reflexivity].
    now destruct (fromordinal (a + i + nights)).
Qed.

Lemma compact_groups (nights : Z) (gs : list (list Z)) :
  1 <= nights -> Forall is_run gs ->
  forall acc,
    for_each (emit_range' nights) gs acc
    = (ws <- comprehension emit_one' (flat_map (windows_of_run nights) gs) ;;
       Ok (acc ++ ws)).
Proof.
  intros Hn. induction 1 as [|g gs Hg Hgs IH]; intros acc; cbn.
  - now rewrite app_nil_r.
  - rewrite emit_range_run, comprehension_app by assumption.
    destruct (comprehension emit_one' (windows_of_run nights g)); cbn; [|reflexivity].
    rewrite IH.
    destruct (comprehension emit_one' _); cbn; [|reflexivity].
    now rewrite app_assoc.
Qed.

(** The compactor parses, cuts into groups, slides the window over each group
    and formats, whatever the input. *)
Lemma consecutive_nights_windows (available : list string) (nights : Z) :
  1 <= nights ->
  consecutive_nights' available nights
  = (ords <- comprehension ordinal_of' available ;;
     comprehension emit_one' (windows_of nights ords)).
Proof.
  intros Hn. unfold consecutive_nights.
  destruct (comprehension ordinal_of' available) as [ords|]; cbn; [|reflexivity].
  rewrite compact_groups; [|exact Hn|apply consecutive_ranges_maximal].
  unfold windows_of. now destruct (comprehension emit_one' _).
Qed.

Lemma emit_one_in_range (w : Z * Z) :
  1 <= fst w <= MAXORDINAL -> 1 <= snd w <= MAXORDINAL ->
  emit_one' w = Ok (format_window' w).
Proof.
  intros Hs He. unfold emit_one, format_window.
  destruct (fromordinal_in_range _ Hs) as (-> & _).
  destruct (fromordinal_in_range _ He) as (-> & _). reflexivity.
Qed.

Lemma windows_in_range (nights : Z) (ords : list Z) (lo hi : Z) :
  1 <= nights ->
  Forall (fun o => lo <= o < hi) ords ->
  forall w, In w (windows_of nights ords) -> lo <= fst w /\ snd w <= hi.
Proof.
  intros Hn Hr [s e] Hw. rewrite Forall_forall in Hr.
  destruct (in_windows_of _ _ _ _ Hn Hw) as (-> & Hk). cbn.
  pose proof (Hr _ (Hk 0 ltac:(lia))).
  pose proof (Hr _ (Hk (nights - 1) ltac:(lia))). lia.
Qed.

(** With every date before the last day of year 9999 the compactor returns. *)
Lemma consecutive_nights_total (available : list string) (nights : Z)
    (ords : list Z) :
  1 <= nights ->
  comprehension ordinal_of' available = Ok ords ->
  Forall (fun o => 1 <= o < MAXORDINAL) ords ->
  consecutive_nights' available nights
  = Ok (map format_window' (windows_of nights ords)).
Proof.
  intros Hn Hp Hr. rewrite consecutive_nights_windows, Hp by exact Hn. cbn.
  apply comprehension_Ok_map. intros w Hw.
  destruct (windows_in_range _ _ _ _ Hn Hr w Hw) as [Hlo Hhi].
  destruct w as [s e]. destruct (in_windows_of _ _ _ _ Hn Hw) as (E & _).
  cbn in *. apply emit_one_in_range; cbn; lia.
Qed.

Lemma parsed_ordinal_in (available : list string) (ords : list Z) (o : Z) :
  comprehension ordinal_of' available = Ok ords -> In o ords ->
  exists dstr d, In dstr available
    /\ strptime dstr ISO_DATE_FORMAT_RESPONSE = Ok d /\ toordinal d = o.
Proof.
  intros Hp Ho. apply comprehension_Forall2 in Hp.
  destruct (Forall2_In_r _ _ _ _ Hp Ho) as (dstr & Hin & Hd).
  unfold ordinal_of in Hd. apply bind_Ok in Hd. destruct Hd as (d & Hd & E).
  injection E as <-. eauto.
Qed.


(** Every emitted range lies inside the dates it was computed from. *)
Lemma ranges_inside_available (available : list string) (nights : Z)
    (out : list (string * string)) :
  1 <= nights ->
  (forall dstr d, In dstr available ->
     strptime dstr ISO_DATE_FORMAT_RESPONSE = Ok d -> valid_date d) ->
  consecutive_nights' available nights = Ok out ->
  forall start_nice end_nice, In (start_nice, end_nice) out ->
  exists ds de,
    valid_date ds /\ valid_date de
    /\ start_nice = format_date ds INPUT_DATE_FORMAT
    /\ end_nice = format_date de INPUT_DATE_FORMAT
    /\ days_between ds de = nights
    /\ forall k, 0 <= k < nights ->
         exists dstr d, In dstr available
           /\ strptime dstr ISO_DATE_FORMAT_RESPONSE = Ok d
           /\ valid_date d /\ days_between ds d = k.
Proof.
  intros Hn Hv Hout sn en Hin.
  rewrite consecutive_nights_windows in Hout by exact Hn.
  apply bind_Ok in Hout. destruct Hout as (ords & Hp & Hout).
  apply comprehension_Forall2 in Hout.
  destruct (Forall2_In_r _ _ _ _ Hout Hin) as ([s e] & Hw & He).
  destruct (in_windows_of _ _ _ _ Hn Hw) as (-> & Hk).
  unfold emit_one in He. cbn [fst snd] in He.
  apply bind_Ok in He. destruct He as (ds & Fs & He).
  apply bind_Ok in He. destruct He as (de & Fe & He). injection He as <- <-.
  assert (Hdays : forall k, 0 <= k < nights ->
            exists dstr d, In dstr available
              /\ strptime dstr ISO_DATE_FORMAT_RESPONSE = Ok d
              /\ valid_date d /\ toordinal d = s + k).
  { intros k Hk'. destruct (parsed_ordinal_in _ _ _ Hp (Hk k Hk')) as (dstr & d & I & P & T).
    exists dstr, d. repeat split; try assumption. exact (Hv _ _ I P). }
  destruct (Hdays 0 ltac:(lia)) as (dstr0 & d0 & _ & _ & V0 & T0).
  destruct (fromordinal_toordinal d0 V0) as [_ R0].
  destruct (fromordinal_Ok s ds ltac:(lia) Fs) as [Vs Ts].
  destruct (fromordinal_Ok (s + nights) de ltac:(lia) Fe) as [Ve Te].
  exists ds, de. unfold days_between. repeat split; try assumption; try lia.
  intros k Hk'. destruct (Hdays k Hk') as (dstr & d & I & P & V & T).
  exists dstr, d. repeat split; try assumption. lia.
Qed.

(** C2. With [nights >= 1], every range the compactor emits is the pair of
    formatted dates [ds], [de] with exactly [nights] days from [ds] to [de],
    and each of the days [ds], [ds + 1], ..., [de - 1] is the date of a string of
    the input list. *)
Theorem C2_ranges_inside_available (available : list string) (nights : Z)
    (out : list (string * string)) :
  1 <= nights ->
  (forall dstr d, In dstr available ->
     strptime dstr ISO_DATE_FORMAT_RESPONSE = Ok d -> valid_date d) ->
  consecutive_nights' available nights = Ok out ->
  forall start_nice end_nice, In (start_nice, end_nice) out ->
  exists ds de,
    valid_date ds /\ valid_date de
    /\ start_nice = format_date ds INPUT_DATE_FORMAT
    /\ end_nice = format_date de INPUT_DATE_FORMAT
    /\ days_between ds de = nights
    /\ forall k, 0 <= k < nights ->
         exists dstr d, In dstr available
           /\ strptime dstr ISO_DATE_FORMAT_RESPONSE = Ok d
           /\ valid_date d /\ days_between ds d = k.
Proof. exact (ranges_inside_available available nights out). Qed.

End CompactorFacts.

(** * Facts about the site counter *)

Lemma append_at_nil {V : Type} (k : Z) (x : V) : append_at [] k x = [(k, [x])].
Proof. unfold append_at. cbn. now rewrite Z.eqb_refl. Qed.

Lemma append_at_cons {V : Type} (k' : Z) (v : list V) (m : int_dict (list V))
    (k : Z) (x : V) :
  append_at ((k', v) :: m) k x
  = if k =? k' then (k', v ++ [x]) :: m else (k', v) :: append_at m k x.
Proof.
  unfold append_at. cbn. destruct (k =? k') eqn:E; cbn; now rewrite E.
Qed.

Lemma append_at_keys {V : Type} (m : int_dict (list V)) (k : Z) (x : V) (k' : Z) :
  In k' (keys (append_at m k x)) <-> In k' (keys m) \/ k' = k.
Proof.
  induction m as [|[k0 v] m IH].
  - rewrite append_at_nil. cbn. intuition.
  - rewrite append_at_cons. destruct (Z.eqb_spec k k0) as [->|N]; cbn in *.
    + intuition.
    + rewrite IH. intuition.
Qed.

Lemma append_at_In {V : Type} (m : int_dict (list V)) (k : Z) (x : V)
    (k' : Z) (rs : list V) (r : V) :
  In (k', rs) (append_at m k x) -> In r rs ->
  (exists rs0, In (k', rs0) m /\ In r rs0) \/ (k' = k /\ r = x).
Proof.
  induction m as [|[k0 v] m IH].
  - rewrite append_at_nil. intros [E|[]] Hr. injection E as <- <-.
    destruct Hr as [<-|[]]. now right.
  - rewrite append_at_cons. destruct (Z.eqb_spec k k0) as [->|N].
    + intros [E|H] Hr.
      * injection E as <- <-. apply in_app_or in Hr.
        destruct Hr as [Hr|[<-|[]]]; [left; exists v; split; [now left | exact Hr]|].
        now right.
      * left. exists rs. split; [now right | exact Hr].
    + intros [E|H] Hr.
      * injection E as <- <-. left. exists v. split; [now left | exact Hr].
      * destruct (IH H Hr) as [(rs0 & H0 & Hr0)|R]; [|now right].
        left. exists rs0. split; [now right | exact Hr0].
Qed.

Lemma append_at_nonempty {V : Type} (m : int_dict (list V)) (k : Z) (x : V) :
  Forall (fun kv => snd kv <> []) m ->
  Forall (fun kv => snd kv <> []) (append_at m k x).
Proof.
  induction 1 as [|[k0 v] m Hv Hm IH].
  - rewrite append_at_nil. repeat constructor. discriminate.
  - rewrite append_at_cons. destruct (k =? k0).
    + constructor; [|exact Hm]. cbn. now destruct v.
    + constructor; [exact Hv | exact IH].
Qed.

Lemma record_all_keys (k : Z) (rs : list (string * string)) :
  forall m k', In k' (keys (record_all k rs m)) <->
               In k' (keys m) \/ (rs <> [] /\ k' = k).
Proof.
  unfold record_all. induction rs as [|r rs IH]; intros m k'; cbn [fold_left].
  - intuition.
  - rewrite IH, append_at_keys.
    split; [|intuition]. intros [[H|H]|[_ H]]; auto; right; split; auto; discriminate.
Qed.

Lemma record_all_In (k : Z) (rs : list (string * string)) :
  forall m k' rs' r,
    In (k', rs') (record_all k rs m) -> In r rs' ->
    (exists rs0, In (k', rs0) m /\ In r rs0)
    \/ (k' = k /\ In (range_start r, range_end r) rs).
Proof.
  unfold record_all.
  induction rs as [|p rs IH]; intros m k' rs' r H Hr; cbn [fold_left] in H.
  - left. eauto.
  - destruct (IH _ _ _ _ H Hr) as [(rs0 & H0 & Hr0)|[-> Hin]].
    + destruct (append_at_In _ _ _ _ _ _ H0 Hr0) as [L|[-> ->]]; [now left|].
      right. split; [reflexivity|]. left. now destruct p.
    + right. split; [reflexivity | now right].
Qed.

Lemma record_all_nonempty (k : Z) (rs : list (string * string)) :
  forall m, Forall (fun kv => snd kv <> []) m ->
            Forall (fun kv => snd kv <> []) (record_all k rs m).
Proof.
  unfold record_all.
  induction rs as [|p rs IH]; intros m H; cbn [fold_left]; [exact H|].
  apply IH. now apply append_at_nonempty.
Qed.

Lemma comprehension_exists {A B : Type} (f : A -> result B) (P : B -> Prop)
    (xs : list A) :
  (forall x, In x xs -> exists y, f x = Ok y /\ P y) ->
  exists ys, comprehension f xs = Ok ys /\ Forall P ys.
Proof.
  induction xs as [|x xs IH]; intros H.
  - exists []. split; [reflexivity | constructor].
  - destruct (H x (or_introl eq_refl)) as (y & Hy & Py).
    destruct IH as (ys & Hys & Pys); [intros; apply H; now right|].
    exists (y :: ys). cbn. rewrite Hy, Hys. split; [reflexivity | now constructor].
Qed.

Lemma effective_nights_window (nights : option Z) (num_days : Z) :
  1 <= num_days -> 1 <= effective_nights nights num_days <= num_days.
Proof.
  intros H. unfold effective_nights. destruct nights as [n|]; [|lia].
  destruct (Z.leb_spec 1 n), (Z.ltb_spec n (num_days + 1)); cbn; lia.
Qed.

Lemma in_window_days (start_date end_date d : date) :
  valid_date start_date -> valid_date end_date ->
  In d (window_days start_date end_date) <->
  valid_date d /\ toordinal start_date <= toordinal d < toordinal end_date.
Proof.
  intros Vs Ve. unfold window_days, days_between. rewrite in_map_iff.
  destruct (fromordinal_toordinal _ Vs) as [_ Rs].
  destruct (fromordinal_toordinal _ Ve) as [_ Re].
  split.
  - intros (i & <- & Hi). apply in_py_range in Hi.
    destruct (fromordinal_in_range (toordinal end_date - i) ltac:(lia)) as (_ & V & T).
    split; [exact V | lia].
  - intros (V & Hd). exists (toordinal end_date - toordinal d). split.
    + destruct (fromordinal_toordinal _ V) as [F _].
      replace (toordinal end_date - (toordinal end_date - toordinal d))
        with (toordinal d) by lia.
      symmetry. now apply fromordinal_date_of.
    + apply in_py_range. lia.
Qed.

Section CounterFacts.

Variable strptime : string -> DateFormat -> result date.
Variable format_date : date -> DateFormat -> string.
Variable int_of_str : string -> result Z.

Local Abbreviation consecutive_nights' := (consecutive_nights strptime format_date).
Local Abbreviation count_site' := (count_site strptime format_date int_of_str).
Local Abbreviation record_range' := (record_range int_of_str).
Local Abbreviation window_dates' := (window_dates format_date).
Local Abbreviation get_num_available_sites' :=
  (get_num_available_sites strptime format_date int_of_str).
Local Abbreviation iso d := (format_date d ISO_DATE_FORMAT_RESPONSE).
Local Abbreviation parses_back' := (parses_back strptime format_date).

Lemma desired_available_In (W av : list string) (x : string) :
  In x (desired_available W av) <-> In x av /\ In x W.
Proof.
  unfold desired_available. rewrite filter_In, existsb_exists.
  split.
  - intros (Hx & y & Hy & E). apply String.eqb_eq in E. subst y. auto.
  - intros (Hx & Hw). split; [exact Hx|]. exists x. split; [exact Hw|].
    apply String.eqb_refl.
Qed.

Lemma window_dates_spec (start_date end_date : date) :
  valid_date start_date -> valid_date end_date ->
  window_dates' start_date end_date
  = Ok (map (fun d => iso d) (window_days start_date end_date)).
Proof.
  intros Vs Ve. unfold window_dates, window_days, days_between.
  destruct (fromordinal_toordinal _ Vs) as [_ Rs].
  destruct (fromordinal_toordinal _ Ve) as [_ Re].
  rewrite (comprehension_Ok_map _
             (fun i => date_of_ordinal (toordinal end_date - i))); [reflexivity|].
  intros i Hi. apply in_py_range in Hi. unfold sub_days. cbv zeta.
  destruct (Z.ltb_spec 0 (toordinal end_date - i)); [|lia].
  destruct (Z.leb_spec (toordinal end_date - i) MAXORDINAL); [|lia]. cbn.
  apply fromordinal_in_range. lia.
Qed.

Lemma record_loop (site : string) (rs : list (string * string)) :
  forall m,
    for_each (record_range' site) rs m
    = match rs with
      | [] => Ok m
      | _ => k <- int_of_str site ;; Ok (record_all k rs m)
      end.
Proof.
  induction rs as [|[s e] rs IH]; intros m; [reflexivity|].
  cbn [for_each]. unfold record_range at 1.
  destruct (int_of_str site) as [k|err] eqn:E; cbn [bind]; [|reflexivity].
  rewrite IH. destruct rs; reflexivity.
Qed.

Lemma count_site_eq (nights : Z) (W : list string) (c : Z)
    (m : int_dict (list date_range)) (site : string) (av : list string) :
  count_site' nights W (c, m) (site, av)
  = (rs <- consecutive_nights' (desired_available W av) nights ;;
     m' <- for_each (record_range' site) rs m ;;
     Ok (if has_ranges rs then c + 1 else c, m')).
Proof.
  unfold count_site. destruct (desired_available W av) as [|d ds]; [reflexivity|].
  destruct (consecutive_nights' (d :: ds) nights) as [rs|]; cbn [bind]; [|reflexivity].
  destruct (for_each _ rs m); cbn [bind]; [|reflexivity]. now destruct rs.
Qed.

(** What the loop over the sites leaves in the counter and in the mapping. *)
Lemma count_sites_spec (nights : Z) (W : list string) (pi : dict (list string)) :
  forall c0 m0 c m,
    for_each (count_site' nights W) pi (c0, m0) = Ok (c, m) ->
    exists rss,
      Forall2 (fun item rs =>
                 consecutive_nights' (desired_available W (snd item)) nights = Ok rs)
        pi rss
      /\ c = c0 + len (filter has_ranges rss)
      /\ (forall k, In k (keys m) <->
            In k (keys m0)
            \/ exists site av rs, In (site, av, rs) (combine pi rss)
                 /\ rs <> [] /\ int_of_str site = Ok k)
      /\ (forall k rs' r, In (k, rs') m -> In r rs' ->
            (exists rs0, In (k, rs0) m0 /\ In r rs0)
            \/ exists site av rs, In (site, av, rs) (combine pi rss)
                 /\ int_of_str site = Ok k
                 /\ In (range_start r, range_end r) rs)
      /\ (Forall (fun kv => snd kv <> []) m0 -> Forall (fun kv => snd kv <> []) m).
Proof.
  induction pi as [|[site av] pi IH]; intros c0 m0 c m H.
  - cbn in H. injection H as <- <-. exists []. cbn.
    split; [constructor|]. split; [unfold len; cbn; lia|].
    split; [intros k; split; [auto | intros [H|(? & ? & ? & [] & _)]; exact H]|].
    split; [intros; left; eauto | auto].
  - cbn [for_each] in H. rewrite count_site_eq in H.
    apply bind_Ok in H. destruct H as ([c1 m1] & H1 & H).
    apply bind_Ok in H1. destruct H1 as (rs & Hrs & H1).
    apply bind_Ok in H1. destruct H1 as (m1' & Hrec & H1). injection H1 as <- <-.
    rewrite record_loop in Hrec.
    assert (Hm1 : (rs = [] /\ m1' = m0)
                  \/ (rs <> [] /\ exists k0, int_of_str site = Ok k0
                                             /\ m1' = record_all k0 rs m0)).
    { destruct rs as [|r0 rs]; [left; split; congruence|]. right.
      split; [discriminate|].
      apply bind_Ok in Hrec. destruct Hrec as (k0 & Hk0 & Hrec).
      exists k0. split; [exact Hk0 | congruence]. }
    clear Hrec.
    destruct (IH _ _ _ _ H) as (rss & F & Ec & Hk & Hp & Hn).
    exists (rs :: rss). split; [constructor; [exact Hrs | exact F]|].
    split.
    { cbn [filter]. unfold len in *. destruct rs; cbn [has_ranges length] in *; lia. }
    cbn [combine].
    destruct Hm1 as [[-> ->]|(Hne0 & k0 & Hk0 & ->)].
    + split; [|split; [|exact Hn]].
      * intros k. rewrite Hk. split.
        -- intros [L|(s & a & rs & Hin & Hne & Hi)]; [now left|]. right.
           exists s, a, rs. split; [now right | split; assumption].
        -- intros [L|(s & a & rs & Hin & Hne & Hi)]; [now left|]. right.
           destruct Hin as [E|Hin]; [injection E as <- <- <-; congruence|].
           exists s, a, rs. split; [exact Hin | split; assumption].
      * intros k rs' r Hin Hr.
        destruct (Hp _ _ _ Hin Hr) as [L|(s & a & rs & Hi & R)]; [now left|].
        right. exists s, a, rs. split; [now right | exact R].
    + split; [|split].
      * intros k. rewrite Hk, record_all_keys. split.
        -- intros [[L|[_ ->]]|(s & a & rs' & Hin & Hne & Hi)].
           ++ now left.
           ++ right. exists site, av, rs.
              split; [now left | split; assumption].
           ++ right. exists s, a, rs'. split; [now right | split; assumption].
        -- intros [L|(s & a & rs' & [E|Hin] & Hne & Hi)].
           ++ left. now left.
           ++ injection E as <- <- <-. left. right. split; [assumption | congruence].
           ++ right. exists s, a, rs'. split; [exact Hin | split; assumption].
      * intros k rs' r Hin Hr.
        destruct (Hp _ _ _ Hin Hr) as [(rs0 & H0 & Hr0)|(s & a & rs1 & Hi & R)].
        -- destruct (record_all_In _ _ _ _ _ _ H0 Hr0) as [L|[-> Hin']]; [now left|].
           right. exists site, av, rs. split; [now left | split; assumption].
        -- right. exists s, a, rs1. split; [now right | exact R].
      * intros H0. apply Hn. now apply record_all_nonempty.
Qed.

Lemma get_num_available_sites_Ok (pi : dict (list string))
    (start_date end_date : date) (nights : option Z) (cur mx : Z)
    (by_id : int_dict (list date_range)) :
  get_num_available_sites' pi start_date end_date nights = Ok (cur, mx, by_id) <->
  exists W, window_dates' start_date end_date = Ok W
    /\ for_each (count_site' (effective_nights nights
                                (days_between start_date end_date)) W) pi (0, [])
       = Ok (cur, by_id)
    /\ mx = len pi.
Proof.
  unfold get_num_available_sites. split.
  - intros H. apply bind_Ok in H. destruct H as (W & HW & H).
    apply bind_Ok in H. destruct H as ([c m] & Hc & H). cbn in H.
    injection H as <- <- <-. exists W. auto.
  - intros (W & HW & Hc & ->). rewrite HW. cbn [bind]. now rewrite Hc.
Qed.

Section Window.

Variables start_date end_date : date.
Hypothesis start_valid : valid_date start_date.
Hypothesis end_valid : valid_date end_date.
Hypothesis parse_format : parses_back'.

Let W : list string := map (fun d => iso d) (window_days start_date end_date).

Lemma desired_in_window (av : list string) (x : string) :
  In x (desired_available W av) ->
  In x av /\ exists d, x = iso d /\ valid_date d
    /\ strptime x ISO_DATE_FORMAT_RESPONSE = Ok d
    /\ toordinal start_date <= toordinal d < toordinal end_date.
Proof.
  intros H. apply desired_available_In in H. destruct H as [Hx Hw].
  split; [exact Hx|]. unfold W in Hw. apply in_map_iff in Hw.
  destruct Hw as (d & <- & Hd).
  apply (in_window_days _ _ _ start_valid end_valid) in Hd. destruct Hd as [V R].
  exists d. repeat split; try assumption; try lia. now apply parse_format.
Qed.

Lemma window_nights (nights : option Z) (av : list string) :
  desired_available W av <> [] ->
  1 <= effective_nights nights (days_between start_date end_date)
    <= days_between start_date end_date.
Proof.
  intros H. apply effective_nights_window.
  destruct (desired_available W av) as [|x l] eqn:E; [congruence|].
  destruct (desired_in_window av x) as (_ & d & _ & _ & _ & R);
    [rewrite E; now left|].
  unfold days_between. lia.
Qed.

(** On the dates of the window the compactor always returns. *)
Lemma site_ranges_total (nights : option Z) (av : list string) :
  exists ords,
    comprehension (ordinal_of strptime) (desired_available W av) = Ok ords
    /\ Forall (fun o => toordinal start_date <= o < toordinal end_date) ords
    /\ consecutive_nights' (desired_available W av)
         (effective_nights nights (days_between start_date end_date))
       = Ok (map (format_window format_date)
               (windows_of (effective_nights nights
                              (days_between start_date end_date)) ords)).
Proof.
  destruct (comprehension_exists (ordinal_of strptime)
              (fun o => toordinal start_date <= o < toordinal end_date)
              (desired_available W av)) as (ords & Ho & Hr).
  { intros x Hx. destruct (desired_in_window av x Hx) as (_ & d & _ & _ & P & R).
    exists (toordinal d). unfold ordinal_of. rewrite P. split; [reflexivity | exact R]. }
  exists ords. split; [exact Ho|]. split; [exact Hr|].
  destruct (desired_available W av) as [|x l] eqn:E.
  - cbn in Ho. injection Ho as <-. reflexivity.
  - apply consecutive_nights_total with (ords := ords).
    + apply (window_nights nights av). rewrite E. discriminate.
    + exact Ho.
    + destruct (fromordinal_toordinal _ start_valid) as [_ Rs].
      destruct (fromordinal_toordinal _ end_valid) as [_ Re].
      eapply Forall_impl; [|exact Hr]. cbn. intros; lia.
Qed.

Lemma count_sites_total (nights : option Z) (pi : dict (list string)) :
  (forall site, In site (keys pi) -> exists k, int_of_str site = Ok k) ->
  forall st, exists st',
    for_each (count_site' (effective_nights nights
                             (days_between start_date end_date)) W) pi st
    = Ok st'.
Proof.
  induction pi as [|[site av] pi IH]; intros Hk st; [exists st; reflexivity|].
  destruct st as [c m]. cbn [for_each]. rewrite count_site_eq.
  destruct (site_ranges_total nights av) as (ords & _ & _ & ->). cbn [bind].
  rewrite record_loop.
  destruct (Hk site (or_introl eq_refl)) as (k & Ek).
  assert (Hk' : forall s, In s (keys pi) -> exists k, int_of_str s = Ok k)
    by (intros s Hs; apply Hk; now right).
  destruct (map (format_window format_date) _) as [|r rs]; cbn [bind].
  - apply (IH Hk').
  - rewrite Ek. cbn [bind]. apply (IH Hk').
Qed.

Lemma get_num_available_sites_total (nights : option Z) (pi : dict (list string)) :
  (forall site, In site (keys pi) -> exists k, int_of_str site = Ok k) ->
  exists r, get_num_available_sites' pi start_date end_date nights = Ok r.
Proof.
  intros Hk. unfold get_num_available_sites.
  rewrite (window_dates_spec _ _ start_valid end_valid). cbn [bind].
  destruct (count_sites_total nights pi Hk (0, [])) as (st & E).
  fold W. rewrite E. cbn. eauto.
Qed.

End Window.

(** C5. The counter hands to the compactor only those dates of a site that
    are one of the days [start_date .. end_date - 1]; every range it records
    comes from the compactor run on that filtered list, and none starts
    before [start_date] or ends after [end_date]. *)
Theorem C5_window_filter (pi : dict (list string)) (start_date end_date : date)
    (nights : option Z) (cur mx : Z) (by_id : int_dict (list date_range)) :
  valid_date start_date -> valid_date end_date -> parses_back' ->
  get_num_available_sites' pi start_date end_date nights = Ok (cur, mx, by_id) ->
  exists W,
    window_dates' start_date end_date = Ok W
    /\ (forall x, In x W <->
          exists d, x = iso d /\ valid_date d
            /\ toordinal start_date <= toordinal d < toordinal end_date)
    /\ (forall site av x, In (site, av) pi ->
          In x (desired_available W av) <-> In x av /\ In x W)
    /\ (forall k rs r, In (k, rs) by_id -> In r rs ->
          exists site av out ds de,
            In (site, av) pi /\ int_of_str site = Ok k
            /\ consecutive_nights' (desired_available W av)
                 (effective_nights nights (days_between start_date end_date))
               = Ok out
            /\ In (range_start r, range_end r) out
            /\ valid_date ds /\ valid_date de
            /\ range_start r = format_date ds INPUT_DATE_FORMAT
            /\ range_end r = format_date de INPUT_DATE_FORMAT
            /\ toordinal start_date <= toordinal ds
            /\ toordinal de <= toordinal end_date).
Proof.
  intros Vs Ve Hpf H. apply get_num_available_sites_Ok in H.
  destruct H as (W & HW & Hc & _). exists W. split; [exact HW|].
  rewrite (window_dates_spec _ _ Vs Ve) in HW. injection HW as <-.
  split.
  { intros x. rewrite in_map_iff. split.
    - intros (d & <- & Hd). apply (in_window_days _ _ _ Vs Ve) in Hd.
      exists d. tauto.
    - intros (d & -> & V & R). exists d. split; [reflexivity|].
      apply (in_window_days _ _ _ Vs Ve). tauto. }
  split; [intros site av x _; apply desired_available_In|].
  intros k rs r Hin Hr.
  destruct (count_sites_spec _ _ _ _ _ _ _ Hc) as (rss & F & _ & _ & Hp & _).
  destruct (Hp _ _ _ Hin Hr) as [(rs0 & [] & _)|(site & av & out & Hi & Hk & Ho)].
  assert (Hpi : In (site, av) pi) by (apply in_combine_l in Hi; exact Hi).
  assert (Hout : consecutive_nights' (desired_available
                    (map (fun d => iso d) (window_days start_date end_date)) av)
                   (effective_nights nights (days_between start_date end_date))
                 = Ok out).
  { clear -F Hi. revert rss F Hi. induction pi as [|p pi IH]; intros rss F Hi;
      inversion F; subst; cbn in Hi; [destruct Hi|].
    destruct Hi as [E|Hi]; [injection E as -> ->; assumption | eauto]. }
  assert (Hne : desired_available
                  (map (fun d => iso d) (window_days start_date end_date)) av <> []).
  { intros E. rewrite E in Hout. cbn in Hout. injection Hout as <-. destruct Ho. }
  pose proof (window_nights _ _ Vs Ve Hpf nights av Hne) as Hn.
  assert (Hv : forall dstr d,
             In dstr (desired_available
                        (map (fun d => iso d) (window_days start_date end_date)) av) ->
             strptime dstr ISO_DATE_FORMAT_RESPONSE = Ok d -> valid_date d).
  { intros dstr d I P.
    destruct (desired_in_window _ _ Vs Ve Hpf av dstr I) as (_ & d' & _ & V & P' & _).
    congruence. }
  destruct (ranges_inside_available strptime format_date _ _ _ (proj1 Hn) Hv
              Hout _ _ Ho)
    as (ds & de & Vds & Vde & Es & Ee & Hd & Hdays).
  exists site, av, out, ds, de.
  repeat (split; [assumption|]).
  destruct (Hdays 0 ltac:(lia)) as (x0 & d0 & I0 & P0 & _ & T0).
  destruct (Hdays (effective_nights nights (days_between start_date end_date) - 1)
              ltac:(lia)) as (x1 & d1 & I1 & P1 & _ & T1).
  destruct (desired_in_window _ _ Vs Ve Hpf av x0 I0) as (_ & d0' & _ & _ & P0' & R0).
  destruct (desired_in_window _ _ Vs Ve Hpf av x1 I1) as (_ & d1' & _ & _ & P1' & R1).
  assert (d0' = d0) by congruence. assert (d1' = d1) by congruence. subst.
  unfold days_between in *. lia.
Qed.

(** C6. The counter never raises because of [nights], and the number of
    nights [used] it hands to the compactor for every site is [nights] itself
    when that lies in [1 .. num_days] and [num_days] for any other value,
    [None] included: [current] counts the sites for which the compactor run
    with [used] returns a range, the keys of the returned mapping are the ids
    of those sites and every recorded range is one of those the compactor
    returned for [used]. For a value outside [1 .. num_days] the counter
    returns what it returns for [Some num_days]. *)
Theorem C6_nights_clamped (pi : dict (list string)) (start_date end_date : date)
    (nights : option Z) :
  valid_date start_date -> valid_date end_date -> parses_back' ->
  (forall site, In site (keys pi) -> exists k, int_of_str site = Ok k) ->
  exists used W rss cur by_id,
    (forall n, nights = Some n -> 1 <= n <= days_between start_date end_date ->
       used = n)
    /\ (~ nights_in_window nights (days_between start_date end_date) ->
          used = days_between start_date end_date
          /\ get_num_available_sites' pi start_date end_date nights
             = get_num_available_sites' pi start_date end_date
                 (Some (days_between start_date end_date)))
    /\ window_dates' start_date end_date = Ok W
    /\ Forall2 (fun item rs =>
                  consecutive_nights' (desired_available W (snd item)) used
                  = Ok rs) pi rss
    /\ get_num_available_sites' pi start_date end_date nights
       = Ok (cur, len pi, by_id)
    /\ cur = len (filter has_ranges rss)
    /\ (forall k, In k (keys by_id) <->
          exists site av rs, In (site, av, rs) (combine pi rss)
            /\ rs <> [] /\ int_of_str site = Ok k)
    /\ (forall k rs' r, In (k, rs') by_id -> In r rs' ->
          exists site av rs, In (site, av, rs) (combine pi rss)
            /\ int_of_str site = Ok k
            /\ In (range_start r, range_end r) rs).
Proof.
  intros Vs Ve Hpf Hk.
  set (num_days := days_between start_date end_date).
  assert (Hin : forall n, 1 <= n <= num_days ->
                          effective_nights (Some n) num_days = n).
  { intros n Hn. unfold effective_nights.
    destruct (Z.leb_spec 1 n), (Z.ltb_spec n (num_days + 1)); cbn; lia. }
  assert (Hout : ~ nights_in_window nights num_days ->
                 effective_nights nights num_days = num_days).
  { intros N. unfold effective_nights. destruct nights as [n|]; [|reflexivity].
    destruct (Z.leb_spec 1 n), (Z.ltb_spec n (num_days + 1)); cbn; try reflexivity.
    exfalso. apply N. exists n. split; [reflexivity | lia]. }
  assert (Hself : effective_nights (Some num_days) num_days = num_days).
  { unfold effective_nights.
    destruct (Z.leb_spec 1 num_days), (Z.ltb_spec num_days (num_days + 1)); cbn; lia. }
  destruct (get_num_available_sites_total _ _
              Vs Ve Hpf nights pi Hk) as ([[cur mx] by_id] & H).
  pose proof H as H'. apply get_num_available_sites_Ok in H'.
  destruct H' as (W & HW & Hc & ->).
  destruct (count_sites_spec _ _ _ _ _ _ _ Hc) as (rss & F & Ec & Hkeys & Hr & _).
  exists (effective_nights nights num_days), W, rss, cur, by_id.
  split; [intros n -> Hn; now apply Hin|].
  split.
  { intros N. split; [now apply Hout|].
    unfold get_num_available_sites. fold num_days. now rewrite (Hout N), Hself. }
  split; [exact HW|]. split; [exact F|]. split; [exact H|]. split; [lia|].
  split.
  - intros k. rewrite Hkeys. cbn. tauto.
  - intros k rs' r Hi Hr'. destruct (Hr k rs' r Hi Hr') as [(rs0 & [] & _)|R].
    exact R.
Qed.

(** C7. [maximum] is the number of sites of the mapping, [current] the number
    of sites for which the compactor returns at least one range, each counted
    once; the keys of the returned mapping are exactly the integer ids of
    those sites, every key carries at least one range, and a site without a
    date in the window has no range. *)
Theorem C7_site_counts (pi : dict (list string)) (start_date end_date : date)
    (nights : option Z) (cur mx : Z) (by_id : int_dict (list date_range)) :
  get_num_available_sites' pi start_date end_date nights = Ok (cur, mx, by_id) ->
  exists W rss,
    window_dates' start_date end_date = Ok W
    /\ Forall2 (fun item rs =>
                  consecutive_nights' (desired_available W (snd item))
                    (effective_nights nights (days_between start_date end_date))
                  = Ok rs) pi rss
    /\ mx = len pi
    /\ cur = len (filter has_ranges rss)
    /\ (forall k, In k (keys by_id) <->
          exists site av rs, In (site, av, rs) (combine pi rss)
            /\ rs <> [] /\ int_of_str site = Ok k)
    /\ Forall (fun kv => snd kv <> []) by_id
    /\ (forall site av rs, In (site, av, rs) (combine pi rss) ->
          desired_available W av = [] -> rs = []).
Proof.
  intros H. apply get_num_available_sites_Ok in H.
  destruct H as (W & HW & Hc & ->). exists W.
  destruct (count_sites_spec _ _ _ _ _ _ _ Hc) as (rss & F & Ec & Hk & _ & Hn).
  exists rss. split; [exact HW|]. split; [exact F|]. split; [reflexivity|].
  split; [lia|]. split; [|split; [apply Hn; constructor|]].
  - intros k. rewrite Hk. cbn. tauto.
  - clear -F. revert rss F. induction pi as [|p pi IH]; intros rss F site av rs Hi E;
      inversion F as [|? rs0 ? rss0 Hp Hrest]; subst; cbn in Hi; [destruct Hi|].
    destruct Hi as [Ei|Hi]; [|eauto]. injection Ei as -> ->. cbn [snd] in Hp.
    rewrite E in Hp. cbn in Hp. congruence.
Qed.

End CounterFacts.

(** * Facts about dictionaries *)

Lemma lookup_setdefault {V : Type} (d : dict V) (k : string) (v : V) (k' : string) :
  lookup String.eqb (setdefault String.eqb d k v) k'
  = match lookup String.eqb d k' with
    | Some x => Some x
    | None => if String.eqb k' k then Some v else None
    end.
Proof.
  induction d as [|[k0 v0] d IH]; cbn; [reflexivity|].
  destruct (String.eqb k k0) eqn:E; cbn; destruct (String.eqb k' k0) eqn:E';
    try reflexivity; [|exact IH].
  apply String.eqb_eq in E. subst k0. rewrite E'.
  destruct (lookup String.eqb d k'); reflexivity.
Qed.

Lemma keys_setdefault {V : Type} (d : dict V) (k : string) (v : V) :
  keys (setdefault String.eqb d k v) = add_key (keys d) k.
Proof.
  unfold add_key, keys. induction d as [|[k0 v0] d IH]; cbn; [reflexivity|].
  destruct (String.eqb k k0); cbn; [reflexivity|]. rewrite IH.
  now destruct (existsb (String.eqb k) (map fst d)).
Qed.

Lemma lookup_adjust {V : Type} (f : V -> V) (d : dict V) (k k' : string) :
  lookup String.eqb (adjust String.eqb f d k) k'
  = if String.eqb k' k then option_map f (lookup String.eqb d k')
    else lookup String.eqb d k'.
Proof.
  induction d as [|[k0 v0] d IH]; cbn; [now destruct (String.eqb k' k)|].
  destruct (String.eqb k k0) eqn:E; cbn; destruct (String.eqb k' k0) eqn:E'.
  - apply String.eqb_eq in E. subst k0. now rewrite E'.
  - apply String.eqb_eq in E. subst k0. now rewrite E'.
  - apply String.eqb_eq in E'. subst k0. rewrite String.eqb_sym in E. now rewrite E.
  - exact IH.
Qed.

Lemma keys_adjust {V : Type} (f : V -> V) (d : dict V) (k : string) :
  keys (adjust String.eqb f d k) = keys d.
Proof.
  unfold keys. induction d as [|[k0 v0] d IH]; cbn; [reflexivity|].
  destruct (String.eqb k k0); cbn; [reflexivity | now rewrite IH].
Qed.

Lemma lookup_keys {V : Type} (d : dict V) (k : string) :
  In k (keys d) <-> exists v, lookup String.eqb d k = Some v.
Proof.
  unfold keys. induction d as [|[k0 v0] d IH]; cbn.
  - split; [intros [] | intros [v H]; discriminate].
  - destruct (String.eqb k k0) eqn:E.
    + apply String.eqb_eq in E. split; eauto.
    + apply String.eqb_neq in E. rewrite <- IH.
      split; [intros [E'|H]; [congruence | exact H] | auto].
Qed.

Lemma add_key_In (ks : list string) (k k' : string) :
  In k' (add_key ks k) <-> In k' ks \/ k' = k.
Proof.
  unfold add_key. destruct (existsb (String.eqb k) ks) eqn:E.
  - apply existsb_exists in E. destruct E as (x & Hx & E).
    apply String.eqb_eq in E. subst x. split; [auto | intros [H| ->]; assumption].
  - rewrite in_app_iff. cbn. intuition.
Qed.

Lemma fold_add_key_In (l : list string) :
  forall ks k, In k (fold_left add_key l ks) <-> In k ks \/ In k l.
Proof.
  induction l as [|x l IH]; intros ks k; cbn; [tauto|].
  rewrite IH, add_key_In. intuition.
Qed.

Lemma for_each_concat {A S : Type} (body : S -> A -> result S) (xss : list (list A)) :
  forall s,
    for_each (fun st xs => for_each body xs st) xss s = for_each body (concat xss) s.
Proof.
  induction xss as [|xs xss IH]; intros s; cbn; [reflexivity|].
  rewrite for_each_app. destruct (for_each body xs s); cbn; [apply IH | reflexivity].
Qed.

Lemma flat_map_concat {A B : Type} (f : A -> list B) (xss : list (list A)) :
  flat_map f (concat xss) = concat (map (flat_map f) xss).
Proof.
  induction xss as [|xs xss IH]; cbn; [reflexivity|].
  now rewrite flat_map_app, IH.
Qed.

(** * Facts about the aggregator *)

Section AggregatorFacts.

Variable int_of_str : string -> result Z.
Variable type_filter : option string.
Variable campsite_ids : list Z.

Local Abbreviation keep_date' := (keep_date int_of_str type_filter campsite_ids).
Local Abbreviation collapse_campsite' :=
  (collapse_campsite int_of_str type_filter campsite_ids).
Local Abbreviation verdict := (filter_verdict int_of_str type_filter campsite_ids).
Local Abbreviation kept := (kept_dates int_of_str type_filter campsite_ids).
Local Abbreviation passes := (passes_filters int_of_str type_filter campsite_ids).

Lemma keep_date_eq (c : campsite) (acc : list string) (date v : string) :
  keep_date' c acc (date, v)
  = if is_available (date, v)
    then skip <- verdict c ;; Ok (if skip then acc else acc ++ [date])
    else Ok acc.
Proof.
  unfold keep_date, filter_verdict, is_available. cbn [snd].
  destruct (String.eqb v "Available"); cbn [negb]; [|reflexivity].
  destruct (wanted_type type_filter) as [t|]; cbn [bind].
  - destruct (field (campsite_type c)) as [t'|]; cbn [bind]; [|reflexivity].
    destruct (negb (String.eqb t t')); cbn [bind]; [reflexivity|].
    destruct (0 <? len campsite_ids); [|reflexivity].
    destruct (field (campsite_id c)) as [cid|]; cbn [bind]; [|reflexivity].
    destruct (int_of_str cid) as [k|]; cbn [bind]; [|reflexivity].
    now destruct (negb (existsb (Z.eqb k) campsite_ids)).
  - destruct (0 <? len campsite_ids); [|reflexivity].
    destruct (field (campsite_id c)) as [cid|]; cbn [bind]; [|reflexivity].
    destruct (int_of_str cid) as [k|]; cbn [bind]; [|reflexivity].
    now destruct (negb (existsb (Z.eqb k) campsite_ids)).
Qed.

Lemma verdict_passes (c : campsite) (b : bool) :
  verdict c = Ok b -> passes c = negb b.
Proof.
  unfold filter_verdict, passes_filters.
  destruct (wanted_type type_filter) as [t|]; cbn [bind].
  - destruct (campsite_type c) as [t'|]; cbn; [|discriminate].
    destruct (String.eqb t t'); cbn; [|intros H; now injection H as <-].
    destruct (0 <? len campsite_ids); [|intros H; now injection H as <-].
    destruct (campsite_id c) as [cid|]; cbn; [|discriminate].
    destruct (int_of_str cid) as [k|]; cbn; [|discriminate].
    intros H; injection H as <-. now rewrite negb_involutive.
  - destruct (0 <? len campsite_ids); [|intros H; now injection H as <-].
    destruct (campsite_id c) as [cid|]; cbn; [|discriminate].
    destruct (int_of_str cid) as [k|]; cbn; [|discriminate].
    intros H; injection H as <-. now rewrite negb_involutive.
Qed.

(** The loop over the dates of one record evaluates the filters only when a
    date is Available, and then keeps all Available dates or none. *)
Lemma keep_dates_loop (c : campsite) (items : dict string) :
  forall acc,
    for_each (keep_date' c) items acc
    = match filter is_available items with
      | [] => Ok acc
      | l => skip <- verdict c ;; Ok (if skip then acc else acc ++ map fst l)
      end.
Proof.
  induction items as [|[date v] items IH]; intros acc; [reflexivity|].
  cbn [for_each filter]. rewrite keep_date_eq.
  destruct (is_available (date, v)); cbn [bind]; [|apply IH].
  destruct (verdict c) as [[|]|e]; cbn [bind]; [| |reflexivity]; rewrite IH.
  - now destruct (filter is_available items).
  - destruct (filter is_available items); cbn [bind map fst]; [reflexivity|].
    now rewrite <- app_assoc.
Qed.

Lemma kept_spec (c : campsite) (l : list string) :
  for_each (keep_date' c) (availabilities c) [] = Ok l -> l = kept c.
Proof.
  rewrite keep_dates_loop. unfold kept_dates, available_dates.
  fold is_available.
  destruct (filter is_available (availabilities c)) as [|x xs].
  - intros H. injection H as <-. now destruct (passes c).
  - intros H. apply bind_Ok in H. destruct H as (b & Hb & H). injection H as <-.
    rewrite (verdict_passes _ _ Hb). now destruct b.
Qed.

Lemma collapse_campsite_spec (data data' : dict (list string))
    (data2 data2' : dict site_info) (id : string) (c : campsite) :
  collapse_campsite' (data, data2) (id, c) = Ok (data', data2') ->
  keys data' = add_key (keys data) id
  /\ forall id',
       lookup String.eqb data' id'
       = if String.eqb id' id
         then Some (match lookup String.eqb data id with
                    | Some l => l
                    | None => []
                    end ++ kept c)
         else lookup String.eqb data id'.
Proof.
  unfold collapse_campsite. intros H.
  apply bind_Ok in H. destruct H as (available & Hk & H).
  apply kept_spec in Hk. rewrite <- Hk.
  destruct available as [|a l].
  - injection H as <- <-. split; [apply keys_setdefault|].
    intros id'. rewrite lookup_setdefault. rewrite app_nil_r.
    destruct (String.eqb id' id) eqn:E.
    + apply String.eqb_eq in E. subst id'.
      now destruct (lookup String.eqb data id).
    + now destruct (lookup String.eqb data id').
  - injection H as <- <-. split; [rewrite keys_adjust; apply keys_setdefault|].
    intros id'. rewrite lookup_adjust, lookup_setdefault.
    destruct (String.eqb id' id) eqn:E.
    + apply String.eqb_eq in E. subst id'.
      now destruct (lookup String.eqb data id).
    + now destruct (lookup String.eqb data id').
Qed.

Lemma collapse_items_spec (items : dict campsite) :
  forall data0 data20 data data2,
    for_each collapse_campsite' items (data0, data20) = Ok (data, data2) ->
    keys data = fold_left add_key (map fst items) (keys data0)
    /\ forall id,
         lookup String.eqb data id
         = match lookup String.eqb data0 id with
           | Some l => Some (l ++ month_dates kept id items)
           | None => if existsb (String.eqb id) (map fst items)
                     then Some (month_dates kept id items) else None
           end.
Proof.
  induction items as [|[id0 c] items IH]; intros data0 data20 data data2 H.
  - cbn in H. injection H as <- <-. split; [reflexivity|].
    intros id. cbn. destruct (lookup String.eqb data0 id); [|reflexivity].
    now rewrite app_nil_r.
  - cbn [for_each] in H. apply bind_Ok in H. destruct H as ([data1 data21] & H1 & H).
    destruct (collapse_campsite_spec _ _ _ _ _ _ H1) as [K1 L1].
    destruct (IH _ _ _ _ H) as [K L]. split; [cbn; now rewrite K, K1|].
    intros id. rewrite L, L1. unfold month_dates. cbn [flat_map map fst snd existsb].
    destruct (String.eqb id id0) eqn:E.
    + apply String.eqb_eq in E. subst id0. cbn [orb].
      destruct (lookup String.eqb data0 id); now rewrite <- app_assoc.
    + cbn [orb app]. reflexivity.
Qed.

Lemma collapse_spec (api_data : list (dict campsite)) (data : dict (list string))
    (data2 : dict site_info) :
  collapse int_of_str api_data type_filter campsite_ids = Ok (data, data2) ->
  keys data = distinct_ids api_data
  /\ forall id, In id (keys data) ->
       lookup String.eqb data id
       = Some (concat (map (month_dates kept id) api_data)).
Proof.
  unfold collapse. rewrite for_each_concat. intros H.
  destruct (collapse_items_spec _ _ _ _ _ H) as [K L]. split; [exact K|].
  intros id Hid. rewrite L. cbn [lookup].
  rewrite K in Hid. apply fold_add_key_In in Hid. destruct Hid as [[]|Hid].
  assert (E : existsb (String.eqb id) (map fst (concat api_data)) = true).
  { apply existsb_exists. exists id. split; [exact Hid | apply String.eqb_refl]. }
  rewrite E. f_equal. unfold month_dates. apply flat_map_concat.
Qed.

Lemma distinct_ids_In (api_data : list (dict campsite)) (id : string) :
  In id (distinct_ids api_data) <->
  exists month_data c, In month_data api_data /\ In (id, c) month_data.
Proof.
  unfold distinct_ids. rewrite fold_add_key_In, in_map_iff. split.
  - intros [[]|([id' c] & <- & H)]. apply in_concat in H.
    destruct H as (m & Hm & Hc). eauto.
  - intros (m & c & Hm & Hc). right. exists (id, c). split; [reflexivity|].
    apply in_concat. eauto.
Qed.

(** Without filters the aggregator reads no optional field and returns. *)
Lemma kept_without_filters (c : campsite) :
  wanted_type type_filter = None -> campsite_ids = [] ->
  verdict c = Ok false /\ kept c = available_dates c.
Proof.
  intros Ht Hi. unfold kept_dates, passes_filters, filter_verdict.
  rewrite Ht, Hi. cbn. split; reflexivity.
Qed.

Lemma collapse_total (api_data : list (dict campsite)) :
  wanted_type type_filter = None -> campsite_ids = [] ->
  exists r, collapse int_of_str api_data type_filter campsite_ids = Ok r.
Proof.
  intros Ht Hi. unfold collapse. rewrite for_each_concat.
  generalize (@nil (string * list string), @nil (string * site_info)).
  induction (concat api_data) as [|[id c] items IH]; intros st; [cbn; eauto|].
  cbn [for_each]. destruct st as [data data2]. unfold collapse_campsite at 1.
  rewrite keep_dates_loop.
  destruct (kept_without_filters c Ht Hi) as [-> _].
  destruct (filter is_available (availabilities c)); cbn [bind]; apply IH.
Qed.

Lemma month_dates_nil (dates_of : campsite -> list string) (id : string)
    (month_data : dict campsite) :
  (forall c, In (id, c) month_data -> dates_of c = []) ->
  month_dates dates_of id month_data = [].
Proof.
  unfold month_dates. induction month_data as [|[id' c] month_data IH]; intros H;
    cbn; [reflexivity|].
  rewrite IH by (intros; apply H; now right).
  destruct (String.eqb id id') eqn:E; [|reflexivity].
  apply String.eqb_eq in E. subst id'. rewrite (H c (or_introl eq_refl)). reflexivity.
Qed.

Lemma month_dates_ext (f g : campsite -> list string) (id : string)
    (month_data : dict campsite) :
  (forall c, f c = g c) -> month_dates f id month_data = month_dates g id month_data.
Proof.
  intros H. unfold month_dates. apply flat_map_ext. intros [id' c]. cbn.
  now rewrite H.
Qed.

(** C8. The aggregated mapping has one key per site id met in the monthly
    records, and the list of a site is the concatenation, in fetch order, of
    the dates each month's record of that site contributes: its Available
    dates that pass the filters, hence all its Available dates when no filter
    is set. *)
Theorem C8_months_accumulate (api_data : list (dict campsite))
    (data : dict (list string)) (data2 : dict site_info) :
  collapse int_of_str api_data type_filter campsite_ids = Ok (data, data2) ->
  (forall id, In id (keys data) <->
     exists month_data c, In month_data api_data /\ In (id, c) month_data)
  /\ (forall id, In id (keys data) ->
        lookup String.eqb data id
        = Some (concat (map (month_dates kept id) api_data)))
  /\ (wanted_type type_filter = None -> campsite_ids = [] ->
        forall id, In id (keys data) ->
          lookup String.eqb data id
          = Some (concat (map (month_dates available_dates id) api_data))).
Proof.
  intros H. destruct (collapse_spec _ _ _ H) as [K L].
  split; [intros id; rewrite K; apply distinct_ids_In|]. split; [exact L|].
  intros Ht Hi id Hid. rewrite (L id Hid). do 2 f_equal.
  apply map_ext. intros month_data. apply month_dates_ext.
  intros c. now destruct (kept_without_filters c Ht Hi).
Qed.

Variable strptime : string -> DateFormat -> result date.
Variable format_date : date -> DateFormat -> string.

(** C10. The key of a site is inserted before its dates are looked at, so
    every site id of the monthly records is a key of the aggregated mapping
    whatever the filters say; a site whose records are all rejected by the
    filters, or hold no Available date, is mapped to the empty list; and the
    [maximum] the counter reports for that mapping counts all these sites. *)
Theorem C10_filtered_sites_counted (api_data : list (dict campsite))
    (data : dict (list string)) (data2 : dict site_info)
    (start_date end_date : date) (nights : option Z) (cur mx : Z)
    (by_id : int_dict (list date_range)) :
  collapse int_of_str api_data type_filter campsite_ids = Ok (data, data2) ->
  get_num_available_sites strptime format_date int_of_str data start_date end_date
    nights = Ok (cur, mx, by_id) ->
  keys data = distinct_ids api_data
  /\ (forall month_data id c,
        In month_data api_data -> In (id, c) month_data -> In id (keys data))
  /\ (forall id, In id (keys data) ->
        (forall month_data c, In month_data api_data -> In (id, c) month_data ->
           passes c = false \/ available_dates c = []) ->
        lookup String.eqb data id = Some [])
  /\ mx = len (distinct_ids api_data).
Proof.
  intros H G. destruct (collapse_spec _ _ _ H) as [K L].
  split; [exact K|]. split; [|split].
  - intros month_data id c Hm Hc. rewrite K. apply distinct_ids_In. eauto.
  - intros id Hid Hex. rewrite (L id Hid). f_equal.
    apply concat_nil_Forall. apply Forall_map. apply Forall_forall.
    intros month_data Hm. apply month_dates_nil. intros c Hc.
    unfold kept_dates. destruct (Hex _ _ Hm Hc) as [-> | ->]; [reflexivity|].
    now destruct (passes c).
  - apply get_num_available_sites_Ok in G. destruct G as (_ & _ & _ & ->).
    unfold len. rewrite <- K. unfold keys. now rewrite length_map.
Qed.

End AggregatorFacts.

(** * The two stages together *)

Section PipelineFacts.

Variable strptime : string -> DateFormat -> result date.
Variable format_date : date -> DateFormat -> string.
Variable int_of_str : string -> result Z.
Variable get_availability : Z -> date -> result (dict campsite).
Variable get_park_name : Z -> result string.

(** [check_park] reports as [maximum] the number of distinct site ids of the
    fetched months, whatever the filters are. *)
Lemma check_park_maximum (park_id : Z) (start_date end_date : date)
    (type_filter : option string) (campsite_ids : list Z) (nights : option Z)
    (r : park_result) :
  check_park strptime format_date int_of_str get_availability get_park_name
    park_id start_date end_date type_filter campsite_ids nights = Ok r ->
  exists api_data,
    comprehension (get_availability park_id) (months start_date end_date)
    = Ok api_data
    /\ maximum r = len (distinct_ids api_data).
Proof.
  unfold check_park, get_park_information. intros H.
  apply bind_Ok in H. destruct H as ([data data2] & Hi & H).
  apply bind_Ok in Hi. destruct Hi as (api_data & Hf & Hc).
  apply bind_Ok in H. destruct H as (name & _ & H).
  apply bind_Ok in H. destruct H as ([[c m] by_id] & Hn & H).
  injection H as <-. cbn [maximum fst] in *. exists api_data. split; [exact Hf|].
  destruct (collapse_spec _ _ _ _ _ _ Hc) as [K _].
  apply get_num_available_sites_Ok in Hn. destruct Hn as (_ & _ & _ & ->).
  unfold len. rewrite <- K. unfold keys. now rewrite length_map.
Qed.

End PipelineFacts.

(** One fetch per month touched by the window, partial months included. *)
Example months_across_new_year :
  months (mkdate 2023 11 15) (mkdate 2024 2 1)
  = [mkdate 2023 11 1; mkdate 2023 12 1; mkdate 2024 1 1; mkdate 2024 2 1].
Proof. reflexivity. Qed.

(** * Facts about [sorted] and the report data *)

Lemma string_compare_refl (s : string) : String.compare s s = Eq.
Proof.
  destruct (String.compare s s) eqn:E; [reflexivity| |];
    pose proof (String.compare_antisym s s) as A; rewrite E in A; discriminate.
Qed.

Lemma string_lt_trans (a b c : string) :
  String.compare a b = Lt -> String.compare b c = Lt -> String.compare a c = Lt.
Proof. exact (@StrictOrder_Transitive _ _ String_as_OT.lt_strorder a b c). Qed.

Lemma pair_ltb_spec (a b : string * string) :
  pair_ltb a b = true <->
  String.compare (fst a) (fst b) = Lt
  \/ (fst a = fst b /\ String.compare (snd a) (snd b) = Lt).
Proof.
  unfold pair_ltb. destruct (String.compare (fst a) (fst b)) eqn:E.
  - apply String.compare_eq_iff in E.
    destruct (String.compare (snd a) (snd b)); split;
      try discriminate; try tauto; intros [H|[_ H]]; discriminate.
  - tauto.
  - split; [discriminate|]. intros [H|[H _]]; [discriminate|].
    rewrite H, string_compare_refl in E. discriminate.
Qed.

Lemma pair_ltb_trans (a b c : string * string) :
  pair_ltb a b = true -> pair_ltb b c = true -> pair_ltb a c = true.
Proof.
  rewrite !pair_ltb_spec. intros [H1|[E1 H1]] [H2|[E2 H2]].
  - left. eapply string_lt_trans; eassumption.
  - left. now rewrite <- E2.
  - left. now rewrite E1.
  - right. split; [congruence|]. eapply string_lt_trans; eassumption.
Qed.

Lemma pair_ltb_connex (a b : string * string) :
  pair_ltb a b = false -> pair_ltb b a = false -> a = b.
Proof.
  unfold pair_ltb. rewrite (String.compare_antisym (fst b) (fst a)).
  rewrite (String.compare_antisym (snd b) (snd a)).
  destruct (String.compare (fst a) (fst b)) eqn:E1; cbn; try discriminate.
  destruct (String.compare (snd a) (snd b)) eqn:E2; cbn; try discriminate.
  intros _ _. apply String.compare_eq_iff in E1, E2.
  destruct a, b; cbn in *; congruence.
Qed.

Lemma pair_ltb_irrefl (a : string * string) : pair_ltb a a = false.
Proof. unfold pair_ltb. now rewrite !string_compare_refl. Qed.

Lemma key_le_trans (a b c : string * string) :
  key_le a b -> key_le b c -> key_le a c.
Proof.
  unfold key_le. intros Hab Hbc.
  destruct (pair_ltb c a) eqn:Hca; [|reflexivity].
  destruct (pair_ltb a b) eqn:Hlt.
  - rewrite (pair_ltb_trans _ _ _ Hca Hlt) in Hbc. discriminate.
  - pose proof (pair_ltb_connex _ _ Hlt Hab) as ->. congruence.
Qed.

Lemma key_lt_le (a b : string * string) : pair_ltb a b = true -> key_le a b.
Proof.
  unfold key_le. intros H. destruct (pair_ltb b a) eqn:E; [|reflexivity].
  pose proof (pair_ltb_trans _ _ _ H E) as T. rewrite pair_ltb_irrefl in T.
  discriminate.
Qed.

Section SortedFacts.

Context {A : Type} (key : A -> string * string).

Local Abbreviation R := (fun a b => key_le (key a) (key b)).

Lemma insert_by_perm (x : A) (l : list A) : Permutation (x :: l) (insert_by key x l).
Proof.
  induction l as [|y l IH]; cbn; [reflexivity|].
  destruct (pair_ltb (key y) (key x)); [|reflexivity].
  rewrite perm_swap. now constructor.
Qed.

Lemma insert_by_sorted (x : A) (l : list A) :
  StronglySorted R l -> StronglySorted R (insert_by key x l).
Proof.
  induction 1 as [|y l Hs IH Hy]; cbn; [repeat constructor|].
  destruct (pair_ltb (key y) (key x)) eqn:E.
  - constructor; [exact IH|].
    apply (Permutation_Forall (insert_by_perm x l)).
    constructor; [now apply key_lt_le | exact Hy].
  - constructor; [now constructor|]. constructor; [exact E|].
    eapply Forall_impl; [|exact Hy]. cbn. intros z Hz.
    eapply key_le_trans; [exact E | exact Hz].
Qed.

(** [sorted] returns the same items, in the order of their keys. *)
Lemma sorted_spec (l : list A) :
  Permutation l (sorted key l) /\ StronglySorted R (sorted key l).
Proof.
  induction l as [|x l [IHp IHs]]; cbn; [split; constructor|]. split.
  - rewrite <- insert_by_perm. now constructor.
  - now apply insert_by_sorted.
Qed.

End SortedFacts.

Section ReportFacts.

Variable lower : string -> string.

(** The per-site listing of every park of the report is sorted by loop name,
    compared in lower case, then by site label. *)
Lemma getOutputData_sites_sorted (info_by_park_id : int_dict park_result)
    (out : list campground_data) :
  getOutputData lower info_by_park_id = Ok out -> Forall (sites_sorted lower) out.
Proof.
  unfold getOutputData. intros H. apply comprehension_Forall2 in H.
  induction H as [|[park_id info] cg l l' Hcg _ IH]; constructor; [|exact IH].
  unfold campground_entry in Hcg. apply bind_Ok in Hcg.
  destruct Hcg as (sites & _ & Hcg). injection Hcg as <-.
  unfold sites_sorted. cbn. apply sorted_spec.
Qed.

(** The parks of the report come in the order of [info_by_park_id]. *)
Lemma getOutputData_order (info_by_park_id : int_dict park_result)
    (out : list campground_data) :
  getOutputData lower info_by_park_id = Ok out ->
  map cg_park_id out = keys info_by_park_id
  /\ map cg_park_name out = map (fun item => park_name (snd item)) info_by_park_id.
Proof.
  unfold getOutputData. intros H. apply comprehension_Forall2 in H.
  induction H as [|[park_id info] cg l l' Hcg _ [IH1 IH2]]; [split; reflexivity|].
  unfold campground_entry in Hcg. apply bind_Ok in Hcg.
  destruct Hcg as (sites & _ & Hcg). injection Hcg as <-.
  cbn. unfold keys in IH1. now rewrite IH1, IH2.
Qed.

End ReportFacts.

(** * More on the range compactor *)

Lemma py_index_cases {A : Type} (l : list A) (i : Z) :
  py_index l i = Raise IndexError \/ exists x, In x l /\ py_index l i = Ok x.
Proof.
  unfold py_index. destruct (_ <? 0); [now left|].
  destruct (nth_error l _) as [x|] eqn:E; [|now left].
  right. exists x. split; [eapply nth_error_In; exact E | reflexivity].
Qed.

Lemma py_index_beyond {A : Type} (l : list A) :
  py_index l (len l) = Raise IndexError.
Proof.
  unfold py_index, len. destruct (Z.ltb_spec (Z.of_nat (length l)) 0); [lia|].
  destruct (Z.ltb_spec (Z.of_nat (length l)) 0); [lia|].
  rewrite Nat2Z.id. now rewrite (proj2 (nth_error_None l (length l)) (le_n _)).
Qed.

(** A loop whose passes either go on or raise [e], and one of which raises
    [e] whatever the state, raises [e]. *)
Lemma for_each_raises {A S : Type} (body : S -> A -> result S) (e : exn)
    (xs : list A) :
  (forall x s, In x xs -> body s x = Raise e \/ exists s', body s x = Ok s') ->
  (exists x, In x xs /\ forall s, body s x = Raise e) ->
  forall s, for_each body xs s = Raise e.
Proof.
  induction xs as [|x xs IH]; intros Hall (x0 & Hin & Hx0) s; [destruct Hin|].
  cbn. destruct Hin as [<-|Hin]; [now rewrite Hx0|].
  destruct (Hall x s (or_introl eq_refl)) as [-> | (s' & ->)]; [reflexivity|].
  cbn. apply IH; [intros; apply Hall; now right | eauto].
Qed.

Lemma comprehension_first_error {A B : Type} (f : A -> result B) (e : exn)
    (xs : list A) (x : A) (ys : list A) :
  (forall a, In a xs -> exists b, f a = Ok b) -> f x = Raise e ->
  comprehension f (xs ++ x :: ys) = Raise e.
Proof.
  intros Hxs Hx. induction xs as [|a xs IH]; cbn.
  - now rewrite Hx.
  - destruct (Hxs a (or_introl eq_refl)) as (b & ->). cbn.
    rewrite IH; [reflexivity|]. intros; apply Hxs; now right.
Qed.

Lemma Forall2_In_l {A B : Type} (R : A -> B -> Prop) (xs : list A) (ys : list B)
    (x : A) :
  Forall2 R xs ys -> In x xs -> exists y, In y ys /\ R x y.
Proof.
  induction 1 as [|x' y xs ys Hxy _ IH]; intros Hx; [destruct Hx|].
  destruct Hx as [->|Hx]; [exists y; split; [now left | exact Hxy]|].
  destruct (IH Hx) as (y' & Hy' & HR). exists y'. split; [now right | exact HR].
Qed.

Lemma in_consecutive_range (ords g : list Z) (x : Z) :
  In g (consecutive_ranges ords) -> In x g -> In x ords.
Proof.
  intros Hg Hx. destruct (consecutive_ranges_maximal ords) as (<- & _ & _).
  apply in_concat. eauto.
Qed.

(** Windows of [nights + 1] days contain windows of [nights] days. *)
Lemma windows_of_shorter (nights : Z) (ords : list Z) (s : Z) :
  1 <= nights ->
  In (s, s + (nights + 1)) (windows_of (nights + 1) ords) ->
  In (s, s + nights) (windows_of nights ords)
  /\ In (s + 1, s + 1 + nights) (windows_of nights ords).
Proof.
  intros Hn H. unfold windows_of in *. apply in_flat_map in H.
  destruct H as (g & Hg & Hw). unfold windows_of_run in Hw.
  apply in_sliding_windows in Hw. destruct Hw as (i & Hi & E & _).
  split; apply in_flat_map; exists g; (split; [exact Hg|]);
    unfold windows_of_run; apply in_sliding_windows.
  - exists i. repeat split; lia.
  - exists (i + 1). repeat split; lia.
Qed.

(** In a strictly ascending list, the day after a member of a group is, when
    it is in the list at all, in the same group. *)
Lemma next_day_same_group (ords g : list Z) (x : Z) :
  strictly_ascending ords ->
  In g (consecutive_ranges ords) -> In x g -> In (x + 1) ords -> In (x + 1) g.
Proof.
  intros Hs Hg Hx Hx1.
  destruct (consecutive_ranges_maximal ords) as (Hc & Hr & Hsep).
  rewrite <- Hc in Hs, Hx1. apply in_concat in Hx1. destruct Hx1 as (g' & Hg' & Hx').
  pose proof (runs_apart _ Hr Hsep Hs) as A.
  rewrite Forall_forall in Hr.
  destruct (is_run_inv g (Hr g Hg)) as (a & L & E & Eh).
  destruct (is_run_inv g' (Hr g' Hg')) as (a' & L' & E' & Eh').
  assert (Hl : last g 0 = a + Z.of_nat L) by (rewrite E; apply run_from_last).
  assert (Hl' : last g' 0 = a' + Z.of_nat L') by (rewrite E'; apply run_from_last).
  assert (Bx : a <= x < a + Z.of_nat (S L)) by (apply in_run_from; now rewrite <- E).
  assert (Bx' : a' <= x + 1 < a' + Z.of_nat (S L'))
    by (apply in_run_from; now rewrite <- E').
  destruct (ForallOrdPairs_In A g g' Hg Hg') as [->|[H|H]]; [exact Hx'| |];
    rewrite ?Hl, ?Hl', ?Eh, ?Eh' in H; lia.
Qed.

Lemma stretch_in_one_group (ords : list Z) (s : Z) (n : nat) :
  strictly_ascending ords ->
  (forall k, 0 <= k <= Z.of_nat n -> In (s + k) ords) ->
  exists g, In g (consecutive_ranges ords)
    /\ forall k, 0 <= k <= Z.of_nat n -> In (s + k) g.
Proof.
  intros Hs. induction n as [|n IH]; intros H.
  - destruct (consecutive_ranges_maximal ords) as (Hc & _ & _).
    pose proof (H 0 ltac:(lia)) as H0. rewrite <- Hc in H0.
    apply in_concat in H0. destruct H0 as (g & Hg & Hx). exists g.
    split; [exact Hg|]. intros k Hk. replace k with 0 by lia. exact Hx.
  - destruct IH as (g & Hg & Hin); [intros; apply H; lia|].
    exists g. split; [exact Hg|]. intros k Hk.
    destruct (Z.eq_dec k (Z.of_nat (S n))) as [->|N]; [|apply Hin; lia].
    replace (s + Z.of_nat (S n)) with (s + Z.of_nat n + 1) by lia.
    apply (next_day_same_group ords g); [exact Hs | exact Hg | apply Hin; lia |].
    replace (s + Z.of_nat n + 1) with (s + Z.of_nat (S n)) by lia. apply H. lia.
Qed.

(** On a strictly ascending list the windows are exactly the stretches of
    [nights] days that are all in the list. *)
Lemma windows_of_complete (nights : Z) (ords : list Z) (s e : Z) :
  1 <= nights -> strictly_ascending ords ->
  In (s, e) (windows_of nights ords) <->
  e = s + nights /\ forall k, 0 <= k < nights -> In (s + k) ords.
Proof.
  intros Hn Hs. split; [now apply in_windows_of|]. intros [-> H].
  destruct (stretch_in_one_group ords s (Z.to_nat (nights - 1)) Hs) as (g & Hg & Hin).
  { intros k Hk. apply H. lia. }
  destruct (consecutive_ranges_maximal ords) as (_ & Hr & _).
  rewrite Forall_forall in Hr. destruct (is_run_inv g (Hr g Hg)) as (a & L & E & Eh).
  pose proof (Hin 0 ltac:(lia)) as H0. pose proof (Hin (nights - 1) ltac:(lia)) as H1.
  rewrite E in H0, H1. apply in_run_from in H0, H1.
  unfold windows_of. apply in_flat_map. exists g. split; [exact Hg|].
  unfold windows_of_run. rewrite Eh. apply in_sliding_windows.
  exists (s - a). unfold len. rewrite E, run_from_length. repeat split; lia.
Qed.

Lemma windows_of_one_night (ords : list Z) :
  windows_of 1 ords = map (fun o => (o, o + 1)) ords.
Proof.
  destruct (consecutive_ranges_maximal ords) as (Hc & Hr & _).
  unfold windows_of. rewrite <- Hc at 2. rewrite concat_map, flat_map_concat_map.
  f_equal. apply map_ext_in. intros g Hg. rewrite Forall_forall in Hr.
  destruct (is_run_inv g (Hr g Hg)) as (a & L & E & Eh).
  unfold windows_of_run, sliding_windows, len. rewrite Eh, E, run_from_length.
  destruct (Z.ltb_spec (Z.of_nat (S L)) 1); [lia|].
  unfold py_range, run_from. rewrite !map_map.
  replace (Z.to_nat (Z.of_nat (S L) - 1 + 1 - 0)) with (S L) by lia.
  apply map_ext. intros i. f_equal; lia.
Qed.

Section CompactorMore.

Variable strptime : string -> DateFormat -> result date.
Variable format_date : date -> DateFormat -> string.

Local Abbreviation ordinal_of' := (ordinal_of strptime).
Local Abbreviation consecutive_nights' := (consecutive_nights strptime format_date).
Local Abbreviation emit_window' := (emit_window format_date).
Local Abbreviation format_window' := (format_window format_date).

Lemma emit_window_cases (nights : Z) (g : list Z) (acc : list (string * string))
    (i : Z) :
  Forall (fun o => 1 <= o < MAXORDINAL) g ->
  emit_window' nights g acc i = Raise IndexError
  \/ exists acc', emit_window' nights g acc i = Ok acc'.
Proof.
  intros Hr. rewrite Forall_forall in Hr. unfold emit_window.
  destruct (py_index_cases g i) as [-> | (x & Hx & ->)]; [now left|]. cbn [bind].
  destruct (fromordinal_in_range x) as (-> & _); [specialize (Hr x Hx); lia|].
  cbn [bind].
  destruct (py_index_cases g (i + nights - 1)) as [-> | (y & Hy & ->)]; [now left|].
  cbn [bind].
  destruct (fromordinal_in_range (y + 1)) as (-> & _); [specialize (Hr y Hy); lia|].
  right. eexists. reflexivity.
Qed.

(** X1. With [nights <= 0] the compactor returns the empty list on an empty
    input and raises [IndexError] on every other input: the index loop runs
    past the end of the first group. *)
Theorem nonpositive_nights_raise (available : list string) (nights : Z)
    (ords : list Z) :
  nights <= 0 ->
  comprehension ordinal_of' available = Ok ords ->
  Forall (fun o => 1 <= o < MAXORDINAL) ords ->
  consecutive_nights' available nights
  = match ords with
    | [] => Ok []
    | _ => Raise IndexError
    end.
Proof.
  intros Hn Hp Hr. unfold consecutive_nights. rewrite Hp. cbn [bind].
  destruct ords as [|o ords]; [reflexivity|].
  destruct (consecutive_ranges_maximal (o :: ords)) as (Hc & Hrun & _).
  destruct (consecutive_ranges (o :: ords)) as [|g gs] eqn:E; [discriminate Hc|].
  cbn [for_each].
  assert (Hg : Forall (fun x => 1 <= x < MAXORDINAL) g).
  { rewrite Forall_forall in *. intros x Hx. apply Hr.
    apply (in_consecutive_range _ g); [rewrite E; now left | exact Hx]. }
  assert (Hlen : 1 <= len g).
  { inversion Hrun as [|? ? [Hne _] _]; subst. unfold len.
    destruct g; [congruence | cbn; lia]. }
  assert (R : emit_range format_date nights [] g = Raise IndexError).
  { unfold emit_range. destruct (Z.ltb_spec (len g) nights); [lia|].
    apply for_each_raises.
    - intros i acc _. now apply emit_window_cases.
    - exists (len g). split; [apply in_py_range; lia|].
      intros acc. unfold emit_window. now rewrite py_index_beyond. }
  now rewrite R.
Qed.

(** X2. A date string that [strptime] rejects makes the compactor raise that
    error, whatever [nights] is and whatever follows in the list. *)
Theorem unparseable_date_raises (xs : list string) (x : string) (ys : list string)
    (nights : Z) (e : exn) :
  (forall a, In a xs -> exists d, strptime a ISO_DATE_FORMAT_RESPONSE = Ok d) ->
  strptime x ISO_DATE_FORMAT_RESPONSE = Raise e ->
  consecutive_nights' (xs ++ x :: ys) nights = Raise e.
Proof.
  intros Hxs Hx. unfold consecutive_nights.
  rewrite (comprehension_first_error _ e); [reflexivity| |].
  - intros a Ha. destruct (Hxs a Ha) as (d & Hd). unfold ordinal_of.
    rewrite Hd. cbn. eauto.
  - unfold ordinal_of. now rewrite Hx.
Qed.

(** X3. Asking for one night more never brings a new arrival date: every
    start date returned for [nights + 1] is a start date returned for
    [nights]. *)
Theorem more_nights_fewer_starts (available : list string) (nights : Z)
    (out out' : list (string * string)) :
  1 <= nights ->
  consecutive_nights strptime format_date available nights = Ok out ->
  consecutive_nights strptime format_date available (nights + 1) = Ok out' ->
  forall start_nice end_nice', In (start_nice, end_nice') out' ->
  exists end_nice, In (start_nice, end_nice) out.
Proof.
  intros Hn H H' sn en' Hin.
  rewrite consecutive_nights_windows in H, H' by lia.
  apply bind_Ok in H. destruct H as (ords & Hp & H).
  apply bind_Ok in H'. destruct H' as (ords' & Hp' & H').
  assert (ords' = ords) by congruence. subst ords'.
  apply comprehension_Forall2 in H, H'.
  destruct (Forall2_In_r _ _ _ _ H' Hin) as ([s e] & Hw & He).
  assert (Hn1 : 1 <= nights + 1) by lia.
  destruct (in_windows_of _ _ _ _ Hn1 Hw) as (-> & _).
  destruct (windows_of_shorter _ _ _ Hn Hw) as [Hs _].
  destruct (Forall2_In_l _ _ _ _ H Hs) as ([sn0 en0] & Hy & Hy').
  unfold emit_one in He, Hy'. cbn [fst snd] in *.
  destruct (fromordinal s) as [ds|]; cbn [bind] in *; [|discriminate].
  destruct (fromordinal (s + (nights + 1))); cbn [bind] in *; [|discriminate].
  destruct (fromordinal (s + nights)); cbn [bind] in *; [|discriminate].
  injection He as <- _. injection Hy' as <- _. eauto.
Qed.

(** X4. On a list in strictly ascending date order the compactor misses no
    window: its ranges are exactly the stretches of [nights] consecutive days
    that are all in the list. *)
Theorem every_full_stretch_is_emitted (available : list string) (nights : Z)
    (ords : list Z) :
  1 <= nights ->
  comprehension ordinal_of' available = Ok ords ->
  Forall (fun o => 1 <= o < MAXORDINAL) ords ->
  strictly_ascending ords ->
  consecutive_nights' available nights
  = Ok (map format_window' (windows_of nights ords))
  /\ forall s e,
       In (s, e) (windows_of nights ords) <->
       e = s + nights /\ forall k, 0 <= k < nights -> In (s + k) ords.
Proof.
  intros Hn Hp Hr Hs. split; [exact (consecutive_nights_total _ _ _ _ _ Hn Hp Hr)|].
  intros s e. now apply windows_of_complete.
Qed.

(** X5. With [nights = 1] the compactor returns one range per date of the
    list, in the order of the list and with its duplicates: the day and the
    day after. *)
Theorem one_night_one_range_per_date (available : list string) (ords : list Z) :
  comprehension ordinal_of' available = Ok ords ->
  Forall (fun o => 1 <= o < MAXORDINAL) ords ->
  consecutive_nights' available 1
  = Ok (map (fun o => format_window' (o, o + 1)) ords).
Proof.
  intros Hp Hr.
  assert (H1 : 1 <= 1) by lia.
  rewrite (consecutive_nights_total _ _ _ _ _ H1 Hp Hr).
  now rewrite windows_of_one_night, map_map.
Qed.

(** X6. The start of every emitted range is the date of a string of the
    list, printed in the output format, and its checkout is the day after the
    date of a string of the list [nights - 1] days later: the way through the
    ordinals loses nothing. *)
Theorem emitted_start_is_input_date (available : list string) (nights : Z)
    (out : list (string * string)) :
  1 <= nights ->
  (forall dstr d, In dstr available ->
     strptime dstr ISO_DATE_FORMAT_RESPONSE = Ok d -> valid_date d) ->
  consecutive_nights' available nights = Ok out ->
  forall start_nice end_nice, In (start_nice, end_nice) out ->
  exists dstr d dstr' d' de,
    In dstr available /\ strptime dstr ISO_DATE_FORMAT_RESPONSE = Ok d
    /\ start_nice = format_date d INPUT_DATE_FORMAT
    /\ In dstr' available /\ strptime dstr' ISO_DATE_FORMAT_RESPONSE = Ok d'
    /\ days_between d d' = nights - 1
    /\ valid_date de /\ days_between d' de = 1
    /\ end_nice = format_date de INPUT_DATE_FORMAT.
Proof.
  intros Hn Hv Hout sn en Hin.
  destruct (ranges_inside_available _ _ _ _ _ Hn Hv Hout _ _ Hin)
    as (ds & de & Vs & Ve & -> & -> & Hd & Hdays).
  destruct (Hdays 0 ltac:(lia)) as (dstr & d & I & P & V & T).
  destruct (Hdays (nights - 1) ltac:(lia)) as (dstr' & d' & I' & P' & V' & T').
  unfold days_between in *.
  assert (d = ds) by (apply toordinal_inj; [assumption..|lia]). subst d.
  exists dstr, ds, dstr', d', de.
  repeat (split; [assumption || reflexivity || lia|]). reflexivity.
Qed.

End CompactorMore.

(** * The order of the input and of the output *)

Lemma StronglySorted_weaken {A : Type} (R Q : A -> A -> Prop) (l : list A) :
  (forall a b, R a b -> Q a b) -> StronglySorted R l -> StronglySorted Q l.
Proof.
  intros H. induction 1 as [|x l _ IH Hx]; constructor; [exact IH|].
  eapply Forall_impl; [|exact Hx]. intros b. apply H.
Qed.

Lemma StronglySorted_map_inv {A B : Type} (RA : A -> A -> Prop)
    (RB : B -> B -> Prop) (f : A -> B) (l : list A) :
  (forall a b, RB (f a) (f b) -> RA a b) ->
  StronglySorted RB (map f l) -> StronglySorted RA l.
Proof.
  intros H. induction l as [|x l IH]; intros S; [constructor|].
  cbn in S. inversion S as [|? ? S' Hx]; subst. constructor; [now apply IH|].
  apply Forall_forall. intros b Hb. apply H.
  rewrite Forall_forall in Hx. apply Hx. now apply in_map.
Qed.

(** With repeated dates allowed the windows still come out by ascending
    start. *)
Lemma windows_of_groups_ascending (nights : Z) (gs : list (list Z)) :
  1 <= nights -> Forall is_run gs -> ascending (concat gs) ->
  ascending_starts (flat_map (windows_of_run nights) gs).
Proof.
  intros Hn. induction 1 as [|g gs Hg Hgs IH]; intros Hs; cbn.
  - constructor.
  - cbn in Hs. apply StronglySorted_app_inv in Hs. destruct Hs as (S1 & S2 & S12).
    apply StronglySorted_app.
    + eapply StronglySorted_weaken; [|apply sliding_windows_sorted].
      cbn. intros; lia.
    + apply (IH S2).
    + intros [s1 e1] [s2 e2] H1 H2. cbn.
      destruct (is_run_inv g Hg) as (a & L & Eg & Eh).
      unfold windows_of_run in H1. rewrite Eh in H1.
      apply in_sliding_windows in H1. destruct H1 as (i & Hi & -> & ->).
      unfold len in Hi. rewrite Eg, run_from_length in Hi.
      apply in_flat_map in H2. destruct H2 as (g2 & Hg2 & H2).
      rewrite Forall_forall in Hgs.
      destruct (is_run_inv g2 (Hgs g2 Hg2)) as (a2 & L2 & Eg2 & Eh2).
      unfold windows_of_run in H2. rewrite Eh2 in H2.
      apply in_sliding_windows in H2. destruct H2 as (j & Hj & -> & ->).
      assert (Hle : a + Z.of_nat L <= a2).
      { apply S12.
        - rewrite Eg. apply in_run_from. lia.
        - apply in_concat. exists g2. split; [exact Hg2|].
          rewrite Eg2. apply in_run_from. lia. }
      lia.
Qed.

Lemma windows_of_ascending (nights : Z) (ords : list Z) :
  1 <= nights -> ascending ords -> ascending_starts (windows_of nights ords).
Proof.
  intros Hn Hs. destruct (consecutive_ranges_maximal ords) as (Hc & Hr & _).
  apply windows_of_groups_ascending; [exact Hn | exact Hr | now rewrite Hc].
Qed.

(** Windows of the same length overlap when their starts are less than that
    length apart. *)
Lemma overlap_by_starts (nights : Z) (w1 w2 : Z * Z) :
  snd w1 = fst w1 + nights -> snd w2 = fst w2 + nights ->
  overlap w1 w2 <-> Z.abs (fst w1 - fst w2) < nights.
Proof. unfold overlap. intros -> ->. lia. Qed.

(** ** The sorted duplicate-free list *)

Lemma insert_uniq_map {A : Type} (key : A -> Z) (x : A) (l : list A) :
  map key (insert_uniq key x l) = insert_uniq (fun o => o) (key x) (map key l).
Proof.
  induction l as [|y l IH]; [reflexivity|]. cbn.
  destruct (key x <? key y); [reflexivity|].
  destruct (key x =? key y); [reflexivity|]. cbn. now rewrite IH.
Qed.

Lemma sort_uniq_map {A : Type} (key : A -> Z) (l : list A) :
  map key (sort_uniq key l) = sort_uniq (fun o => o) (map key l).
Proof.
  unfold sort_uniq. induction l as [|x l IH]; [reflexivity|]. cbn [fold_right map].
  now rewrite insert_uniq_map, IH.
Qed.

Lemma insert_uniq_In {A : Type} (key : A -> Z) (x y : A) (l : list A) :
  In y (insert_uniq key x l) -> y = x \/ In y l.
Proof.
  induction l as [|z l IH]; cbn.
  - intros [<-|[]]. now left.
  - destruct (key x <? key z); [cbn; intuition|].
    destruct (key x =? key z); [cbn; intuition|].
    cbn. intros [<-|H]; [right; now left|]. destruct (IH H); auto.
Qed.

Lemma sort_uniq_In {A : Type} (key : A -> Z) (y : A) (l : list A) :
  In y (sort_uniq key l) -> In y l.
Proof.
  unfold sort_uniq. induction l as [|x l IH]; cbn [fold_right]; [auto|].
  intros H. apply insert_uniq_In in H. destruct H as [->|H]; [now left|].
  right. now apply IH.
Qed.

Lemma insert_uniq_ascending (x : Z) (l : list Z) :
  strictly_ascending l -> strictly_ascending (insert_uniq (fun o => o) x l).
Proof.
  unfold strictly_ascending. induction 1 as [|y l S IH Hy]; cbn.
  - repeat constructor.
  - destruct (Z.ltb_spec x y).
    + constructor; [now constructor|]. constructor; [exact H|].
      eapply Forall_impl; [|exact Hy]. cbn. intros; lia.
    + destruct (Z.eqb_spec x y); [now constructor|].
      constructor; [exact IH|]. apply Forall_forall. intros z Hz.
      apply insert_uniq_In in Hz. destruct Hz as [->|Hz]; [lia|].
      rewrite Forall_forall in Hy. now apply Hy.
Qed.

(** The sorted duplicate-free list is strictly ascending. *)
Lemma sort_uniq_ascending (l : list Z) :
  strictly_ascending (sort_uniq (fun o => o) l).
Proof.
  unfold sort_uniq. induction l as [|x l IH]; cbn [fold_right].
  - constructor.
  - now apply insert_uniq_ascending.
Qed.

Lemma map_window_inj (l l' : list Z) :
  map (fun o => (o, o + 1)) l = map (fun o => (o, o + 1)) l' -> l = l'.
Proof.
  revert l'. induction l as [|x l IH]; intros [|y l'] H; try discriminate;
    [reflexivity|].
  cbn in H. injection H as -> H. f_equal. now apply IH.
Qed.

(** With one night the windows of a list are those of its sorted
    duplicate-free version only when the list is that version. *)
Lemma one_night_sorted_iff (ords : list Z) :
  windows_of 1 ords = windows_of 1 (sort_uniq (fun o => o) ords)
  <-> strictly_ascending ords.
Proof.
  rewrite !windows_of_one_night. split.
  - intros H. apply map_window_inj in H. rewrite H. apply sort_uniq_ascending.
  - intros H. rewrite sort_uniq_sorted; [reflexivity|]. now rewrite map_id.
Qed.

Section CompactorOrder.

Variable strptime : string -> DateFormat -> result date.
Variable format_date : date -> DateFormat -> string.

Local Abbreviation ordinal_of' := (ordinal_of strptime).
Local Abbreviation consecutive_nights' := (consecutive_nights strptime format_date).
Local Abbreviation format_window' := (format_window format_date).

Lemma keyed_Ok (available : list string) (ords : list Z) :
  comprehension ordinal_of' available = Ok ords ->
  comprehension (fun dstr => o <- ordinal_of' dstr ;; Ok (o, dstr)) available
  = Ok (combine ords available)
  /\ map fst (combine ords available) = ords
  /\ Forall (fun p => ordinal_of' (snd p) = Ok (fst p)) (combine ords available).
Proof.
  revert ords. induction available as [|x xs IH]; intros ords Hp.
  - cbn in Hp. injection Hp as <-. repeat split. constructor.
  - cbn in Hp |- *. destruct (ordinal_of' x) as [o|] eqn:Ex; cbn in *; [|discriminate].
    destruct (comprehension ordinal_of' xs) as [os|]; cbn in *; [|discriminate].
    injection Hp as <-. destruct (IH os eq_refl) as (K & M & F).
    rewrite K. cbn. repeat split; [now rewrite M|]. constructor; [exact Ex | exact F].
Qed.

(** The sorted duplicate-free version of a list of date strings parses to
    the sorted duplicate-free list of its ordinals. *)
Lemma sorted_available_ordinals (available : list string) (ords : list Z) :
  comprehension ordinal_of' available = Ok ords ->
  exists sa,
    sorted_available strptime available = Ok sa
    /\ comprehension ordinal_of' sa = Ok (sort_uniq (fun o => o) ords).
Proof.
  intros Hp. destruct (keyed_Ok _ _ Hp) as (K & M & F).
  unfold sorted_available. rewrite K. cbn [bind]. eexists. split; [reflexivity|].
  rewrite <- M at 2. rewrite <- sort_uniq_map.
  assert (G : Forall (fun p => ordinal_of' (snd p) = Ok (fst p))
                (sort_uniq fst (combine ords available))).
  { apply Forall_forall. intros p Hin. apply sort_uniq_In in Hin.
    rewrite Forall_forall in F. now apply F. }
  induction G as [|p l Hp' _ IH]; [reflexivity|]. cbn. rewrite Hp'. cbn.
  now rewrite IH.
Qed.

(** C3, amended. The ranges come out by ascending start date whenever the
    dates of the list are in ascending order, repeated dates allowed, and by
    strictly ascending start date when no date is repeated; with one night
    they come out in ascending order only if the list is. They are not
    pairwise non-overlapping: every range spans [nights] days, so two ranges
    share a night exactly when their start dates are less than [nights] days
    apart. For a strictly ascending list the ranges cut from different runs
    share no night, and with one night no two ranges share a night. *)
Theorem C3_ascending_on_sorted_input (available : list string) (nights : Z)
    (ords : list Z) :
  1 <= nights ->
  comprehension ordinal_of' available = Ok ords ->
  Forall (fun o => 1 <= o < MAXORDINAL) ords ->
  consecutive_nights' available nights
  = Ok (map format_window' (windows_of nights ords))
  /\ (forall w, In w (windows_of nights ords) -> snd w = fst w + nights)
  /\ (forall w1 w2,
        In w1 (windows_of nights ords) -> In w2 (windows_of nights ords) ->
        (overlap w1 w2 <-> Z.abs (fst w1 - fst w2) < nights))
  /\ (ascending ords -> ascending_starts (windows_of nights ords))
  /\ (nights = 1 -> ascending_starts (windows_of nights ords) -> ascending ords)
  /\ (strictly_ascending ords ->
        strictly_ascending_starts (windows_of nights ords)
        /\ ForallOrdPairs
             (fun g1 g2 => forall w1 w2,
                In w1 (windows_of_run nights g1) ->
                In w2 (windows_of_run nights g2) ->
                ~ overlap w1 w2)
             (consecutive_ranges ords)
        /\ (nights = 1 -> non_overlapping (windows_of nights ords))).
Proof.
  intros Hn Hp Hr.
  assert (Hw : forall w, In w (windows_of nights ords) -> snd w = fst w + nights).
  { intros [s e] Hw. now destruct (in_windows_of _ _ _ _ Hn Hw) as [-> _]. }
  split; [exact (consecutive_nights_total strptime format_date _ _ _ Hn Hp Hr)|].
  split; [exact Hw|].
  split; [intros w1 w2 H1 H2; apply overlap_by_starts; now apply Hw|].
  split; [now apply windows_of_ascending|].
  split.
  { intros -> S. rewrite windows_of_one_night in S.
    unfold ascending_starts in S. unfold ascending.
    eapply StronglySorted_map_inv; [|exact S]. cbn. intros a b H. exact H. }
  intros Hs. pose proof (windows_of_sorted nights ords Hn Hs) as Sd.
  split; [exact Sd|]. split.
  - eapply ForallOrdPairs_weaken; [|exact (windows_of_groups_apart nights ords Hn Hs)].
    intros g1 g2 H w1 w2 H1 H2 [_ O]. specialize (H w1 w2 H1 H2). lia.
  - intros ->. unfold non_overlapping. revert Hw.
    induction Sd as [|w ws Sws IH Hx]; intros Hw; constructor.
    + rewrite Forall_forall in *. intros b Hb [O1 O2].
      pose proof (Hw w (or_introl eq_refl)). pose proof (Hx b Hb). lia.
    + apply IH. intros b Hb. apply Hw. now right.
Qed.

(** C4, amended. The first step of the compactor converts the date strings to
    ordinals in the order of the list and keeps repeated dates: it neither
    sorts nor collapses them. The output is the formatted windows of the runs
    of the list as it is given, where the output on the sorted duplicate-free
    version is the formatted windows of the runs of the sorted ordinals. With
    one night there is one window per element of the list, in the order of
    the list, and the two window lists agree exactly when the list is already
    in strictly ascending order. A list in strictly ascending order is its
    own sorted duplicate-free version, and the two outputs are equal. *)
Theorem C4_order_is_kept (available : list string) (nights : Z) (ords : list Z) :
  1 <= nights ->
  comprehension ordinal_of' available = Ok ords ->
  Forall (fun o => 1 <= o < MAXORDINAL) ords ->
  consecutive_nights' available nights
  = Ok (map format_window' (windows_of nights ords))
  /\ (sa <- sorted_available strptime available ;; consecutive_nights' sa nights)
     = Ok (map format_window' (windows_of nights (sort_uniq (fun o => o) ords)))
  /\ (nights = 1 ->
        windows_of nights ords = map (fun o => (o, o + 1)) ords
        /\ (windows_of nights ords
            = windows_of nights (sort_uniq (fun o => o) ords)
            <-> strictly_ascending ords))
  /\ (strictly_ascending ords ->
        sorted_available strptime available = Ok available
        /\ consecutive_nights' available nights
           = (sa <- sorted_available strptime available ;;
              consecutive_nights' sa nights)).
Proof.
  intros Hn Hp Hr.
  pose proof (consecutive_nights_total strptime format_date _ _ _ Hn Hp Hr) as Hout.
  destruct (sorted_available_ordinals _ _ Hp) as (sa & Hsa & Hpsa).
  assert (Hrs : Forall (fun o => 1 <= o < MAXORDINAL) (sort_uniq (fun o => o) ords)).
  { apply Forall_forall. intros o Ho. apply sort_uniq_In in Ho.
    rewrite Forall_forall in Hr. now apply Hr. }
  assert (Hsorted : (sa <- sorted_available strptime available ;;
                     consecutive_nights' sa nights)
                    = Ok (map format_window'
                            (windows_of nights (sort_uniq (fun o => o) ords)))).
  { rewrite Hsa. cbn [bind].
    exact (consecutive_nights_total strptime format_date _ _ _ Hn Hpsa Hrs). }
  split; [exact Hout|]. split; [exact Hsorted|]. split.
  - intros ->. split; [apply windows_of_one_night | apply one_night_sorted_iff].
  - intros Hs.
    assert (E : sort_uniq (fun o => o) ords = ords)
      by (apply sort_uniq_sorted; now rewrite map_id).
    assert (Ea : sa = available).
    { destruct (keyed_Ok _ _ Hp) as (K & M & _).
      unfold sorted_available in Hsa. rewrite K in Hsa. cbn [bind] in Hsa.
      injection Hsa as <-. rewrite sort_uniq_sorted by (rewrite M; exact Hs).
      assert (L : length ords = length available).
      { apply comprehension_Forall2 in Hp. symmetry. eapply Forall2_length, Hp. }
      clear -L. revert ords L. induction available as [|x xs IH]; intros [|o os] L;
        try discriminate; cbn; [reflexivity|]. f_equal. apply IH. now injection L. }
    subst sa. split; [exact Hsa|]. rewrite Hsorted, Hout, E. reflexivity.
Qed.

End CompactorOrder.

(** * More on the site counter *)

Lemma Ok_inj {A : Type} (a b : A) : Ok a = Ok b -> a = b.
Proof. intros H. now injection H. Qed.

Lemma desired_available_nil (av : list string) : desired_available [] av = [].
Proof. unfold desired_available. induction av as [|x av IH]; cbn; auto. Qed.

Lemma desired_available_idem (W av : list string) :
  desired_available W (desired_available W av) = desired_available W av.
Proof.
  unfold desired_available. induction av as [|x av IH]; cbn; [reflexivity|].
  destruct (existsb (String.eqb x) W) eqn:E; cbn; [|exact IH].
  now rewrite E, IH.
Qed.

Lemma append_at_keys_eq {V : Type} (m : int_dict (list V)) (k : Z) (x : V) :
  keys (append_at m k x)
  = if existsb (Z.eqb k) (keys m) then keys m else keys m ++ [k].
Proof.
  unfold keys. induction m as [|[k0 v] m IH].
  - rewrite append_at_nil. reflexivity.
  - rewrite append_at_cons. cbn. destruct (k =? k0); cbn; [reflexivity|].
    rewrite IH. now destruct (existsb (Z.eqb k) (map fst m)).
Qed.

Lemma append_at_NoDup {V : Type} (m : int_dict (list V)) (k : Z) (x : V) :
  NoDup (keys m) ->
  NoDup (keys (append_at m k x)) /\ len (append_at m k x) <= len m + 1
  /\ (In k (keys m) -> len (append_at m k x) = len m).
Proof.
  intros H. assert (L : forall d : int_dict (list V), len d = len (keys d))
    by (intros; unfold len, keys; now rewrite length_map).
  rewrite !L, append_at_keys_eq.
  destruct (existsb (Z.eqb k) (keys m)) eqn:E.
  - repeat split; [exact H | lia].
  - split; [|split].
    + apply NoDup_app; [exact H | repeat constructor; intros [] |].
      intros a Ha [E'|[]]. subst a.
      assert (existsb (Z.eqb k) (keys m) = true); [|congruence].
      apply existsb_exists. exists k. split; [exact Ha | apply Z.eqb_refl].
    + unfold len. rewrite length_app. cbn. lia.
    + intros Hk. assert (existsb (Z.eqb k) (keys m) = true); [|congruence].
      apply existsb_exists. exists k. split; [exact Hk | apply Z.eqb_refl].
Qed.

Lemma record_all_NoDup (k : Z) (rs : list (string * string)) :
  forall m, NoDup (keys m) ->
    NoDup (keys (record_all k rs m))
    /\ len (record_all k rs m) <= len m + (if has_ranges rs then 1 else 0).
Proof.
  unfold record_all. induction rs as [|r rs IH]; intros m H; cbn [fold_left has_ranges].
  - split; [exact H | lia].
  - destruct (append_at_NoDup m k (mkrange (fst r) (snd r)) H) as (N1 & L1 & _).
    destruct (IH _ N1) as [N2 L2]. split; [exact N2|].
    destruct rs as [|r' rs]; [cbn in *; lia|].
    cbn [has_ranges] in L2.
    (* the key is present after the first append *)
    assert (Hin : In k (keys (append_at m k (mkrange (fst r) (snd r)))))
      by (apply append_at_keys; now right).
    cbn [fold_left] in *.
    destruct (append_at_NoDup _ k (mkrange (fst r') (snd r')) N1) as (N3 & _ & E3).
    specialize (E3 Hin).
    clear L2.
    assert (G : forall rs m', NoDup (keys m') -> In k (keys m') ->
      len (fold_left (fun m0 r0 => append_at m0 k (mkrange (fst r0) (snd r0))) rs m')
      = len m').
    { clear. induction rs as [|r rs IH]; intros m' N Hk; [reflexivity|].
      cbn [fold_left]. destruct (append_at_NoDup m' k (mkrange (fst r) (snd r)) N)
        as (N' & _ & E'). rewrite IH; [now apply E' | exact N' |].
      apply append_at_keys. now left. }
    rewrite G; [lia | exact N3 | apply append_at_keys; now left].
Qed.

Section CounterMore.

Variable strptime : string -> DateFormat -> result date.
Variable format_date : date -> DateFormat -> string.
Variable int_of_str : string -> result Z.

Local Abbreviation consecutive_nights' := (consecutive_nights strptime format_date).
Local Abbreviation count_site' := (count_site strptime format_date int_of_str).
Local Abbreviation window_dates' := (window_dates format_date).
Local Abbreviation get_num_available_sites' :=
  (get_num_available_sites strptime format_date int_of_str).
Local Abbreviation parses_back' := (parses_back strptime format_date).

(** X7. When [end_date] is not after [start_date] the window is empty: the
    counter raises nothing and reports no available site, whatever the dates
    of the sites and whatever [nights] are. *)
Theorem empty_window_counts_nothing (pi : dict (list string))
    (start_date end_date : date) (nights : option Z) :
  days_between start_date end_date <= 0 ->
  get_num_available_sites' pi start_date end_date nights = Ok (0, len pi, []).
Proof.
  intros H. unfold get_num_available_sites, window_dates, py_range.
  replace (Z.to_nat (days_between start_date end_date + 1 - 1)) with 0%nat by lia.
  cbn [seq map comprehension bind].
  assert (L : forall n st, for_each (count_site' n []) pi st = Ok st).
  { intros n. induction pi as [|[site av] pi' IH]; intros st; [reflexivity|].
    cbn [for_each]. unfold count_site at 1. destruct st as [c m].
    rewrite desired_available_nil. cbn [bind]. apply IH. }
  now rewrite L.
Qed.

Lemma count_sites_NoDup (nights : Z) (W : list string) (pi : dict (list string)) :
  forall c0 m0 c m,
    for_each (count_site' nights W) pi (c0, m0) = Ok (c, m) ->
    NoDup (keys m0) ->
    NoDup (keys m) /\ c0 <= c <= c0 + len pi /\ len m - len m0 <= c - c0.
Proof.
  induction pi as [|[site av] pi IH]; intros c0 m0 c m H N.
  - cbn in H. injection H as <- <-. unfold len; cbn. repeat split; [exact N | lia..].
  - cbn [for_each] in H. rewrite count_site_eq in H.
    apply bind_Ok in H. destruct H as ([c1 m1] & H1 & H).
    apply bind_Ok in H1. destruct H1 as (rs & _ & H1).
    apply bind_Ok in H1. destruct H1 as (m1' & Hrec & H1). injection H1 as <- <-.
    rewrite record_loop in Hrec.
    assert (S1 : NoDup (keys m1')
                 /\ len m1' <= len m0 + (if has_ranges rs then 1 else 0)).
    { destruct rs as [|r rs]; [injection Hrec as <-; split; [exact N | cbn; lia]|].
      apply bind_Ok in Hrec. destruct Hrec as (k & _ & Hrec).
      apply Ok_inj in Hrec. subst m1'. now apply record_all_NoDup. }
    destruct S1 as [N1 L1]. destruct (IH _ _ _ _ H N1) as (N2 & C2 & L2).
    split; [exact N2|].
    assert (len ((site, av) :: pi) = len pi + 1) by (unfold len; cbn; lia).
    destruct (has_ranges rs); lia.
Qed.

(** The counts of the site counter, and the keys of its mapping. *)
Lemma count_bounds (pi : dict (list string)) (start_date end_date : date)
    (nights : option Z) (cur mx : Z) (by_id : int_dict (list date_range)) :
  get_num_available_sites' pi start_date end_date nights = Ok (cur, mx, by_id) ->
  0 <= cur <= mx /\ NoDup (keys by_id) /\ len by_id <= cur.
Proof.
  intros H. apply get_num_available_sites_Ok in H. destruct H as (W & _ & Hc & ->).
  destruct (count_sites_NoDup _ _ _ _ _ _ _ Hc (NoDup_nil _)) as (N & C & L).
  change (len (@nil (Z * list date_range))) with 0 in L. repeat split; try lia.
  exact N.
Qed.

(** X8. The counts are consistent: [0 <= current <= maximum], the returned
    mapping has distinct keys and at most [current] of them. *)
Theorem counts_are_consistent (pi : dict (list string)) (start_date end_date : date)
    (nights : option Z) (cur mx : Z) (by_id : int_dict (list date_range)) :
  get_num_available_sites' pi start_date end_date nights = Ok (cur, mx, by_id) ->
  0 <= cur <= mx /\ NoDup (keys by_id) /\ len by_id <= cur.
Proof. apply count_bounds. Qed.

(** Every recorded range lies in the window and spans the effective number of
    nights. *)
Lemma recorded_range_in_window (pi : dict (list string)) (start_date end_date : date)
    (nights : option Z) (cur mx : Z) (by_id : int_dict (list date_range)) :
  valid_date start_date -> valid_date end_date -> parses_back' ->
  get_num_available_sites' pi start_date end_date nights = Ok (cur, mx, by_id) ->
  forall k rs r, In (k, rs) by_id -> In r rs ->
  exists ds de,
    valid_date ds /\ valid_date de
    /\ range_start r = format_date ds INPUT_DATE_FORMAT
    /\ range_end r = format_date de INPUT_DATE_FORMAT
    /\ toordinal start_date <= toordinal ds
    /\ toordinal de <= toordinal end_date
    /\ days_between ds de
       = effective_nights nights (days_between start_date end_date).
Proof.
  intros Vs Ve Hpf H k rs r Hin Hr. apply get_num_available_sites_Ok in H.
  destruct H as (W & HW & Hc & _).
  rewrite (window_dates_spec _ _ _ Vs Ve) in HW. injection HW as <-.
  destruct (count_sites_spec _ _ _ _ _ _ _ _ _ _ Hc) as (rss & F & _ & _ & Hp & _).
  destruct (Hp _ _ _ Hin Hr) as [(rs0 & [] & _)|(site & av & out & Hi & Hk & Ho)].
  assert (Hout : consecutive_nights'
                   (desired_available
                      (map (fun d => format_date d ISO_DATE_FORMAT_RESPONSE)
                         (window_days start_date end_date)) av)
                   (effective_nights nights (days_between start_date end_date))
                 = Ok out).
  { clear -F Hi. revert rss F Hi. induction pi as [|p pi IH]; intros rss F Hi;
      inversion F; subst; cbn in Hi; [destruct Hi|].
    destruct Hi as [E|Hi]; [injection E as -> ->; assumption | eauto]. }
  assert (Hne : desired_available
                  (map (fun d => format_date d ISO_DATE_FORMAT_RESPONSE)
                     (window_days start_date end_date)) av <> []).
  { intros E. rewrite E in Hout. cbn in Hout. injection Hout as <-. destruct Ho. }
  pose proof (window_nights _ _ _ _ Vs Ve Hpf nights av Hne) as Hn.
  assert (Hv : forall dstr d,
             In dstr (desired_available
                        (map (fun d => format_date d ISO_DATE_FORMAT_RESPONSE)
                           (window_days start_date end_date)) av) ->
             strptime dstr ISO_DATE_FORMAT_RESPONSE = Ok d -> valid_date d).
  { intros dstr d I P.
    destruct (desired_in_window _ _ _ _ Vs Ve Hpf av dstr I)
      as (_ & d' & _ & V & P' & _).
    congruence. }
  destruct (ranges_inside_available strptime format_date _ _ _ (proj1 Hn) Hv
              Hout _ _ Ho)
    as (ds & de & Vds & Vde & Es & Ee & Hd & Hdays).
  exists ds, de. repeat (split; [assumption|]).
  destruct (Hdays 0 ltac:(lia)) as (x0 & d0 & I0 & P0 & _ & T0).
  destruct (Hdays (effective_nights nights (days_between start_date end_date) - 1)
              ltac:(lia)) as (x1 & d1 & I1 & P1 & _ & T1).
  destruct (desired_in_window _ _ _ _ Vs Ve Hpf av x0 I0)
    as (_ & d0' & _ & _ & P0' & R0).
  destruct (desired_in_window _ _ _ _ Vs Ve Hpf av x1 I1)
    as (_ & d1' & _ & _ & P1' & R1).
  assert (d0' = d0) by congruence. assert (d1' = d1) by congruence. subst.
  unfold days_between in *. lia.
Qed.

(** With the full window as the number of nights, a recorded range can only
    be the window itself. *)
Lemma full_window_ranges (pi : dict (list string))
    (start_date end_date : date) (nights : option Z) (cur mx : Z)
    (by_id : int_dict (list date_range)) :
  valid_date start_date -> valid_date end_date -> parses_back' ->
  ~ nights_in_window nights (days_between start_date end_date) ->
  get_num_available_sites' pi start_date end_date nights = Ok (cur, mx, by_id) ->
  forall k rs r, In (k, rs) by_id -> In r rs ->
    r = mkrange (format_date start_date INPUT_DATE_FORMAT)
          (format_date end_date INPUT_DATE_FORMAT).
Proof.
  intros Vs Ve Hpf Hout H k rs r Hin Hr.
  destruct (recorded_range_in_window _ _ _ _ _ _ _ Vs Ve Hpf H _ _ _ Hin Hr)
    as (ds & de & Vds & Vde & Es & Ee & Ls & Le & Hd).
  assert (En : effective_nights nights (days_between start_date end_date)
               = days_between start_date end_date).
  { unfold effective_nights. destruct nights as [n|]; [|reflexivity].
    destruct (Z.leb_spec 1 n), (Z.ltb_spec n (days_between start_date end_date + 1));
      cbn; try reflexivity.
    exfalso. apply Hout. exists n. split; [reflexivity | lia]. }
  rewrite En in Hd. unfold days_between in Hd.
  assert (ds = start_date) by (apply toordinal_inj; [assumption..|lia]).
  assert (de = end_date) by (apply toordinal_inj; [assumption..|lia]).
  subst. destruct r as [a b]. cbn in *. now subst.
Qed.

(** With the full window as the number of nights, a site gets ranges only
    when its list holds every day of the window. *)
Lemma full_window_site (pi : dict (list string))
    (start_date end_date : date) (nights : option Z) (cur mx : Z)
    (by_id : int_dict (list date_range)) :
  valid_date start_date -> valid_date end_date -> parses_back' ->
  ~ nights_in_window nights (days_between start_date end_date) ->
  get_num_available_sites' pi start_date end_date nights = Ok (cur, mx, by_id) ->
  forall k, In k (keys by_id) ->
  exists site av,
    In (site, av) pi /\ int_of_str site = Ok k
    /\ forall d, valid_date d ->
         toordinal start_date <= toordinal d < toordinal end_date ->
         In (format_date d ISO_DATE_FORMAT_RESPONSE) av.
Proof.
  intros Vs Ve Hpf Hout H k Hk.
  assert (En : effective_nights nights (days_between start_date end_date)
               = days_between start_date end_date).
  { unfold effective_nights. destruct nights as [n|]; [|reflexivity].
    destruct (Z.leb_spec 1 n), (Z.ltb_spec n (days_between start_date end_date + 1));
      cbn; try reflexivity.
    exfalso. apply Hout. exists n. split; [reflexivity | lia]. }
  apply get_num_available_sites_Ok in H. destruct H as (W & HW & Hc & _).
  rewrite (window_dates_spec _ _ _ Vs Ve) in HW. injection HW as <-.
  destruct (count_sites_spec _ _ _ _ _ _ _ _ _ _ Hc) as (rss & F & _ & Hkeys & _ & _).
  apply Hkeys in Hk. destruct Hk as [[]|(site & av & out & Hi & Hne & Hint)].
  exists site, av. split; [exact (in_combine_l _ _ _ _ Hi)|]. split; [exact Hint|].
  assert (Ho : consecutive_nights'
                 (desired_available
                    (map (fun d => format_date d ISO_DATE_FORMAT_RESPONSE)
                       (window_days start_date end_date)) av)
                 (days_between start_date end_date)
               = Ok out).
  { rewrite <- En. clear -F Hi. revert rss F Hi.
    induction pi as [|p pi IH]; intros rss F Hi;
      inversion F; subst; cbn in Hi; [destruct Hi|].
    destruct Hi as [E|Hi]; [injection E as -> ->; assumption | eauto]. }
  assert (Hd : desired_available
                 (map (fun d => format_date d ISO_DATE_FORMAT_RESPONSE)
                    (window_days start_date end_date)) av <> []).
  { intros E. rewrite E in Ho. cbn in Ho. injection Ho as <-. now apply Hne. }
  pose proof (window_nights _ _ _ _ Vs Ve Hpf nights av Hd) as Hn.
  rewrite En in Hn.
  assert (Hv : forall dstr d,
             In dstr (desired_available
                        (map (fun d => format_date d ISO_DATE_FORMAT_RESPONSE)
                           (window_days start_date end_date)) av) ->
             strptime dstr ISO_DATE_FORMAT_RESPONSE = Ok d -> valid_date d).
  { intros dstr d I P.
    destruct (desired_in_window _ _ _ _ Vs Ve Hpf av dstr I)
      as (_ & d' & _ & V & P' & _).
    congruence. }
  destruct out as [|[sn en] out]; [congruence|].
  destruct (ranges_inside_available strptime format_date _ _ _ (proj1 Hn) Hv
              Ho sn en (or_introl eq_refl))
    as (ds & de & Vds & Vde & _ & _ & Hsp & Hdays).
  assert (Hds : toordinal ds = toordinal start_date).
  { destruct (Hdays 0 ltac:(lia)) as (x0 & d0 & I0 & P0 & _ & T0).
    destruct (Hdays (days_between start_date end_date - 1) ltac:(lia))
      as (x1 & d1 & I1 & P1 & _ & T1).
    destruct (desired_in_window _ _ _ _ Vs Ve Hpf av x0 I0)
      as (_ & d0' & _ & _ & P0' & R0).
    destruct (desired_in_window _ _ _ _ Vs Ve Hpf av x1 I1)
      as (_ & d1' & _ & _ & P1' & R1).
    assert (d0' = d0) by congruence. assert (d1' = d1) by congruence. subst.
    unfold days_between in *. lia. }
  intros d Vd Rd.
  destruct (Hdays (toordinal d - toordinal start_date)
              ltac:(unfold days_between; lia))
    as (x & d1 & Ix & Px & V1 & T1).
  destruct (desired_in_window _ _ _ _ Vs Ve Hpf av x Ix)
    as (Iav & d' & Ex & _ & P' & _).
  assert (d' = d1) by congruence. subst d'.
  assert (d1 = d) by (apply toordinal_inj; [assumption..|unfold days_between in T1; lia]).
  subst d1. now rewrite <- Ex.
Qed.

(** X9. Without a usable [nights] value (none given, or one outside
    [1 .. num_days]) the only range the counter ever records is the whole
    window, from [start_date] to [end_date], and a site gets it only when it
    is free on every day of the window: every key of the returned mapping is
    the id of a site whose list holds each day from [start_date] to the day
    before [end_date]. *)
Theorem default_nights_full_window (pi : dict (list string))
    (start_date end_date : date) (nights : option Z) (cur mx : Z)
    (by_id : int_dict (list date_range)) :
  valid_date start_date -> valid_date end_date -> parses_back' ->
  ~ nights_in_window nights (days_between start_date end_date) ->
  get_num_available_sites' pi start_date end_date nights = Ok (cur, mx, by_id) ->
  (forall k rs r, In (k, rs) by_id -> In r rs ->
     r = mkrange (format_date start_date INPUT_DATE_FORMAT)
           (format_date end_date INPUT_DATE_FORMAT))
  /\ (forall k, In k (keys by_id) ->
        exists site av,
          In (site, av) pi /\ int_of_str site = Ok k
          /\ forall d, valid_date d ->
               toordinal start_date <= toordinal d < toordinal end_date ->
               In (format_date d ISO_DATE_FORMAT_RESPONSE) av).
Proof.
  intros Vs Ve Hpf Hout H. split.
  - exact (full_window_ranges pi start_date
             end_date nights cur mx by_id Vs Ve Hpf Hout H).
  - exact (full_window_site pi start_date end_date nights cur mx by_id
             Vs Ve Hpf Hout H).
Qed.

(** X10. Dates outside the window never matter: the counter returns the same
    as on the mapping whose lists are cut down to the dates of the window. *)
Theorem out_of_window_dates_ignored (pi : dict (list string))
    (start_date end_date : date) (nights : option Z) (W : list string) :
  window_dates' start_date end_date = Ok W ->
  get_num_available_sites' pi start_date end_date nights
  = get_num_available_sites'
      (map (fun item => (fst item, desired_available W (snd item))) pi)
      start_date end_date nights.
Proof.
  intros HW. unfold get_num_available_sites. rewrite HW. cbn [bind].
  replace (len (map (fun item => (fst item, desired_available W (snd item))) pi))
    with (len pi) by (unfold len; now rewrite length_map).
  set (n := effective_nights nights (days_between start_date end_date)).
  assert (E : forall st,
    for_each (count_site' n W)
      (map (fun item => (fst item, desired_available W (snd item))) pi) st
    = for_each (count_site' n W) pi st).
  { induction pi as [|[site av] pi' IH]; intros st; [reflexivity|].
    cbn [map for_each fst snd]. destruct st as [c m].
    rewrite !count_site_eq, desired_available_idem.
    destruct (_ <- consecutive_nights' _ _ ;; _); cbn [bind]; [apply IH | reflexivity]. }
  now rewrite E.
Qed.

End CounterMore.

(** * More on the aggregator *)

Lemma months_spec (start_date end_date : date) :
  map month_index (months start_date end_date)
  = py_range (month_index start_date) (month_index end_date + 1)
  /\ Forall (fun m => day m = 1 /\ 1 <= month m <= 12) (months start_date end_date).
Proof.
  unfold months, month_index. split.
  - rewrite map_map. rewrite <- (map_id (py_range _ _)) at 2.
    apply map_ext. intros k. cbn. euclid.
  - apply Forall_map. apply Forall_forall. intros k _. cbn.
    split; [reflexivity | euclid].
Qed.

Section AggregatorMore.

Variable int_of_str : string -> result Z.
Variable type_filter : option string.
Variable campsite_ids : list Z.

Local Abbreviation collapse_campsite' :=
  (collapse_campsite int_of_str type_filter campsite_ids).
Local Abbreviation collapse' :=
  (fun api_data => collapse int_of_str api_data type_filter campsite_ids).
Local Abbreviation kept := (kept_dates int_of_str type_filter campsite_ids).
Local Abbreviation passes := (passes_filters int_of_str type_filter campsite_ids).

Lemma collapse_campsite_info (data data' : dict (list string))
    (data2 data2' : dict site_info) (id : string) (c : campsite) :
  collapse_campsite' (data, data2) (id, c) = Ok (data', data2') ->
  data2' = setdefault String.eqb data2 id (campsite_info c).
Proof.
  unfold collapse_campsite. intros H. apply bind_Ok in H.
  destruct H as (available & _ & H). destruct available; now injection H as _ <-.
Qed.

Lemma collapse_items_info (items : dict campsite) :
  forall data0 data20 data data2,
    for_each collapse_campsite' items (data0, data20) = Ok (data, data2) ->
    keys data2 = fold_left add_key (map fst items) (keys data20)
    /\ forall id,
         lookup String.eqb data2 id
         = match lookup String.eqb data20 id with
           | Some v => Some v
           | None => option_map campsite_info (lookup String.eqb items id)
           end.
Proof.
  induction items as [|[id0 c] items IH]; intros data0 data20 data data2 H.
  - cbn in H. injection H as <- <-. split; [reflexivity|].
    intros id. cbn. now destruct (lookup String.eqb data20 id).
  - cbn [for_each] in H. apply bind_Ok in H. destruct H as ([data1 data21] & H1 & H).
    apply collapse_campsite_info in H1. subst data21.
    destruct (IH _ _ _ _ H) as [K L]. split.
    + cbn. now rewrite K, keys_setdefault.
    + intros id. rewrite L, lookup_setdefault. cbn [lookup].
      destruct (lookup String.eqb data20 id); [reflexivity|].
      now destruct (String.eqb id id0).
Qed.

(** Both mappings of the aggregator are keyed by the same site ids. *)
Lemma collapse_same_keys (api_data : list (dict campsite))
    (data : dict (list string)) (data2 : dict site_info) :
  collapse' api_data = Ok (data, data2) -> keys data2 = keys data.
Proof.
  intros H. destruct (collapse_spec _ _ _ _ _ _ H) as [K _].
  unfold collapse in H. rewrite for_each_concat in H.
  destruct (collapse_items_info _ _ _ _ _ H) as [K2 _]. now rewrite K, K2.
Qed.

(** X11. The two mappings of the aggregator have the same keys in the same
    order, and the metadata of a site is taken from the first record met for
    it: later months never update it. *)
Theorem metadata_from_first_record (api_data : list (dict campsite))
    (data : dict (list string)) (data2 : dict site_info) :
  collapse' api_data = Ok (data, data2) ->
  keys data2 = keys data
  /\ forall id,
       lookup String.eqb data2 id
       = option_map campsite_info (lookup String.eqb (concat api_data) id).
Proof.
  intros H. destruct (collapse_spec _ _ _ _ _ _ H) as [K _].
  unfold collapse in H. rewrite for_each_concat in H.
  destruct (collapse_items_info _ _ _ _ _ H) as [K2 L2].
  split; [now rewrite K, K2|]. intros id. now rewrite L2.
Qed.

(** X12. With a campsite-type filter set, a record that has no
    ["campsite_type"] field raises [KeyError] exactly when it holds an
    Available date; without one it only leaves its key, mapped to nothing
    new. *)
Theorem missing_type_field (t : string) (data : dict (list string))
    (data2 : dict site_info) (id : string) (c : campsite) :
  wanted_type type_filter = Some t ->
  campsite_type c = None ->
  collapse_campsite' (data, data2) (id, c)
  = match available_dates c with
    | [] => Ok (setdefault String.eqb data id [],
                setdefault String.eqb data2 id (campsite_info c))
    | _ => Raise KeyError
    end.
Proof.
  intros Ht Hc. unfold collapse_campsite. rewrite keep_dates_loop.
  unfold available_dates. fold is_available.
  destruct (filter is_available (availabilities c)) as [|x l]; [reflexivity|].
  unfold filter_verdict. rewrite Ht, Hc. reflexivity.
Qed.

(** X13. Only Available dates get into the aggregated lists: every date
    listed for a site is marked ["Available"] in a record of that site that
    passes the filters. *)
Theorem only_available_dates (api_data : list (dict campsite))
    (data : dict (list string)) (data2 : dict site_info) (id : string)
    (l : list string) (d : string) :
  collapse' api_data = Ok (data, data2) ->
  lookup String.eqb data id = Some l -> In d l ->
  exists month_data c,
    In month_data api_data /\ In (id, c) month_data
    /\ In (d, "Available"%string) (availabilities c) /\ passes c = true.
Proof.
  intros H Hl Hd. destruct (collapse_spec _ _ _ _ _ _ H) as [_ L].
  rewrite L in Hl by (apply lookup_keys; eauto). injection Hl as <-.
  apply in_concat in Hd. destruct Hd as (ds & Hds & Hd).
  apply in_map_iff in Hds. destruct Hds as (month_data & <- & Hm).
  unfold month_dates in Hd. apply in_flat_map in Hd.
  destruct Hd as ([id' c] & Hc & Hd). cbn [fst snd] in Hd.
  destruct (String.eqb id id') eqn:E; [|destruct Hd].
  apply String.eqb_eq in E. subst id'. unfold kept_dates in Hd.
  destruct (passes c) eqn:P; [|destruct Hd].
  unfold available_dates in Hd. apply in_map_iff in Hd.
  destruct Hd as ([d' v] & <- & Hf). apply filter_In in Hf.
  destruct Hf as [Hin Hv]. cbn in Hv. apply String.eqb_eq in Hv. subst v.
  exists month_data, c. auto.
Qed.

End AggregatorMore.

Section FetchMore.

Variable strptime : string -> DateFormat -> result date.
Variable format_date : date -> DateFormat -> string.
Variable int_of_str : string -> result Z.
Variable get_availability : Z -> date -> result (dict campsite).
Variable get_park_name : Z -> result string.

Local Abbreviation get_park_information' :=
  (get_park_information int_of_str get_availability).
Local Abbreviation check_park' :=
  (check_park strptime format_date int_of_str get_availability get_park_name).

(** X14. One response is fetched for each calendar month from the month of
    [start_date] to the month of [end_date], in order, always for a valid
    first day of the month. *)
Theorem one_fetch_per_month (park_id : Z) (start_date end_date : date)
    (type_filter : option string) (campsite_ids : list Z)
    (r : dict (list string) * dict site_info) :
  valid_date start_date -> valid_date end_date ->
  get_park_information' park_id start_date end_date type_filter campsite_ids = Ok r ->
  exists api_data,
    Forall2 (fun m month_data => get_availability park_id m = Ok month_data)
      (months start_date end_date) api_data
    /\ collapse int_of_str api_data type_filter campsite_ids = Ok r
    /\ map month_index (months start_date end_date)
       = py_range (month_index start_date) (month_index end_date + 1)
    /\ Forall (fun m => valid_date m /\ day m = 1) (months start_date end_date).
Proof.
  intros Vs Ve H. unfold get_park_information in H. apply bind_Ok in H.
  destruct H as (api_data & Hf & Hc). exists api_data.
  split; [now apply comprehension_Forall2|]. split; [exact Hc|].
  destruct (months_spec start_date end_date) as [M D]. split; [exact M|].
  assert (Y : forall m, In m (months start_date end_date) ->
                        year start_date <= year m <= year end_date).
  { intros m Hm. assert (Hi : In (month_index m) (map month_index
                                   (months start_date end_date)))
      by (now apply in_map).
    rewrite M in Hi. apply in_py_range in Hi. rewrite Forall_forall in D.
    destruct (D m Hm) as [_ Dm]. unfold month_index in Hi.
    unfold valid_date, check_date_fields in Vs, Ve.
    repeat (apply andb_prop in Vs; destruct Vs as [Vs ?]).
    repeat (apply andb_prop in Ve; destruct Ve as [Ve ?]). lia. }
  rewrite Forall_forall in *. intros m Hm. destruct (D m Hm) as [D1 Dm].
  split; [|exact D1]. specialize (Y m Hm).
  unfold valid_date, check_date_fields in *.
  repeat (apply andb_prop in Vs; destruct Vs as [Vs ?]).
  repeat (apply andb_prop in Ve; destruct Ve as [Ve ?]).
  rewrite D1.
  assert (1 <= days_in_month (year m) (month m)).
  { unfold days_in_month. destruct (_ && _); [lia|].
    assert (C : month m = 1 \/ month m = 2 \/ month m = 3 \/ month m = 4
                \/ month m = 5 \/ month m = 6 \/ month m = 7 \/ month m = 8
                \/ month m = 9 \/ month m = 10 \/ month m = 11 \/ month m = 12) by lia.
    repeat (destruct C as [->|C]; [now vm_compute|]). rewrite C. now vm_compute. }
  repeat (apply andb_true_intro; split); lia.
Qed.

(** X15. When the month of [end_date] is before the month of [start_date]
    nothing is fetched and both mappings are empty, whatever the availability
    source would answer. *)
Theorem no_month_no_fetch (park_id : Z) (start_date end_date : date)
    (type_filter : option string) (campsite_ids : list Z) :
  month_index end_date < month_index start_date ->
  get_park_information' park_id start_date end_date type_filter campsite_ids
  = Ok ([], []).
Proof.
  intros H. unfold get_park_information, months, py_range. unfold month_index in H.
  replace (Z.to_nat _) with 0%nat by lia. reflexivity.
Qed.

(** X16. A failed fetch stops [check_park]: the first month whose fetch
    raises makes the whole check raise that error; no partial result is
    returned. *)
Theorem fetch_failure_stops_check (park_id : Z) (start_date end_date : date)
    (type_filter : option string) (campsite_ids : list Z) (nights : option Z)
    (before : list date) (m : date) (after : list date) (e : exn) :
  months start_date end_date = before ++ m :: after ->
  (forall a, In a before -> exists r, get_availability park_id a = Ok r) ->
  get_availability park_id m = Raise e ->
  check_park' park_id start_date end_date type_filter campsite_ids nights = Raise e.
Proof.
  intros Hm Hb He. unfold check_park, get_park_information. rewrite Hm.
  now rewrite (comprehension_first_error _ e).
Qed.

End FetchMore.

(** * More on the report data *)

Section ReportMore.

Variable lower : string -> string.

Lemma site_entry_id (info_by_site_id : dict site_info) (item : Z * list date_range)
    (sd : site_data) :
  site_entry info_by_site_id item = Ok sd -> sd_site_id sd = fst item.
Proof.
  destruct item as [site_id dates]. unfold site_entry. intros H.
  apply bind_Ok in H. destruct H as (info & _ & H). now injection H as <-.
Qed.

Lemma site_entries_ids (info_by_site_id : dict site_info)
    (by_id : int_dict (list date_range)) (sites : list site_data) :
  comprehension (site_entry info_by_site_id) by_id = Ok sites ->
  map sd_site_id sites = keys by_id.
Proof.
  intros H. apply comprehension_Forall2 in H. unfold keys.
  induction H as [|item sd l l' Hsd _ IH]; [reflexivity|].
  cbn. now rewrite (site_entry_id _ _ _ Hsd), IH.
Qed.

Lemma campground_entry_Ok (park_id : Z) (info : park_result) (cg : campground_data) :
  campground_entry lower (park_id, info) = Ok cg ->
  exists sites,
    comprehension (site_entry (park_additional_information info))
      (availabilities_filtered info) = Ok sites
    /\ cg = mkcampground park_id (park_name info) (maximum info) (current info)
              (sorted (site_key lower) sites).
Proof.
  unfold campground_entry. intros H. apply bind_Ok in H.
  destruct H as (sites & Hs & H). exists sites. split; [exact Hs|].
  now injection H as <-.
Qed.

(** One entry per park, in the order of the input, with its sites sorted. *)
Lemma getOutputData_entries (info_by_park_id : int_dict park_result)
    (out : list campground_data) :
  getOutputData lower info_by_park_id = Ok out ->
  Forall2 (fun item cg =>
             cg_park_id cg = fst item
             /\ cg_park_name cg = park_name (snd item)
             /\ cg_total_sites_count cg = maximum (snd item)
             /\ cg_available_sites_count cg = current (snd item)
             /\ sites_sorted lower cg
             /\ Permutation (keys (availabilities_filtered (snd item)))
                  (map sd_site_id (cg_available_sites cg)))
    info_by_park_id out.
Proof.
  unfold getOutputData. intros H. apply comprehension_Forall2 in H.
  induction H as [|[park_id info] cg l l' Hcg _ IH]; constructor; [|exact IH].
  destruct (campground_entry_Ok _ _ _ Hcg) as (sites & Hs & ->). cbn.
  repeat (split; [reflexivity|]).
  destruct (sorted_spec (site_key lower) sites) as [P S]. split; [exact S|].
  rewrite <- (site_entries_ids _ _ _ Hs). now apply Permutation_map.
Qed.

(** X17. The report has one entry per park, in the order of
    [info_by_park_id], carrying the park's id, name, [maximum] and
    [current]. *)
Theorem report_keeps_parks (info_by_park_id : int_dict park_result)
    (out : list campground_data) :
  getOutputData lower info_by_park_id = Ok out ->
  Forall2 (fun item cg =>
             cg_park_id cg = fst item
             /\ cg_park_name cg = park_name (snd item)
             /\ cg_total_sites_count cg = maximum (snd item)
             /\ cg_available_sites_count cg = current (snd item))
    info_by_park_id out.
Proof.
  intros H. eapply Forall2_impl; [|exact (getOutputData_entries _ _ H)].
  cbn. tauto.
Qed.

(** X18. The listed sites of a park are the keys of its range mapping, each
    once, rearranged in the order of (lower-cased loop name, site label). *)
Theorem report_sites_sorted (info_by_park_id : int_dict park_result)
    (out : list campground_data) :
  getOutputData lower info_by_park_id = Ok out ->
  Forall2 (fun item cg =>
             sites_sorted lower cg
             /\ Permutation (keys (availabilities_filtered (snd item)))
                  (map sd_site_id (cg_available_sites cg)))
    info_by_park_id out.
Proof.
  intros H. eapply Forall2_impl; [|exact (getOutputData_entries _ _ H)].
  cbn. tauto.
Qed.

Lemma getitem_cases {V : Type} (d : dict V) (k : string) :
  (existsb (String.eqb k) (keys d) = true /\ exists v, getitem d k = Ok v)
  \/ (existsb (String.eqb k) (keys d) = false /\ getitem d k = Raise KeyError).
Proof.
  unfold getitem. destruct (lookup String.eqb d k) as [v|] eqn:E.
  - left. split; [|eauto]. apply existsb_exists. exists k.
    split; [apply lookup_keys; eauto | apply String.eqb_refl].
  - right. split; [|reflexivity].
    destruct (existsb (String.eqb k) (keys d)) eqn:X; [|reflexivity].
    apply existsb_exists in X. destruct X as (k' & Hk & Ek).
    apply String.eqb_eq in Ek. subst k'. apply lookup_keys in Hk.
    destruct Hk as (v & Hv). congruence.
Qed.

(** A comprehension whose element expression can only raise [e] returns when
    the test [ok] holds of every element and raises [e] otherwise. *)
Lemma comprehension_cases {A B : Type} (f : A -> result B) (ok : A -> bool)
    (e : exn) (xs : list A) :
  (forall x, (ok x = true /\ exists y, f x = Ok y)
             \/ (ok x = false /\ f x = Raise e)) ->
  match comprehension f xs with
  | Ok _ => forallb ok xs = true
  | Raise e' => e' = e /\ forallb ok xs = false
  end.
Proof.
  intros H. induction xs as [|x xs IH]; cbn; [reflexivity|].
  destruct (H x) as [[-> (y & ->)]|[-> ->]]; cbn; [|auto].
  destruct (comprehension f xs); cbn; exact IH.
Qed.

Lemma forallb_map_eq {A B : Type} (f : B -> bool) (g : A -> B) (l : list A) :
  forallb f (map g l) = forallb (fun x => f (g x)) l.
Proof. induction l as [|a l IH]; cbn [map forallb]; [reflexivity | now rewrite IH]. Qed.

Lemma campground_entry_cases (item : Z * park_result) :
  let known :=
    forallb (fun site_id =>
               existsb (String.eqb (str_of_int site_id))
                 (keys (park_additional_information (snd item))))
      (keys (availabilities_filtered (snd item))) in
  (known = true /\ exists cg, campground_entry lower item = Ok cg)
  \/ (known = false /\ campground_entry lower item = Raise KeyError).
Proof.
  destruct item as [park_id info]. cbn [snd]. unfold campground_entry.
  pose proof (comprehension_cases
                (site_entry (park_additional_information info))
                (fun it => existsb (String.eqb (str_of_int (fst it)))
                             (keys (park_additional_information info)))
                KeyError (availabilities_filtered info)) as C.
  assert (F : forallb (fun it : Z * list date_range =>
                         existsb (String.eqb (str_of_int (fst it)))
                           (keys (park_additional_information info)))
                (availabilities_filtered info)
              = forallb (fun site_id =>
                           existsb (String.eqb (str_of_int site_id))
                             (keys (park_additional_information info)))
                  (keys (availabilities_filtered info))).
  { unfold keys at 3. now rewrite forallb_map_eq. }
  rewrite F in C.
  assert (P : forall it : Z * list date_range,
            (existsb (String.eqb (str_of_int (fst it)))
               (keys (park_additional_information info)) = true
             /\ exists y, site_entry (park_additional_information info) it = Ok y)
            \/ (existsb (String.eqb (str_of_int (fst it)))
                  (keys (park_additional_information info)) = false
                /\ site_entry (park_additional_information info) it
                   = Raise KeyError)).
  { intros [site_id dates]. unfold site_entry, getSiteInformation. cbn [fst].
    destruct (getitem_cases (park_additional_information info) (str_of_int site_id))
      as [[-> (v & ->)]|[-> ->]]; cbn [bind]; [left; eauto | right; auto]. }
  specialize (C P).
  destruct (comprehension _ (availabilities_filtered info)) as [sites|e'].
  - left. split; [exact C|]. cbn [bind]. eauto.
  - destruct C as [-> C]. right. split; [exact C | reflexivity].
Qed.

(** X19. [getOutputData] returns exactly when every site id of every range
    mapping has its metadata under its decimal string; otherwise it raises
    [KeyError] and nothing else. *)
Theorem report_needs_metadata (info_by_park_id : int_dict park_result) :
  match getOutputData lower info_by_park_id with
  | Ok _ => all_sites_known info_by_park_id = true
  | Raise e => e = KeyError /\ all_sites_known info_by_park_id = false
  end.
Proof.
  unfold getOutputData, all_sites_known.
  apply comprehension_cases. intros item. apply campground_entry_cases.
Qed.

(** Inserting an item puts it before the items with its key and moves no
    other item across them. *)
Lemma filter_insert_by {A : Type} (key : A -> string * string) (k : string * string)
    (x : A) (l : list A) :
  filter (fun y => pair_eqb (key y) k) (insert_by key x l)
  = if pair_eqb (key x) k
    then x :: filter (fun y => pair_eqb (key y) k) l
    else filter (fun y => pair_eqb (key y) k) l.
Proof.
  induction l as [|y l IH]; cbn; [now destruct (pair_eqb (key x) k)|].
  destruct (pair_ltb (key y) (key x)) eqn:L; cbn.
  - rewrite IH. destruct (pair_eqb (key y) k) eqn:Ey; [|reflexivity].
    destruct (pair_eqb (key x) k) eqn:Ex; [|reflexivity].
    (* both keys equal k: then key y is not below key x *)
    exfalso. unfold pair_eqb in Ey, Ex.
    apply andb_prop in Ey, Ex. destruct Ey as [E1 E2], Ex as [E3 E4].
    apply String.eqb_eq in E1, E2, E3, E4.
    assert (key y = key x) as Ek
      by (destruct (key y), (key x); cbn in *; congruence).
    rewrite Ek, pair_ltb_irrefl in L. discriminate.
  - now destruct (pair_eqb (key x) k).
Qed.

(** The sort is stable: the items that share a sort key keep their order. *)
Lemma sorted_stable {A : Type} (key : A -> string * string)
    (k : string * string) (l : list A) :
  filter (fun y => pair_eqb (key y) k) (sorted key l)
  = filter (fun y => pair_eqb (key y) k) l.
Proof.
  induction l as [|x l IH]; [reflexivity|].
  unfold sorted in *. cbn [fold_right filter].
  rewrite filter_insert_by, IH. reflexivity.
Qed.

(** X20. Ties are not reordered: in the listing of a park the sites that
    share a sort key (lower-cased loop name, site label) come in the order
    their ids have in the range mapping. *)
Theorem report_ties_keep_order (info_by_park_id : int_dict park_result)
    (out : list campground_data) :
  getOutputData lower info_by_park_id = Ok out ->
  Forall2 (fun item cg =>
             exists sites,
               comprehension
                 (site_entry (park_additional_information (snd item)))
                 (availabilities_filtered (snd item)) = Ok sites
               /\ map sd_site_id sites = keys (availabilities_filtered (snd item))
               /\ forall k,
                    filter (fun sd => pair_eqb (site_key lower sd) k)
                      (cg_available_sites cg)
                    = filter (fun sd => pair_eqb (site_key lower sd) k) sites)
    info_by_park_id out.
Proof.
  unfold getOutputData. intros H. apply comprehension_Forall2 in H.
  induction H as [|[park_id info] cg l l' Hcg _ IH]; constructor; [|exact IH].
  destruct (campground_entry_Ok _ _ _ Hcg) as (sites & Hs & ->). cbn [snd].
  exists sites. split; [exact Hs|]. split; [exact (site_entries_ids _ _ _ Hs)|].
  intros k. cbn [cg_available_sites]. apply sorted_stable.
Qed.

End ReportMore.

(** * The driver *)

Lemma setitem_keys {V : Type} (d : int_dict V) (k : Z) (v : V) (k' : Z) :
  In k' (keys (setitem d k v)) <-> In k' (keys d) \/ k' = k.
Proof.
  unfold keys. induction d as [|[k0 v0] d IH]; cbn.
  - intuition.
  - destruct (Z.eqb_spec k k0) as [->|N]; cbn; [intuition|]. rewrite IH. intuition.
Qed.

Lemma setitem_NoDup {V : Type} (d : int_dict V) (k : Z) (v : V) :
  NoDup (keys d) -> NoDup (keys (setitem d k v)).
Proof.
  induction d as [|[k0 v0] d IH]; intros H.
  - cbn. repeat constructor. intros [].
  - cbn [setitem]. destruct (Z.eqb_spec k k0) as [->|N]; [exact H|].
    unfold keys in *. cbn [map fst] in *. inversion H as [|? ? Hn Hd]; subst.
    constructor; [|now apply IH].
    intros Hin. apply (setitem_keys d k v k0) in Hin. destruct Hin as [Hin|E];
      [exact (Hn Hin) | congruence].
Qed.

Lemma setitem_In {V : Type} (d : int_dict V) (k : Z) (v : V) (k' : Z) (v' : V) :
  In (k', v') (setitem d k v) -> In (k', v') d \/ (k' = k /\ v' = v).
Proof.
  induction d as [|[k0 v0] d IH]; cbn.
  - intros [E|[]]. injection E as <- <-. now right.
  - destruct (Z.eqb_spec k k0) as [->|N]; cbn.
    + intros [E|H]; [injection E as <- <-; now right | left; now right].
    + intros [E|H]; [left; now left|]. destruct (IH H) as [L|R]; [left; now right|now right].
Qed.

Lemma for_each_ext {A S : Type} (f g : S -> A -> result S) (xs : list A) :
  (forall s x, In x xs -> f s x = g s x) ->
  forall s, for_each f xs s = for_each g xs s.
Proof.
  induction xs as [|x xs IH]; intros H s; [reflexivity|]. cbn.
  rewrite (H s x (or_introl eq_refl)). destruct (g s x); cbn; [|reflexivity].
  apply IH. intros; apply H; now right.
Qed.

Section DriverFacts.

Variable lower : string -> string.
Variable strptime : string -> DateFormat -> result date.
Variable format_date : date -> DateFormat -> string.
Variable int_of_str : string -> result Z.

Section Source.

Variable get_availability : Z -> date -> result (dict campsite).
Variable get_park_name : Z -> result string.

Local Abbreviation check_park' :=
  (check_park strptime format_date int_of_str get_availability get_park_name).
Local Abbreviation main_info' :=
  (main_info_by_park_id strptime format_date int_of_str get_availability
     get_park_name).

(** What a successful [check_park] is made of. *)
Lemma check_park_Ok (park_id : Z) (start_date end_date : date)
    (type_filter : option string) (campsite_ids : list Z) (nights : option Z)
    (r : park_result) :
  check_park' park_id start_date end_date type_filter campsite_ids nights = Ok r ->
  exists api_data data,
    comprehension (get_availability park_id) (months start_date end_date)
    = Ok api_data
    /\ collapse int_of_str api_data type_filter campsite_ids
       = Ok (data, park_additional_information r)
    /\ get_park_name park_id = Ok (park_name r)
    /\ get_num_available_sites strptime format_date int_of_str data start_date
         end_date nights
       = Ok (current r, maximum r, availabilities_filtered r).
Proof.
  unfold check_park, get_park_information. intros H.
  apply bind_Ok in H. destruct H as ([data data2] & Hi & H).
  apply bind_Ok in Hi. destruct Hi as (api_data & Hf & Hc).
  apply bind_Ok in H. destruct H as (name & Hn & H).
  apply bind_Ok in H. destruct H as ([[c m] by_id] & Hg & H).
  injection H as <-. cbn. exists api_data, data. auto.
Qed.

(** The site ids that [check_park] returns ranges for have their metadata
    under their decimal string, when the site ids of the source are written
    the way [str] prints integers. *)
Lemma check_park_sites_known (park_id : Z) (start_date end_date : date)
    (type_filter : option string) (campsite_ids : list Z) (nights : option Z)
    (r : park_result) :
  check_park' park_id start_date end_date type_filter campsite_ids nights = Ok r ->
  (forall site k, In site (keys (park_additional_information r)) ->
     int_of_str site = Ok k -> str_of_int k = site) ->
  forallb (fun site_id =>
             existsb (String.eqb (str_of_int site_id))
               (keys (park_additional_information r)))
    (keys (availabilities_filtered r)) = true.
Proof.
  intros H Hcanon.
  destruct (check_park_Ok _ _ _ _ _ _ _ H) as (api_data & data & _ & Hc & _ & Hg).
  apply forallb_forall. intros k Hk.
  apply get_num_available_sites_Ok in Hg. destruct Hg as (W & _ & Hfe & _).
  destruct (count_sites_spec _ _ _ _ _ _ _ _ _ _ Hfe) as (rss & _ & _ & Hkeys & _).
  apply Hkeys in Hk. destruct Hk as [[]|(site & av & rs & Hin & _ & Hint)].
  assert (Hs : In site (keys data)).
  { apply in_combine_l in Hin. unfold keys. apply in_map_iff.
    exists (site, av). auto. }
  assert (Hs2 : In site (keys (park_additional_information r)))
    by (rewrite (collapse_same_keys _ _ _ _ _ _ Hc); exact Hs).
  apply existsb_exists. exists site. split; [exact Hs2|].
  rewrite (Hcanon site k Hs2 Hint). apply String.eqb_refl.
Qed.

(** X21. The result of [check_park] can always be turned into report data
    when the site ids of the source are written the way [str] prints
    integers: no [KeyError] then. *)
Theorem check_park_result_renders (park_id : Z) (start_date end_date : date)
    (type_filter : option string) (campsite_ids : list Z) (nights : option Z)
    (r : park_result) :
  check_park' park_id start_date end_date type_filter campsite_ids nights = Ok r ->
  (forall site k, In site (keys (park_additional_information r)) ->
     int_of_str site = Ok k -> str_of_int k = site) ->
  exists cg, campground_entry lower (park_id, r) = Ok cg.
Proof.
  intros H Hcanon.
  destruct (campground_entry_cases lower (park_id, r)) as [[_ R]|[K _]]; [exact R|].
  cbn [snd] in K. rewrite (check_park_sites_known _ _ _ _ _ _ _ H Hcanon) in K.
  discriminate K.
Qed.

Lemma main_info_spec (parks : list park_cfg) (start_date end_date : date) :
  forall info0 info,
    for_each
      (fun info_by_park_id park_i =>
         if cfg_check park_i
         then r <- check_park' (cfg_id park_i) start_date end_date
                     (Some EmptyString) [] None ;;
              Ok (setitem info_by_park_id (cfg_id park_i) r)
         else Ok info_by_park_id) parks info0 = Ok info ->
    (NoDup (keys info0) -> NoDup (keys info))
    /\ (forall id, In id (keys info) <->
          In id (keys info0)
          \/ exists p, In p parks /\ cfg_check p = true /\ cfg_id p = id)
    /\ (forall id r, In (id, r) info ->
          In (id, r) info0
          \/ check_park' id start_date end_date (Some EmptyString) [] None = Ok r).
Proof.
  induction parks as [|p parks IH]; intros info0 info H.
  - cbn in H. injection H as <-. split; [auto|]. split; [|auto].
    intros id. split; [auto | intros [L|(p & [] & _)]; exact L].
  - cbn [for_each] in H. apply bind_Ok in H. destruct H as (info1 & H1 & H).
    destruct (IH _ _ H) as (N & K & V). destruct (cfg_check p) eqn:C.
    + apply bind_Ok in H1. destruct H1 as (r & Hr & H1). apply Ok_inj in H1.
      subst info1. split; [|split].
      * intros N0. apply N. now apply setitem_NoDup.
      * intros id. rewrite K, setitem_keys. split.
        -- intros [[L|E]|(q & Hq & Cq & Eq)]; [now left | |].
           ++ right. exists p. split; [now left | split; [exact C | congruence]].
           ++ right. exists q. split; [now right | auto].
        -- intros [L|(q & [E|Hq] & Cq & Eq)]; [left; now left | |].
           ++ subst q. left. right. congruence.
           ++ right. exists q. auto.
      * intros id r' Hin. destruct (V id r' Hin) as [L|R]; [|now right].
        destruct (setitem_In _ _ _ _ _ L) as [L'|[-> ->]]; [now left | now right].
    + apply Ok_inj in H1. subst info1. split; [exact N|]. split; [|exact V].
      intros id. rewrite K. split.
      * intros [L|(q & Hq & Cq & Eq)]; [now left|]. right. exists q.
        split; [now right | auto].
      * intros [L|(q & [E|Hq] & Cq & Eq)]; [now left | subst q; congruence |].
        right. exists q. auto.
Qed.

(** X22. [main] checks exactly the parks whose ["check"] is set: each of
    their ids is a key of [info_by_park_id], once, no other id is, and the
    value of a key is the result of [check_park] for it with no campsite-type
    filter, no site-id list and no [nights]. *)
Theorem main_checks_enabled_parks (parks : list park_cfg)
    (start_date end_date : date) (info : int_dict park_result) :
  main_info' parks start_date end_date = Ok info ->
  NoDup (keys info)
  /\ (forall id, In id (keys info) <->
        exists p, In p parks /\ cfg_check p = true /\ cfg_id p = id)
  /\ (forall id r, In (id, r) info ->
        check_park' id start_date end_date (Some EmptyString) [] None = Ok r).
Proof.
  unfold main_info_by_park_id. intros H.
  destruct (main_info_spec _ _ _ _ _ H) as (N & K & V).
  split; [apply N; constructor|]. split.
  - intros id. rewrite K. cbn. tauto.
  - intros id r Hin. destruct (V id r Hin) as [[]|R]. exact R.
Qed.

(** X23. Through [main] a site is reported only when it is free on every day
    of the window: every range of every park is the whole window, and
    [maximum] counts every site of the fetched months. *)
Theorem main_reports_full_window (parks : list park_cfg)
    (start_date end_date : date) (info : int_dict park_result) :
  valid_date start_date -> valid_date end_date ->
  parses_back strptime format_date ->
  main_info' parks start_date end_date = Ok info ->
  forall id r, In (id, r) info ->
    (forall k rs range, In (k, rs) (availabilities_filtered r) -> In range rs ->
       range = mkrange (format_date start_date INPUT_DATE_FORMAT)
                 (format_date end_date INPUT_DATE_FORMAT))
    /\ exists api_data,
         comprehension (get_availability id) (months start_date end_date)
         = Ok api_data
         /\ maximum r = len (distinct_ids api_data)
         /\ 0 <= current r <= maximum r.
Proof.
  intros Vs Ve Hpf H id r Hin. unfold main_info_by_park_id in H.
  destruct (main_info_spec _ _ _ _ _ H) as (_ & _ & V).
  destruct (V id r Hin) as [[]|R].
  destruct (check_park_Ok _ _ _ _ _ _ _ R) as (api_data & data & Hf & Hc & _ & Hg).
  split.
  - intros k rs range Hk Hr.
    assert (Hout : ~ nights_in_window None (days_between start_date end_date))
      by (intros (n & E & _); discriminate).
    exact (full_window_ranges strptime format_date int_of_str data start_date
             end_date None _ _ _ Vs Ve Hpf Hout Hg k rs range Hk Hr).
  - exists api_data. split; [exact Hf|].
    destruct (count_bounds _ _ _ _ _ _ _ _ _ _ Hg) as (B & _ & _).
    split; [|exact B].
    destruct (collapse_spec _ _ _ _ _ _ Hc) as [K _].
    apply get_num_available_sites_Ok in Hg. destruct Hg as (_ & _ & _ & ->).
    unfold len. f_equal. rewrite <- K. unfold keys. now rewrite length_map.
Qed.

(** X24. Once every enabled park is checked, [main] gets its report data:
    with site ids written the way [str] prints integers the report step
    raises nothing and lists the checked parks in the order of
    [info_by_park_id]. *)
Theorem main_returns_report (parks : list park_cfg) (start_date end_date : date)
    (info : int_dict park_result) :
  main_info' parks start_date end_date = Ok info ->
  (forall id r site k, In (id, r) info ->
     In site (keys (park_additional_information r)) ->
     int_of_str site = Ok k -> str_of_int k = site) ->
  exists out,
    main lower strptime format_date int_of_str get_availability get_park_name parks
      start_date end_date = Ok out
    /\ map cg_park_id out = keys info.
Proof.
  intros H Hcanon. unfold main. rewrite H. cbn [bind].
  unfold main_info_by_park_id in H.
  destruct (main_info_spec _ _ _ _ _ H) as (_ & _ & V).
  assert (K : all_sites_known info = true).
  { unfold all_sites_known. apply forallb_forall. intros [id r] Hin. cbn [snd].
    destruct (V id r Hin) as [[]|R].
    exact (check_park_sites_known _ _ _ _ _ _ _ R
             (fun site k => Hcanon id r site k Hin)). }
  pose proof (comprehension_cases (campground_entry lower) _ KeyError info
                (campground_entry_cases lower)) as C.
  fold (getOutputData lower info) in C. fold (all_sites_known info) in C.
  destruct (getOutputData lower info) as [out|e] eqn:E.
  - exists out. split; [reflexivity|]. exact (proj1 (getOutputData_order _ _ _ E)).
  - destruct C as [_ C]. congruence.
Qed.

End Source.

(** X25. [main] never queries a park whose ["check"] is not set: two
    availability sources and two name resolvers that agree on the checked
    parks give the same [info_by_park_id]. *)
Theorem unchecked_parks_not_queried
    (get_availability get_availability' : Z -> date -> result (dict campsite))
    (get_park_name get_park_name' : Z -> result string)
    (parks : list park_cfg) (start_date end_date : date) :
  (forall p, In p parks -> cfg_check p = true ->
     (forall m, get_availability (cfg_id p) m = get_availability' (cfg_id p) m)
     /\ get_park_name (cfg_id p) = get_park_name' (cfg_id p)) ->
  main_info_by_park_id strptime format_date int_of_str get_availability
    get_park_name parks start_date end_date
  = main_info_by_park_id strptime format_date int_of_str get_availability'
      get_park_name' parks start_date end_date.
Proof.
  intros H. unfold main_info_by_park_id. apply for_each_ext.
  intros info p Hp. destruct (cfg_check p) eqn:C; [|reflexivity].
  destruct (H p Hp C) as [Ha Hn]. unfold check_park, get_park_information.
  rewrite (comprehension_ext _ (get_availability' (cfg_id p)))
    by (intros; apply Ha).
  now rewrite Hn.
Qed.

End DriverFacts.

(** * The concrete date format *)

Lemma Iso_digit_val_digit (k : Z) : Iso.digit_val (Iso.digit k) = Ok (k mod 10).
Proof.
  unfold Iso.digit. generalize (Z.mod_pos_bound k 10 ltac:(lia)).
  generalize (k mod 10). intros r Hr.
  assert (C : r = 0 \/ r = 1 \/ r = 2 \/ r = 3 \/ r = 4 \/ r = 5 \/ r = 6
              \/ r = 7 \/ r = 8 \/ r = 9) by lia.
  repeat (destruct C as [->|C]; [reflexivity|]). subst r. reflexivity.
Qed.

Lemma Iso_strptime_format (d : date) (f f' : DateFormat) :
  valid_date d -> Iso.strptime (Iso.format_date d f) f' = Ok d.
Proof.
  destruct d as [y m d]. unfold valid_date, Iso.format_date, Iso.pad4, Iso.pad2.
  cbn [year month day append]. intros Hv. unfold Iso.strptime.
  rewrite !Iso_digit_val_digit. cbn [bind].
  pose proof Hv as Hv'. unfold check_date_fields in Hv'.
  repeat (apply andb_prop in Hv'; destruct Hv' as [Hv' ?]).
  assert (Hdim : days_in_month y m <= 31).
  { unfold days_in_month. destruct (_ && _); [lia|].
    assert (C : m = 1 \/ m = 2 \/ m = 3 \/ m = 4 \/ m = 5 \/ m = 6 \/ m = 7
                \/ m = 8 \/ m = 9 \/ m = 10 \/ m = 11 \/ m = 12) by lia.
    repeat (destruct C as [->|C]; [now vm_compute|]). subst m. now vm_compute. }
  replace (1000 * ((y / 1000) mod 10) + 100 * ((y / 100) mod 10)
           + 10 * ((y / 10) mod 10) + y mod 10) with y by euclid.
  replace (10 * ((m / 10) mod 10) + m mod 10) with m by euclid.
  replace (10 * ((d / 10) mod 10) + d mod 10) with d by euclid.
  now rewrite Hv.
Qed.

Lemma Iso_strptime_valid (s : string) (f : DateFormat) (d : date) :
  Iso.strptime s f = Ok d -> valid_date d.
Proof.
  unfold Iso.strptime.
  do 10 (destruct s as [|? s]; [discriminate|]).
  destruct s; [|discriminate].
  destruct (_ && _); [|discriminate].
  intros H.
  repeat (apply bind_Ok in H; destruct H as (? & _ & H)).
  match type of H with
  | (if ?c then _ else _) = _ => destruct c eqn:E; [|discriminate]
  end.
  injection H as <-. exact E.
Qed.

(** * The range compactor on the scenarios of the specification *)

Local Open Scope string_scope.

Lemma scenario1_ordinals :
  Forall (fun o => 1 <= o < MAXORDINAL) [738702; 738703; 738704].
Proof. unfold MAXORDINAL. repeat constructor; lia. Defined.

Lemma scenario1_ascending : strictly_ascending [738702; 738703; 738704].
Proof. repeat constructor; lia. Defined.


(** Scenario 2: a gap on 2023-07-02 leaves two runs of one day, too short for
    two nights. *)
Example scenario2 :
  consecutive_nights Iso.strptime Iso.format_date ["2023-07-01"; "2023-07-03"] 2
  = Ok [].
Proof. reflexivity. Qed.

Lemma C2_witness :
  exists ds de,
    valid_date ds /\ valid_date de
    /\ "2023-07-02" = Iso.format_date ds INPUT_DATE_FORMAT
    /\ "2023-07-04" = Iso.format_date de INPUT_DATE_FORMAT
    /\ days_between ds de = 2
    /\ forall k, 0 <= k < 2 ->
         exists dstr d, In dstr scenario1
           /\ Iso.strptime dstr ISO_DATE_FORMAT_RESPONSE = Ok d
           /\ valid_date d /\ days_between ds d = k.
Proof.
  apply (C2_ranges_inside_available Iso.strptime Iso.format_date scenario1 2
           [("2023-07-01", "2023-07-03"); ("2023-07-02", "2023-07-04")]).
  - lia.
  - intros dstr d _ H. exact (Iso_strptime_valid _ _ _ H).
  - reflexivity.
  - right. left. reflexivity.
Defined.

(** C3 as stated fails twice: the two ranges of scenario 1 share the night of
    2023-07-02, and a list given in descending order yields ranges in
    descending order. *)
Lemma C3_counterexample :
  (exists out ws,
     consecutive_nights Iso.strptime Iso.format_date scenario1 2 = Ok out
     /\ ranges_as_ordinals Iso.strptime out = Ok ws
     /\ ~ non_overlapping ws)
  /\ (exists out ws,
        consecutive_nights Iso.strptime Iso.format_date
          ["2023-07-05"; "2023-07-01"] 1 = Ok out
        /\ ranges_as_ordinals Iso.strptime out = Ok ws
        /\ ~ ascending_starts ws).
Proof.
  split.
  - exists [("2023-07-01", "2023-07-03"); ("2023-07-02", "2023-07-04")],
           [(738702, 738704); (738703, 738705)].
    split; [reflexivity|]. split; [reflexivity|].
    intros H. inversion H as [|? ? Hx _]; subst.
    inversion Hx as [|? ? Hov _]; subst. apply Hov. unfold overlap; cbn. lia.
  - exists [("2023-07-05", "2023-07-06"); ("2023-07-01", "2023-07-02")],
           [(738706, 738707); (738702, 738703)].
    split; [reflexivity|]. split; [reflexivity|].
    intros H. inversion H as [|? ? _ Hx]; subst.
    inversion Hx as [|? ? Hle _]; subst. cbn in Hle. lia.
Qed.

Lemma C3_witness :
  consecutive_nights Iso.strptime Iso.format_date scenario1 2
  = Ok (map (format_window Iso.format_date) (windows_of 2 [738702; 738703; 738704]))
  /\ (forall w, In w (windows_of 2 [738702; 738703; 738704]) -> snd w = fst w + 2)
  /\ (forall w1 w2,
        In w1 (windows_of 2 [738702; 738703; 738704]) -> In w2 (windows_of 2 [738702; 738703; 738704]) ->
        (overlap w1 w2 <-> Z.abs (fst w1 - fst w2) < 2))
  /\ (ascending [738702; 738703; 738704] -> ascending_starts (windows_of 2 [738702; 738703; 738704]))
  /\ (2 = 1 -> ascending_starts (windows_of 2 [738702; 738703; 738704]) -> ascending [738702; 738703; 738704])
  /\ (strictly_ascending [738702; 738703; 738704] ->
        strictly_ascending_starts (windows_of 2 [738702; 738703; 738704])
        /\ ForallOrdPairs
             (fun g1 g2 => forall w1 w2,
                In w1 (windows_of_run 2 g1) -> In w2 (windows_of_run 2 g2) ->
                ~ overlap w1 w2)
             (consecutive_ranges [738702; 738703; 738704])
        /\ (2 = 1 -> non_overlapping (windows_of 2 [738702; 738703; 738704]))).
Proof.
  exact (C3_ascending_on_sorted_input Iso.strptime Iso.format_date scenario1 2
           [738702; 738703; 738704] ltac:(lia) eq_refl scenario1_ordinals).
Defined.

(** C4 as stated fails: two consecutive days given in descending order yield
    no range, while their sorted version yields one. *)
Lemma C4_counterexample :
  consecutive_nights Iso.strptime Iso.format_date ["2023-07-02"; "2023-07-01"] 2
  = Ok []
  /\ (sa <- sorted_available Iso.strptime ["2023-07-02"; "2023-07-01"] ;;
      consecutive_nights Iso.strptime Iso.format_date sa 2)
     = Ok [("2023-07-01", "2023-07-03")]
  /\ consecutive_nights Iso.strptime Iso.format_date ["2023-07-02"; "2023-07-01"] 2
     <> (sa <- sorted_available Iso.strptime ["2023-07-02"; "2023-07-01"] ;;
         consecutive_nights Iso.strptime Iso.format_date sa 2).
Proof.
  split; [reflexivity|]. split; [reflexivity|]. vm_compute. discriminate.
Qed.

Lemma C4_witness :
  consecutive_nights Iso.strptime Iso.format_date unsorted_dates 1
  = Ok (map (format_window Iso.format_date) (windows_of 1 [738704; 738702; 738702]))
  /\ (sa <- sorted_available Iso.strptime unsorted_dates ;;
      consecutive_nights Iso.strptime Iso.format_date sa 1)
     = Ok (map (format_window Iso.format_date)
             (windows_of 1 (sort_uniq (fun o => o) [738704; 738702; 738702])))
  /\ (1 = 1 ->
        windows_of 1 [738704; 738702; 738702] = map (fun o => (o, o + 1)) [738704; 738702; 738702]
        /\ (windows_of 1 [738704; 738702; 738702] = windows_of 1 (sort_uniq (fun o => o) [738704; 738702; 738702])
            <-> strictly_ascending [738704; 738702; 738702]))
  /\ (strictly_ascending [738704; 738702; 738702] ->
        sorted_available Iso.strptime unsorted_dates = Ok unsorted_dates
        /\ consecutive_nights Iso.strptime Iso.format_date unsorted_dates 1
           = (sa <- sorted_available Iso.strptime unsorted_dates ;;
              consecutive_nights Iso.strptime Iso.format_date sa 1)).
Proof.
  apply (C4_order_is_kept Iso.strptime Iso.format_date unsorted_dates 1 [738704; 738702; 738702]).
  - lia.
  - reflexivity.
  - unfold MAXORDINAL. repeat constructor; lia.
Defined.

(** * The site counter on the scenarios of the specification *)

Lemma Iso_parses_back : parses_back Iso.strptime Iso.format_date.
Proof. intros d V. now apply Iso_strptime_format. Qed.

Lemma C5_witness :
  exists W,
    window_dates Iso.format_date july_1 july_10 = Ok W
    /\ (forall x, In x W <->
          exists d, x = Iso.format_date d ISO_DATE_FORMAT_RESPONSE /\ valid_date d
            /\ toordinal july_1 <= toordinal d < toordinal july_10)
    /\ (forall site av x, In (site, av) overhanging ->
          In x (desired_available W av) <-> In x av /\ In x W)
    /\ (forall k rs r,
          In (k, rs) [(1, [mkrange "2023-07-01" "2023-07-03"])] -> In r rs ->
          exists site av out ds de,
            In (site, av) overhanging /\ Iso.int_of_str site = Ok k
            /\ consecutive_nights Iso.strptime Iso.format_date
                 (desired_available W av)
                 (effective_nights (Some 2) (days_between july_1 july_10))
               = Ok out
            /\ In (range_start r, range_end r) out
            /\ valid_date ds /\ valid_date de
            /\ range_start r = Iso.format_date ds INPUT_DATE_FORMAT
            /\ range_end r = Iso.format_date de INPUT_DATE_FORMAT
            /\ toordinal july_1 <= toordinal ds
            /\ toordinal de <= toordinal july_10).
Proof.
  apply (C5_window_filter Iso.strptime Iso.format_date Iso.int_of_str overhanging
           july_1 july_10 (Some 2) 1 1).
  - reflexivity.
  - reflexivity.
  - exact Iso_parses_back.
  - reflexivity.
Defined.

Example scenario3 :
  counter always_free july_1 july_10 None
  = Ok (1, 1, [(1, [mkrange "2023-07-01" "2023-07-10"])]).
Proof. reflexivity. Qed.

Lemma always_free_ids :
  forall site, In site (keys always_free) -> exists k, Iso.int_of_str site = Ok k.
Proof. intros site [<-|[]]. exists 1. reflexivity. Defined.

Lemma C6_witness :
  (exists used W rss cur by_id,
     (forall n, Some 8 = Some n -> 1 <= n <= days_between july_1 july_10 ->
        used = n)
     /\ (~ nights_in_window (Some 8) (days_between july_1 july_10) ->
           used = days_between july_1 july_10
           /\ counter always_free july_1 july_10 (Some 8)
              = counter always_free july_1 july_10
                  (Some (days_between july_1 july_10)))
     /\ window_dates Iso.format_date july_1 july_10 = Ok W
     /\ Forall2 (fun item rs =>
                   consecutive_nights Iso.strptime Iso.format_date
                     (desired_available W (snd item)) used
                   = Ok rs) always_free rss
     /\ counter always_free july_1 july_10 (Some 8)
        = Ok (cur, len always_free, by_id)
     /\ cur = len (filter has_ranges rss)
     /\ (forall k, In k (keys by_id) <->
           exists site av rs, In (site, av, rs) (combine always_free rss)
             /\ rs <> [] /\ Iso.int_of_str site = Ok k)
     /\ (forall k rs' r, In (k, rs') by_id -> In r rs' ->
           exists site av rs, In (site, av, rs) (combine always_free rss)
             /\ Iso.int_of_str site = Ok k
             /\ In (range_start r, range_end r) rs))
  /\ (exists used W rss cur by_id,
     (forall n, Some 12 = Some n -> 1 <= n <= days_between july_1 july_10 ->
        used = n)
     /\ (~ nights_in_window (Some 12) (days_between july_1 july_10) ->
           used = days_between july_1 july_10
           /\ counter always_free july_1 july_10 (Some 12)
              = counter always_free july_1 july_10
                  (Some (days_between july_1 july_10)))
     /\ window_dates Iso.format_date july_1 july_10 = Ok W
     /\ Forall2 (fun item rs =>
                   consecutive_nights Iso.strptime Iso.format_date
                     (desired_available W (snd item)) used
                   = Ok rs) always_free rss
     /\ counter always_free july_1 july_10 (Some 12)
        = Ok (cur, len always_free, by_id)
     /\ cur = len (filter has_ranges rss)
     /\ (forall k, In k (keys by_id) <->
           exists site av rs, In (site, av, rs) (combine always_free rss)
             /\ rs <> [] /\ Iso.int_of_str site = Ok k)
     /\ (forall k rs' r, In (k, rs') by_id -> In r rs' ->
           exists site av rs, In (site, av, rs) (combine always_free rss)
             /\ Iso.int_of_str site = Ok k
             /\ In (range_start r, range_end r) rs)).
Proof.
  split.
  - apply (C6_nights_clamped Iso.strptime Iso.format_date Iso.int_of_str
             always_free july_1 july_10 (Some 8)).
    + reflexivity.
    + reflexivity.
    + exact Iso_parses_back.
    + exact always_free_ids.
  - apply (C6_nights_clamped Iso.strptime Iso.format_date Iso.int_of_str
             always_free july_1 july_10 (Some 12)).
    + reflexivity.
    + reflexivity.
    + exact Iso_parses_back.
    + exact always_free_ids.
Defined.

Example scenario4 :
  counter two_sites july_1 july_10 (Some 2)
  = Ok (1, 2, [(1, [mkrange "2023-07-01" "2023-07-03"])]).
Proof. reflexivity. Qed.

Lemma C7_witness :
  exists W rss,
    window_dates Iso.format_date july_1 july_10 = Ok W
    /\ Forall2 (fun item rs =>
                  consecutive_nights Iso.strptime Iso.format_date
                    (desired_available W (snd item))
                    (effective_nights (Some 2) (days_between july_1 july_10))
                  = Ok rs) two_sites rss
    /\ 2 = len two_sites
    /\ 1 = len (filter has_ranges rss)
    /\ (forall k, In k (keys [(1, [mkrange "2023-07-01" "2023-07-03"])]) <->
          exists site av rs, In (site, av, rs) (combine two_sites rss)
            /\ rs <> [] /\ Iso.int_of_str site = Ok k)
    /\ Forall (fun kv => snd kv <> []) [(1, [mkrange "2023-07-01" "2023-07-03"])]
    /\ (forall site av rs, In (site, av, rs) (combine two_sites rss) ->
          desired_available W av = [] -> rs = []).
Proof.
  apply (C7_site_counts Iso.strptime Iso.format_date Iso.int_of_str two_sites
           july_1 july_10 (Some 2) 1 2).
  reflexivity.
Defined.

(** * The aggregator on two monthly responses *)

Example aggregate_without_filters :
  collapse Iso.int_of_str [july; august] None []
  = Ok ([("1", ["2023-07-30"; "2023-07-31"; "2023-08-01"]);
         ("2", ["2023-07-30"; "2023-08-01"])], site_infos).
Proof. reflexivity. Qed.

Lemma C8_witness :
  (forall id, In id (keys standard_sites) <->
     exists month_data c, In month_data [july; august] /\ In (id, c) month_data)
  /\ (forall id, In id (keys standard_sites) ->
        lookup String.eqb standard_sites id
        = Some (concat (map (month_dates
                               (kept_dates Iso.int_of_str (Some "STANDARD") []) id)
                          [july; august])))
  /\ (wanted_type (Some "STANDARD") = None -> @nil Z = [] ->
        forall id, In id (keys standard_sites) ->
          lookup String.eqb standard_sites id
          = Some (concat (map (month_dates available_dates id) [july; august]))).
Proof.
  apply (C8_months_accumulate Iso.int_of_str (Some "STANDARD") [] [july; august]
           standard_sites site_infos).
  reflexivity.
Defined.

Lemma C10_witness :
  keys standard_sites = distinct_ids [july; august]
  /\ (forall month_data id c,
        In month_data [july; august] -> In (id, c) month_data ->
        In id (keys standard_sites))
  /\ (forall id, In id (keys standard_sites) ->
        (forall month_data c, In month_data [july; august] ->
           In (id, c) month_data ->
           passes_filters Iso.int_of_str (Some "STANDARD") [] c = false
           \/ available_dates c = []) ->
        lookup String.eqb standard_sites id = Some [])
  /\ 2 = len (distinct_ids [july; august]).
Proof.
  apply (C10_filtered_sites_counted Iso.int_of_str (Some "STANDARD") []
           Iso.strptime Iso.format_date [july; august] standard_sites site_infos
           (mkdate 2023 7 30) (mkdate 2023 8 2) (Some 2) 1 2
           [(1, [mkrange "2023-07-30" "2023-08-01";
                 mkrange "2023-07-31" "2023-08-02"])]).
  - reflexivity.
  - reflexivity.
Defined.

(** * The report data on two parks *)

(** C9. The per-site listing of each park is sorted by lower-cased loop name
    and site label, but the parks are left in the order of the input: here
    "Watchman Campground" comes before "Blackwoods Campground". This holds
    for every [lower] that folds the three loop names of the input as
    [str.lower] does. *)
Theorem C9_parks_not_sorted (lower : string -> string) :
  lower "Loop B" = "loop b" ->
  lower "loop a" = "loop a" ->
  lower "LOOP A" = "loop a" ->
  exists out,
    getOutputData lower two_parks = Ok out
    /\ map cg_park_name out = ["Watchman Campground"; "Blackwoods Campground"]
    /\ map (fun cg => map sd_site_id (cg_available_sites cg)) out = [[3; 2; 1]; []]
    /\ Forall (sites_sorted lower) out
    /\ ~ parks_sorted out.
Proof.
  intros HB Ha HA.
  assert (E : getOutputData lower two_parks = Ok two_parks_report).
  { unfold getOutputData, two_parks, campground_entry. cbn.
    repeat (progress (unfold site_key; cbn; rewrite ?HB, ?Ha, ?HA)).
    reflexivity. }
  exists two_parks_report. split; [exact E|].
  split; [reflexivity|]. split; [reflexivity|].
  split; [exact (getOutputData_sites_sorted lower _ _ E)|].
  intros P. inversion P as [|? ? _ Hx]; subst.
  inversion Hx as [|? ? Hle _]; subst. vm_compute in Hle. discriminate.
Qed.

Lemma C9_witness :
  exists out,
    getOutputData AsciiText.lower two_parks = Ok out
    /\ map cg_park_name out = ["Watchman Campground"; "Blackwoods Campground"]
    /\ map (fun cg => map sd_site_id (cg_available_sites cg)) out = [[3; 2; 1]; []]
    /\ Forall (sites_sorted AsciiText.lower) out
    /\ ~ parks_sorted out.
Proof.
  apply (C9_parks_not_sorted AsciiText.lower); reflexivity.
Defined.

(** * The further properties on the scenarios *)

Lemma nonpositive_nights_raise_witness :
  consecutive_nights Iso.strptime Iso.format_date scenario1 0 = Raise IndexError.
Proof.
  apply (nonpositive_nights_raise Iso.strptime Iso.format_date scenario1 0
           [738702; 738703; 738704]).
  - lia.
  - reflexivity.
  - exact scenario1_ordinals.
Defined.

Lemma unparseable_date_raises_witness :
  consecutive_nights Iso.strptime Iso.format_date
    ["2023-07-01"; "2023-02-30"; "2023-07-03"] 2
  = Raise ValueError.
Proof.
  apply (unparseable_date_raises Iso.strptime Iso.format_date ["2023-07-01"]
           "2023-02-30" ["2023-07-03"] 2 ValueError).
  - intros a [<-|[]]. eexists. reflexivity.
  - reflexivity.
Defined.

Lemma more_nights_fewer_starts_witness :
  1 <= 2
  /\ forall start_nice end_nice',
       In (start_nice, end_nice') [("2023-07-01", "2023-07-04")] ->
       exists end_nice,
         In (start_nice, end_nice)
           [("2023-07-01", "2023-07-03"); ("2023-07-02", "2023-07-04")].
Proof.
  split; [lia|].
  apply (more_nights_fewer_starts Iso.strptime Iso.format_date scenario1 2).
  - lia.
  - reflexivity.
  - reflexivity.
Defined.

Lemma every_full_stretch_is_emitted_witness :
  consecutive_nights Iso.strptime Iso.format_date scenario1 2
  = Ok (map (format_window Iso.format_date)
          (windows_of 2 [738702; 738703; 738704]))
  /\ forall s e,
       In (s, e) (windows_of 2 [738702; 738703; 738704]) <->
       e = s + 2 /\ forall k, 0 <= k < 2 -> In (s + k) [738702; 738703; 738704].
Proof.
  apply (every_full_stretch_is_emitted Iso.strptime Iso.format_date scenario1 2
           [738702; 738703; 738704]).
  - lia.
  - reflexivity.
  - exact scenario1_ordinals.
  - exact scenario1_ascending.
Defined.

Lemma one_night_one_range_per_date_witness :
  consecutive_nights Iso.strptime Iso.format_date
    ["2023-07-03"; "2023-07-01"; "2023-07-01"] 1
  = Ok [("2023-07-03", "2023-07-04"); ("2023-07-01", "2023-07-02");
        ("2023-07-01", "2023-07-02")].
Proof.
  apply (one_night_one_range_per_date Iso.strptime Iso.format_date
           ["2023-07-03"; "2023-07-01"; "2023-07-01"] [738704; 738702; 738702]).
  - reflexivity.
  - unfold MAXORDINAL. repeat constructor; lia.
Defined.

Lemma emitted_start_is_input_date_witness :
  1 <= 2
  /\ forall start_nice end_nice,
       In (start_nice, end_nice)
         [("2023-07-01", "2023-07-03"); ("2023-07-02", "2023-07-04")] ->
       exists dstr d dstr' d' de,
         In dstr scenario1 /\ Iso.strptime dstr ISO_DATE_FORMAT_RESPONSE = Ok d
         /\ start_nice = Iso.format_date d INPUT_DATE_FORMAT
         /\ In dstr' scenario1
         /\ Iso.strptime dstr' ISO_DATE_FORMAT_RESPONSE = Ok d'
         /\ days_between d d' = 2 - 1
         /\ valid_date de /\ days_between d' de = 1
         /\ end_nice = Iso.format_date de INPUT_DATE_FORMAT.
Proof.
  split; [lia|].
  apply (emitted_start_is_input_date Iso.strptime Iso.format_date scenario1 2).
  - lia.
  - intros dstr d _ H. exact (Iso_strptime_valid _ _ _ H).
  - reflexivity.
Defined.

Lemma empty_window_counts_nothing_witness :
  counter always_free july_10 july_1 (Some 2) = Ok (0, 1, []).
Proof.
  apply (empty_window_counts_nothing Iso.strptime Iso.format_date Iso.int_of_str
           always_free july_10 july_1 (Some 2)).
  vm_compute. discriminate.
Defined.

Lemma counts_are_consistent_witness :
  0 <= 1 <= 2 /\ NoDup (keys [(1, [some_range])])
  /\ len [(1, [some_range])] <= 1.
Proof.
  apply (counts_are_consistent Iso.strptime Iso.format_date Iso.int_of_str
           two_sites july_1 july_10 (Some 2) 1 2 [(1, [some_range])]).
  reflexivity.
Defined.

Lemma default_nights_full_window_witness :
  (forall k rs r,
     In (k, rs) [(1, [mkrange "2023-07-01" "2023-07-10"])] -> In r rs ->
     r = mkrange (Iso.format_date july_1 INPUT_DATE_FORMAT)
           (Iso.format_date july_10 INPUT_DATE_FORMAT))
  /\ (forall k, In k (keys [(1, [mkrange "2023-07-01" "2023-07-10"])]) ->
        exists site av,
          In (site, av) always_free /\ Iso.int_of_str site = Ok k
          /\ forall d, valid_date d ->
               toordinal july_1 <= toordinal d < toordinal july_10 ->
               In (Iso.format_date d ISO_DATE_FORMAT_RESPONSE) av).
Proof.
  apply (default_nights_full_window Iso.strptime Iso.format_date Iso.int_of_str
           always_free july_1 july_10 None 1 1).
  - reflexivity.
  - reflexivity.
  - exact Iso_parses_back.
  - intros (n & E & _). discriminate E.
  - reflexivity.
Defined.

Lemma out_of_window_dates_ignored_witness :
  counter overhanging july_1 july_10 (Some 2)
  = counter
      (map (fun item => (fst item, desired_available july_window (snd item)))
         overhanging)
      july_1 july_10 (Some 2).
Proof.
  apply (out_of_window_dates_ignored Iso.strptime Iso.format_date Iso.int_of_str
           overhanging july_1 july_10 (Some 2) july_window).
  reflexivity.
Defined.

Lemma metadata_from_first_record_witness :
  keys site_infos = keys standard_sites
  /\ forall id,
       lookup String.eqb site_infos id
       = option_map campsite_info (lookup String.eqb (concat [july; august]) id).
Proof.
  apply (metadata_from_first_record Iso.int_of_str (Some "STANDARD") []
           [july; august] standard_sites site_infos).
  reflexivity.
Defined.

Lemma missing_type_field_witness :
  collapse_campsite Iso.int_of_str (Some "STANDARD") [] ([], []) ("7", untyped)
  = Raise KeyError.
Proof.
  apply (missing_type_field Iso.int_of_str (Some "STANDARD") [] "STANDARD" [] []
           "7" untyped).
  - reflexivity.
  - reflexivity.
Defined.

Lemma only_available_dates_witness :
  exists month_data c,
    In month_data [july; august] /\ In ("1", c) month_data
    /\ In ("2023-08-01", "Available") (availabilities c)
    /\ passes_filters Iso.int_of_str (Some "STANDARD") [] c = true.
Proof.
  apply (only_available_dates Iso.int_of_str (Some "STANDARD") [] [july; august]
           standard_sites site_infos "1"
           ["2023-07-30"; "2023-07-31"; "2023-08-01"] "2023-08-01").
  - reflexivity.
  - reflexivity.
  - right. right. left. reflexivity.
Defined.

Lemma one_fetch_per_month_witness :
  exists api_data,
    Forall2 (fun m month_data => one_park_source 232447 m = Ok month_data)
      (months july_30 august_2) api_data
    /\ collapse Iso.int_of_str api_data (Some "STANDARD") []
       = Ok (standard_sites, site_infos)
    /\ map month_index (months july_30 august_2)
       = py_range (month_index july_30) (month_index august_2 + 1)
    /\ Forall (fun m => valid_date m /\ day m = 1) (months july_30 august_2).
Proof.
  apply (one_fetch_per_month Iso.int_of_str one_park_source 232447 july_30
           august_2 (Some "STANDARD") [] (standard_sites, site_infos)).
  - reflexivity.
  - reflexivity.
  - reflexivity.
Defined.

Lemma no_month_no_fetch_witness :
  get_park_information Iso.int_of_str one_park_source 232447 august_2 july_30
    (Some "STANDARD") []
  = Ok ([], []).
Proof.
  apply (no_month_no_fetch Iso.int_of_str one_park_source 232447 august_2 july_30
           (Some "STANDARD") []).
  reflexivity.
Defined.

Lemma fetch_failure_stops_check_witness :
  check_park Iso.strptime Iso.format_date Iso.int_of_str one_park_source
    one_park_name 232447 july_30 (mkdate 2023 9 2) (Some "") [] None
  = Raise ValueError.
Proof.
  apply (fetch_failure_stops_check Iso.strptime Iso.format_date Iso.int_of_str
           one_park_source one_park_name 232447 july_30 (mkdate 2023 9 2)
           (Some "") [] None [mkdate 2023 7 1; mkdate 2023 8 1] (mkdate 2023 9 1)
           [] ValueError).
  - reflexivity.
  - intros a [<-|[<-|[]]]; eexists; reflexivity.
  - reflexivity.
Defined.

Lemma report_keeps_parks_witness :
  Forall2 (fun item cg =>
             cg_park_id cg = fst item
             /\ cg_park_name cg = park_name (snd item)
             /\ cg_total_sites_count cg = maximum (snd item)
             /\ cg_available_sites_count cg = current (snd item))
    two_parks two_parks_report.
Proof. apply (report_keeps_parks AsciiText.lower two_parks two_parks_report). reflexivity. Defined.

Lemma report_sites_sorted_witness :
  Forall2 (fun item cg =>
             sites_sorted AsciiText.lower cg
             /\ Permutation (keys (availabilities_filtered (snd item)))
                  (map sd_site_id (cg_available_sites cg)))
    two_parks two_parks_report.
Proof. apply (report_sites_sorted AsciiText.lower two_parks two_parks_report). reflexivity. Defined.

Lemma report_ties_keep_order_witness :
  Forall2 (fun item cg =>
             exists sites,
               comprehension
                 (site_entry (park_additional_information (snd item)))
                 (availabilities_filtered (snd item)) = Ok sites
               /\ map sd_site_id sites = keys (availabilities_filtered (snd item))
               /\ forall k,
                    filter (fun sd => pair_eqb (site_key AsciiText.lower sd) k)
                      (cg_available_sites cg)
                    = filter (fun sd => pair_eqb (site_key AsciiText.lower sd) k) sites)
    two_parks two_parks_report.
Proof.
  apply (report_ties_keep_order AsciiText.lower two_parks two_parks_report). reflexivity.
Defined.

Lemma check_park_result_renders_witness :
  exists cg, campground_entry AsciiText.lower (232447, watchman) = Ok cg.
Proof.
  apply (check_park_result_renders AsciiText.lower Iso.strptime Iso.format_date Iso.int_of_str
           one_park_source one_park_name 232447 july_30 august_2 (Some "") []
           None watchman).
  - reflexivity.
  - intros site k [<-|[<-|[]]] E; vm_compute in E; injection E as <-; reflexivity.
Defined.

Lemma main_checks_enabled_parks_witness :
  NoDup (keys [(232447, watchman)])
  /\ (forall id, In id (keys [(232447, watchman)]) <->
        exists p, In p configured /\ cfg_check p = true /\ cfg_id p = id)
  /\ (forall id r, In (id, r) [(232447, watchman)] ->
        check_park Iso.strptime Iso.format_date Iso.int_of_str one_park_source
          one_park_name id july_30 august_2 (Some "") [] None
        = Ok r).
Proof.
  apply (main_checks_enabled_parks Iso.strptime Iso.format_date Iso.int_of_str
           one_park_source one_park_name configured july_30 august_2
           [(232447, watchman)]).
  reflexivity.
Defined.

Lemma main_reports_full_window_witness :
  valid_date july_30 /\ valid_date august_2
  /\ forall id r, In (id, r) [(232447, watchman)] ->
       (forall k rs range,
          In (k, rs) (availabilities_filtered r) -> In range rs ->
          range = mkrange (Iso.format_date july_30 INPUT_DATE_FORMAT)
                    (Iso.format_date august_2 INPUT_DATE_FORMAT))
       /\ exists api_data,
            comprehension (one_park_source id) (months july_30 august_2)
            = Ok api_data
            /\ maximum r = len (distinct_ids api_data)
            /\ 0 <= current r <= maximum r.
Proof.
  split; [reflexivity|]. split; [reflexivity|].
  apply (main_reports_full_window Iso.strptime Iso.format_date Iso.int_of_str
           one_park_source one_park_name configured july_30 august_2
           [(232447, watchman)]).
  - reflexivity.
  - reflexivity.
  - exact Iso_parses_back.
  - reflexivity.
Defined.

Lemma main_returns_report_witness :
  exists out,
    main AsciiText.lower Iso.strptime Iso.format_date Iso.int_of_str one_park_source
      one_park_name configured july_30 august_2 = Ok out
    /\ map cg_park_id out = keys [(232447, watchman)].
Proof.
  apply (main_returns_report AsciiText.lower Iso.strptime Iso.format_date Iso.int_of_str
           one_park_source one_park_name configured july_30 august_2
           [(232447, watchman)]).
  - reflexivity.
  - intros id r site k [E|[]]; injection E as <- <-.
    intros [<-|[<-|[]]] E; vm_compute in E; injection E as <-; reflexivity.
Defined.

Lemma unchecked_parks_not_queried_witness :
  main_info_by_park_id Iso.strptime Iso.format_date Iso.int_of_str
    one_park_source one_park_name configured july_30 august_2
  = main_info_by_park_id Iso.strptime Iso.format_date Iso.int_of_str
      any_park_source any_park_name configured july_30 august_2.
Proof.
  apply (unchecked_parks_not_queried Iso.strptime Iso.format_date Iso.int_of_str
           one_park_source any_park_source one_park_name any_park_name
           configured july_30 august_2).
  intros p [<-|[<-|[<-|[]]]] C; try discriminate C;
    (split; [intros m|]; reflexivity).
Defined.
